(** * Minesweeper: the minefield engine of [minesweeper/field.py] and the
    win check of [minesweeper/application.py], embedded and verified.

    Python values are modelled as follows.
    - A Python [int] is a [Z]; a NumPy integer array is an [ndarray Z],
      the row-major buffer together with its two-dimensional shape.  All
      integers stored by the engine are small (0, 1, a neighbour count),
      so 64-bit wrap-around never occurs and is not written out.
    - A Python [float] is a binary64 [float]; [round] and the conversion
      [int -> float] are defined on the IEEE value.
    - A call either returns, raises, or does not finish within the fuel
      that bounds its [while] loops: [outcome].
    - [set(...)] is a [gset]; iterating a set goes through [set_order],
      an arbitrary enumeration of its elements.
    - [time.time()] and [np.random.shuffle] are inputs: the clock is a
      sequence of readings and the shuffle is any function that permutes
      its argument. *)

From Stdlib Require Import ZArith Floats.
From stdpp Require Import base tactics option list sets gmap strings pretty.

Local Open Scope Z_scope.

(** ** Outcomes of a call *)

Inductive exn : Set :=
| IndexError
| ValueError
| AttributeError
| OverflowError
| TypeError.

Inductive outcome (A : Type) : Type :=
| Ok (a : A)
| Raise (e : exn)
| Timeout.

Arguments Ok {A} a.
Arguments Raise {A} e.
Arguments Timeout {A}.

Definition obind {A B : Type} (m : outcome A) (k : A → outcome B) : outcome B :=
  match m with
  | Ok a => k a
  | Raise e => Raise e
  | Timeout => Timeout
  end.

#[global] Instance outcome_ret : MRet outcome := λ A a, Ok a.
#[global] Instance outcome_bind : MBind outcome := λ A B k m, obind m k.

Fixpoint omapM {A B : Type} (f : A → outcome B) (l : list A) : outcome (list B) :=
  match l with
  | [] => Ok []
  | x :: l' => y ← f x; ys ← omapM f l'; Ok (y :: ys)
  end.

Fixpoint ofilterM {A : Type} (f : A → outcome bool) (l : list A) : outcome (list A) :=
  match l with
  | [] => Ok []
  | x :: l' => b ← f x; ys ← ofilterM f l'; Ok (if b : bool then x :: ys else ys)
  end.

(** ** NumPy arrays *)

(** A cell position [(row, col)]. *)
Abbreviation coord := (Z * Z)%type (only parsing).

Record ndarray (A : Type) : Type := mk_ndarray {
  shape : nat * nat;
  data : list A
}.

Arguments mk_ndarray {A} shape data.
Arguments shape {A} _.
Arguments data {A} _.

Definition size_of (sh : nat * nat) : nat := (sh.1 * sh.2)%nat.

(** [a[i]] along an axis of length [n]: a negative index counts from the
    end, anything outside [-n, n) is an [IndexError]. *)
Definition np_index (n : nat) (i : Z) : option nat :=
  if bool_decide (0 ≤ i < Z.of_nat n) then Some (Z.to_nat i)
  else if bool_decide (- Z.of_nat n ≤ i < 0) then Some (Z.to_nat (i + Z.of_nat n))
  else None.

Definition np_offset (sh : nat * nat) (p : coord) : option nat :=
  match np_index sh.1 p.1, np_index sh.2 p.2 with
  | Some r, Some c => Some (r * sh.2 + c)%nat
  | _, _ => None
  end.

(** [a[r, c]] *)
Definition np_get {A : Type} (a : ndarray A) (p : coord) : outcome A :=
  match np_offset (shape a) p with
  | Some k => match data a !! k with Some v => Ok v | None => Raise IndexError end
  | None => Raise IndexError
  end.

(** [a[r, c] = v] *)
Definition np_set {A : Type} (a : ndarray A) (p : coord) (v : A) : outcome (ndarray A) :=
  match np_offset (shape a) p with
  | Some k =>
      if bool_decide (k < length (data a))%nat
      then Ok (mk_ndarray (shape a) (<[k:=v]> (data a)))
      else Raise IndexError
  | None => Raise IndexError
  end.

(** [np.zeros(shape, dtype=int)] and [np.zeros_like] *)
Definition np_zeros (sh : nat * nat) : ndarray Z :=
  mk_ndarray sh (replicate (size_of sh) 0).

(** [np.reshape(flat, (rows, cols))] *)
Definition np_reshape {A : Type} (flat : list A) (sh : nat * nat) : outcome (ndarray A) :=
  if bool_decide (length flat = size_of sh) then Ok (mk_ndarray sh flat)
  else Raise ValueError.

(** Element-wise binary operators on arrays of one shape (the engine never
    combines arrays of different shapes; broadcasting is not modelled and
    a shape mismatch raises). *)
Definition np_zip {A B C : Type} (f : A → B → C) (a : ndarray A) (b : ndarray B)
  : outcome (ndarray C) :=
  if bool_decide (shape a = shape b)
  then Ok (mk_ndarray (shape a) (zip_with f (data a) (data b)))
  else Raise ValueError.

Definition np_map {A B : Type} (f : A → B) (a : ndarray A) : ndarray B :=
  mk_ndarray (shape a) (f <$> data a).

Definition np_sum (a : ndarray Z) : Z := foldr Z.add 0 (data a).

Definition truthy (v : Z) : bool := negb (v =? 0).

(** [np.any(a)], [np.all(a)], [a.astype(bool)], [~a] on a boolean array *)
Definition np_any (a : ndarray Z) : bool := existsb truthy (data a).
Definition np_all (a : ndarray bool) : bool := forallb id (data a).
Definition astype_bool (a : ndarray Z) : ndarray bool := np_map truthy a.
Definition np_invert (a : ndarray bool) : ndarray bool := np_map negb a.

(** ** Floats: [float(n)], [round(x)] *)

(** [float(n)] for a Python int: the nearest binary64, [OverflowError]
    beyond the largest finite one. *)
Definition float_of_int (n : Z) : outcome float :=
  let sf := binary_normalize prec emax n 0 false in
  match sf with
  | S754_infinity _ => Raise OverflowError
  | _ => Ok (SF2Prim sf)
  end.

(** Round half to even of [m / 2^k], [m >= 0]. *)
Definition round_half_even (m : Z) (k : Z) : Z :=
  let d := 2 ^ k in
  let q := m / d in
  let r := m mod d in
  match Z.compare (2 * r) d with
  | Lt => q
  | Gt => q + 1
  | Eq => if Z.even q then q else q + 1
  end.

(** [round(x)] with one argument: an int, ties to even. *)
Definition py_round (x : float) : outcome Z :=
  match Prim2SF x with
  | S754_zero _ => Ok 0
  | S754_finite s m e =>
      let v := if bool_decide (0 ≤ e) then Z.pos m * 2 ^ e
               else round_half_even (Z.pos m) (- e) in
      Ok (if s then - v else v)
  | S754_infinity _ => Raise OverflowError
  | S754_nan => Raise ValueError
  end.

(** ** field.py *)

(** The random source. *)
Record random_source : Type := mk_random_source {
  clock : nat → Z;
  np_shuffle : Z → list Z → list Z
}.

Definition fair_shuffle (rs : random_source) : Prop :=
  ∀ seed l, np_shuffle rs seed l ≡ₚ l.

(** [round(total_squares * mine_ratio)] *)
Definition num_mines_of (rows cols : nat) (mine_ratio : float) : outcome Z :=
  let total_squares := Z.of_nat rows * Z.of_nat cols in
  t ← float_of_int total_squares;
  py_round (PrimFloat.mul t mine_ratio).

(** [[1] * num_mines + [0] * (total_squares - num_mines)] *)
Definition mine_list (rows cols : nat) (num_mines : Z) : list Z :=
  let total_squares := Z.of_nat rows * Z.of_nat cols in
  replicate (Z.to_nat num_mines) 1 ++ replicate (Z.to_nat (total_squares - num_mines)) 0.

(** [initialize_mines(rows, cols, mine_ratio)], at the [tick]-th reading
    of the clock. *)
Definition initialize_mines (rs : random_source) (tick : nat)
    (rows cols : nat) (mine_ratio : float) : outcome (ndarray Z) :=
  num_mines ← num_mines_of rows cols mine_ratio;
  let mines := mine_list rows cols num_mines in
  let mines := np_shuffle rs (clock rs tick) mines in
  np_reshape mines (rows, cols).

(** [scipy.ndimage.convolve(input, weights, mode='constant', cval)] for a
    kernel with odd side lengths: the kernel is mirrored about its centre
    and positions outside the input read [cval]. *)
Definition in_bounds (sh : nat * nat) (p : coord) : Prop :=
  (0 ≤ p.1 < Z.of_nat sh.1) ∧ (0 ≤ p.2 < Z.of_nat sh.2).

#[global] Instance in_bounds_dec sh p : Decision (in_bounds sh p).
Proof. unfold in_bounds. apply _. Defined.

Definition flat_offset (sh : nat * nat) (p : coord) : nat :=
  Z.to_nat (p.1 * Z.of_nat sh.2 + p.2).

Definition padded (cval : Z) (a : ndarray Z) (p : coord) : Z :=
  if bool_decide (in_bounds (shape a) p)
  then default cval (data a !! flat_offset (shape a) p)
  else cval.

Definition np_tabulate {A : Type} (sh : nat * nat) (f : coord → A) : ndarray A :=
  mk_ndarray sh
    ((λ k : nat, f (Z.of_nat (k / sh.2), Z.of_nat (k mod sh.2))) <$> seq 0 (size_of sh)).

Definition kernel_cells (sh : nat * nat) : list coord :=
  cprod (seqZ 0 (Z.of_nat sh.1)) (seqZ 0 (Z.of_nat sh.2)).

Definition py_sum (l : list Z) : Z := foldr Z.add 0 l.

Definition ndimage_convolve (input weights : ndarray Z) (cval : Z) : ndarray Z :=
  let centre : coord := (Z.of_nat (shape weights).1 / 2, Z.of_nat (shape weights).2 / 2) in
  np_tabulate (shape input) (λ p,
    py_sum ((λ k : coord,
                 padded 0 weights k
                 * padded cval input (p.1 + centre.1 - k.1, p.2 + centre.2 - k.2))
              <$> kernel_cells (shape weights))).

(** [np.ones((3, 3), dtype=int)] *)
Definition np_ones (sh : nat * nat) : ndarray Z :=
  mk_ndarray sh (replicate (size_of sh) 1).

Definition generate_adjacency_matrix (mines : ndarray Z) : ndarray Z :=
  ndimage_convolve mines (np_ones (3%nat, 3%nat)) 0.

(** [np.clip(x, lo, hi)] on one element *)
Definition np_clip (x lo hi : Z) : Z := Z.min (Z.max x lo) hi.

(** [set(product(np.clip(np.arange(r - 1, r + 2), 0, num_rows - 1),
                 np.clip(np.arange(c - 1, c + 2), 0, num_cols - 1)))] *)
Definition adjacent_squares (num_rows num_cols : nat) (p : coord) : gset coord :=
  list_to_set
    (cprod ((λ x, np_clip x 0 (Z.of_nat num_rows - 1)) <$> seqZ (p.1 - 1) 3)
           ((λ x, np_clip x 0 (Z.of_nat num_cols - 1)) <$> seqZ (p.2 - 1) 3)).

(** [to_check.pop()]: the last element of a Python list. *)
Definition list_pop {A : Type} (l : list A) : option (A * list A) :=
  match reverse l with
  | [] => None
  | x :: r => Some (x, reverse r)
  end.

Section reveal.
(** The order in which Python enumerates a set. *)
Variable set_order : gset coord → list coord.
(** How the work list hands out its next element; [list_pop] in the
    source. *)
Variable take : list coord → option (coord * list coord).
Variables flagged adjacency_matrix revealed : ndarray Z.

(** [(coord not in already_checked) and not revealed[coord] and not flagged[coord]] *)
Definition can_add (already_checked : gset coord) (coord : coord) : outcome bool :=
  if bool_decide (coord ∈ already_checked) then Ok false
  else
    r ← np_get revealed coord;
    if truthy r then Ok false
    else f ← np_get flagged coord; Ok (negb (truthy f)).

(** The [while len(to_check) > 0] loop. *)
Fixpoint reveal_loop (fuel : nat) (to_check : list coord)
    (already_checked : gset coord) (update_matrix : ndarray Z)
  : outcome (ndarray Z) :=
  match take to_check with
  | None => Ok update_matrix
  | Some (curr, to_check) =>
      match fuel with
      | O => Timeout
      | S fuel =>
          let already_checked := {[curr]} ∪ already_checked in
          let indexer :=
            set_order (adjacent_squares (shape flagged).1 (shape flagged).2 curr) in
          adjacent_flagged ← omapM (np_get flagged) indexer;
          a ← np_get adjacency_matrix curr;
          to_check ←
            (if bool_decide (a ≤ py_sum adjacent_flagged)
             then new ← ofilterM (can_add already_checked) indexer; Ok (to_check ++ new)
             else Ok to_check);
          update_matrix ← np_set update_matrix curr 1;
          reveal_loop fuel to_check already_checked update_matrix
      end
  end.

Definition reveal_square (fuel : nat) (row_idx col_idx : Z) (auto_reveal : bool)
  : outcome (ndarray Z) :=
  let to_check := [(row_idx, col_idx)] in
  let already_checked : gset coord := ∅ in
  let update_matrix := np_zeros (shape flagged) in
  update_matrix ← np_set update_matrix (row_idx, col_idx) 1;
  (* [not auto_reveal and adjacency_matrix[row_idx, col_idx] != 0]: the
     adjacency grid is read only when [auto_reveal] is off *)
  single ← (if negb auto_reveal
            then a ← np_get adjacency_matrix (row_idx, col_idx); Ok (truthy a)
            else Ok false);
  if single : bool then Ok update_matrix
  else reveal_loop fuel to_check already_checked update_matrix.
End reveal.

(** *** update_revelation_matrix *)

(** [product(range(r - 1, r + 2), range(c - 1, c + 2))] *)
Definition block (p : coord) : list coord :=
  cprod (seqZ (p.1 - 1) 3) (seqZ (p.2 - 1) 3).

Section update_revelation.
Variables mines flagged adjacency_matrix revealed : ndarray Z.

(** The [while len(to_test) > 0] loop.  [checked] holds Python values of
    two kinds: [set((row_idx, col_idx))] starts it with the two integers
    (on the left of the sum), the loop adds coordinate pairs (on the
    right); [coord not in checked] asks for a pair. *)
Fixpoint update_loop (fuel : nat) (to_test : list coord)
    (checked : gset (Z + coord)) (update_matrix : ndarray Z) : outcome (ndarray Z) :=
  match list_pop to_test with
  | None => Ok update_matrix
  | Some (item, to_test) =>
      match fuel with
      | O => Timeout
      | S fuel =>
          let rows := Z.of_nat (shape adjacency_matrix).1 in
          let cols := Z.of_nat (shape adjacency_matrix).2 in
          let checked' := {[inr item]} ∪ checked in
          if bool_decide ((item.1 < 0 ∨ rows ≤ item.1) ∨ (item.2 < 0 ∨ cols ≤ item.2))
          then update_loop fuel to_test checked' update_matrix
          else
            r ← np_get revealed item;
            if truthy r then update_loop fuel to_test checked' update_matrix
            else
              a ← np_get adjacency_matrix item;
              '(to_test, update_matrix) ←
                (if bool_decide (a = 0) then
                   update_matrix ← np_set update_matrix item 1;
                   Ok (to_test ++ filter (λ coord, inr coord ∉ checked) (block item),
                       update_matrix)
                 else
                   m ← np_get mines item;
                   keep ← (if truthy m then Ok true
                           else f ← np_get flagged item; Ok (truthy f));
                   if keep : bool then Ok (to_test, update_matrix)
                   else
                     update_matrix ← np_set update_matrix item 1;
                     Ok (to_test, update_matrix));
              update_loop fuel to_test checked' update_matrix
      end
  end.

Definition update_revelation_matrix (fuel : nat) (row_idx col_idx : Z)
  : outcome (ndarray Z) :=
  let to_test := block (row_idx, col_idx) in
  let checked : gset (Z + coord) := {[inl row_idx; inl col_idx]} in
  let update_matrix := np_zeros (shape revealed) in
  update_loop fuel to_test checked update_matrix.
End update_revelation.

(** *** class Field *)

Record Field : Type := mk_Field {
  rows : nat;
  cols : nat;
  mine_ratio : float;
  _revealed : ndarray Z;
  _mines : option (ndarray Z);
  _adjacency_matrix : option (ndarray Z);
  _flagged : ndarray Z
}.

Definition set_revealed (f : Field) (v : ndarray Z) : Field :=
  mk_Field (rows f) (cols f) (mine_ratio f) v (_mines f) (_adjacency_matrix f) (_flagged f).
Definition set_mines (f : Field) (v : option (ndarray Z)) : Field :=
  mk_Field (rows f) (cols f) (mine_ratio f) (_revealed f) v (_adjacency_matrix f) (_flagged f).
Definition set_adjacency_matrix (f : Field) (v : option (ndarray Z)) : Field :=
  mk_Field (rows f) (cols f) (mine_ratio f) (_revealed f) (_mines f) v (_flagged f).
Definition set_flagged (f : Field) (v : ndarray Z) : Field :=
  mk_Field (rows f) (cols f) (mine_ratio f) (_revealed f) (_mines f) (_adjacency_matrix f) v.

(** [Field.__init__]; [np.zeros] refuses a negative dimension. *)
Definition Field_init (num_rows num_cols : Z) (mine_ratio : float) : outcome Field :=
  if bool_decide (0 ≤ num_rows ∧ 0 ≤ num_cols) then
    let sh := (Z.to_nat num_rows, Z.to_nat num_cols) in
    Ok (mk_Field (Z.to_nat num_rows) (Z.to_nat num_cols) mine_ratio
          (np_zeros sh) None None (np_zeros sh))
  else Raise ValueError.

(** The names the class binds with [@property]; none has a setter. *)
Definition Field_properties : list string :=
  ["initialized"; "revealed"; "mines"; "adjacency_matrix"; "flagged"]%string.

(** [obj.name = v] for an array [v]: a property without a setter refuses
    the assignment; otherwise the instance attribute is bound (a name the
    model does not track leaves the tracked state as it is). *)
Definition Field_setattr (f : Field) (name : string) (v : ndarray Z) : outcome Field :=
  if bool_decide (name ∈ Field_properties) then Raise AttributeError
  else if bool_decide (name = "_revealed"%string) then Ok (set_revealed f v)
  else if bool_decide (name = "_mines"%string) then Ok (set_mines f (Some v))
  else if bool_decide (name = "_adjacency_matrix"%string) then Ok (set_adjacency_matrix f (Some v))
  else if bool_decide (name = "_flagged"%string) then Ok (set_flagged f v)
  else Ok f.

Definition from_mine_matrix (mines : ndarray Z) : outcome Field :=
  let '(rows, cols) := shape mines in
  total ← float_of_int (np_sum mines);
  squares ← float_of_int (Z.of_nat rows * Z.of_nat cols);
  let mine_ratio := PrimFloat.div total squares in
  to_return ← Field_init (Z.of_nat rows) (Z.of_nat cols) mine_ratio;
  to_return ← Field_setattr to_return "_mines" mines;
  to_return ← Field_setattr to_return "adjacency_matrix" (generate_adjacency_matrix mines);
  Ok to_return.

Definition initialized (f : Field) : bool :=
  bool_decide (_adjacency_matrix f ≠ None) && bool_decide (_mines f ≠ None).

(** The [while self._mines[row_idx, col_idx]] loop of [_initialize];
    [tick] counts the clock readings made so far. *)
Fixpoint _initialize_loop (fuel : nat) (rs : random_source) (tick : nat)
    (f : Field) (p : coord) (mines : ndarray Z) : outcome (ndarray Z) :=
  m ← np_get mines p;
  if truthy m then
    match fuel with
    | O => Timeout
    | S fuel =>
        mines ← initialize_mines rs tick (rows f) (cols f) (mine_ratio f);
        _initialize_loop fuel rs (S tick) f p mines
    end
  else Ok mines.

Definition _initialize (fuel : nat) (rs : random_source) (f : Field)
    (row_idx col_idx : Z) : outcome Field :=
  mines ← initialize_mines rs 0 (rows f) (cols f) (mine_ratio f);
  mines ← _initialize_loop fuel rs 1 f (row_idx, col_idx) mines;
  Ok (set_adjacency_matrix (set_mines f (Some mines))
        (Some (generate_adjacency_matrix mines))).

Section engine.
Variable set_order : gset coord → list coord.

Definition pick_square (fuel : nat) (rs : random_source) (f : Field)
    (row_idx col_idx : Z) (auto_reveal : bool) : outcome (bool * Field) :=
  f ← (if initialized f then Ok f else _initialize fuel rs f row_idx col_idx);
  match _adjacency_matrix f, _mines f with
  | Some adjacency_matrix, Some mines =>
      revelation_update ←
        reveal_square set_order list_pop (_flagged f) adjacency_matrix (_revealed f)
          fuel row_idx col_idx auto_reveal;
      revealed ← np_zip Z.lor (_revealed f) revelation_update;
      let f := set_revealed f revealed in
      hit ← np_zip Z.mul mines (_revealed f);
      Ok (negb (np_any hit), f)
  | _, _ => Raise TypeError
  end.

End engine.

Definition toggle_flag_square (f : Field) (row_idx col_idx : Z) : outcome Field :=
  r ← np_get (_revealed f) (row_idx, col_idx);
  if negb (truthy r) then
    v ← np_get (_flagged f) (row_idx, col_idx);
    flagged ← np_set (_flagged f) (row_idx, col_idx) ((v + 1) `mod` 2);
    Ok (set_flagged f flagged)
  else Ok f.

(** ** Python lists and strings *)

(** A Python [str] is the list of its code points; a literal of the
    source is written as a string here and read by [py_lit]. *)
Definition py_lit (s : string) : list N :=
  Ascii.N_of_ascii <$> String.list_ascii_of_string s.

(** [l[i]] on a list or a string: a negative index counts from the end,
    anything outside [-len, len) is an [IndexError]. *)
Definition py_getitem {A : Type} (l : list A) (i : Z) : outcome A :=
  match np_index (length l) i with
  | Some k => match l !! k with Some v => Ok v | None => Raise IndexError end
  | None => Raise IndexError
  end.

(** [l[i] = v] *)
Definition py_setitem {A : Type} (l : list A) (i : Z) (v : A) : outcome (list A) :=
  match np_index (length l) i with
  | Some k => Ok (<[k:=v]> l)
  | None => Raise IndexError
  end.

(** Where the bound [i] of a slice falls in a sequence of length [len]:
    a negative bound counts from the end, and both ends are clamped. *)
Definition py_slice_bound (len : nat) (i : Z) : nat :=
  if bool_decide (0 ≤ i) then Nat.min (Z.to_nat i) len
  else Z.to_nat (Z.of_nat len + i).

(** [l[:i]] and [l[i:]] *)
Definition py_slice_to {A : Type} (l : list A) (i : Z) : list A :=
  take (py_slice_bound (length l) i) l.
Definition py_slice_from {A : Type} (l : list A) (i : Z) : list A :=
  drop (py_slice_bound (length l) i) l.

(** [sep.join(parts)] *)
Definition py_join (sep : list N) (parts : list (list N)) : list N :=
  match parts with
  | [] => []
  | x :: parts => x ++ concat ((λ y, sep ++ y) <$> parts)
  end.

(** The rows of a two-dimensional array, as iterating over it yields
    them. *)
Definition np_rows {A : Type} (a : ndarray A) : list (list A) :=
  (λ i, take (shape a).2 (drop (i * (shape a).2) (data a))) <$> seq 0 (shape a).1.

(** ** application.py *)

Inductive GameStatus : Set := Playing | Lost | Won.

#[global] Instance GameStatus_eq_dec : EqDecision GameStatus.
Proof. solve_decision. Defined.

Section rendering.
(** The constants of the [icons] module. *)
Variables FLAG UNKNOWN MINE BLANK : list N.

(** The body of the inner loop of [render_field]: the icon of one cell.
    [field.mines] and [field.adjacency_matrix] are [None] before the
    first pick, and indexing [None] is a [TypeError]; [pretty] writes an
    integer in decimal, as [str] does. *)
Definition render_square (field : Field) (p : coord) : outcome (list N) :=
  r ← np_get (_revealed field) p;
  if negb (truthy r) then
    fl ← np_get (_flagged field) p;
    Ok (if truthy fl then FLAG else UNKNOWN)
  else
    m ← match _mines field with
        | Some mines => np_get mines p
        | None => Raise TypeError
        end;
    if truthy m then Ok MINE
    else
      a ← match _adjacency_matrix field with
          | Some adjacency_matrix => np_get adjacency_matrix p
          | None => Raise TypeError
          end;
      if bool_decide (a = 0) then Ok BLANK
      else
        a ← match _adjacency_matrix field with
            | Some adjacency_matrix => np_get adjacency_matrix p
            | None => Raise TypeError
            end;
        Ok (py_lit (pretty a)).

Definition render_field (field : Field) : outcome (list (list (list N))) :=
  omapM (λ row_idx,
           omapM (λ col_idx, render_square field (row_idx, col_idx))
             (seqZ 0 (Z.of_nat (cols field))))
    (seqZ 0 (Z.of_nat (rows field))).

(** [_generate_instruction_header]: the first lines of the screen.  A
    line is a list of fragments of text, each with its style. *)
Definition _generate_instruction_header (auto_reveal_enabled : bool)
  : list (list (string * list N)) :=
  [ [("", py_lit "Instructions")];
    [("", py_lit "------------")];
    [("", py_lit "f: set/unset flag")];
    [("", if negb auto_reveal_enabled
          then py_lit "x: expose single square"
          else py_lit "x: auto-reveal squares (like middle-clicking)")];
    [("", py_lit "q: toggle auto-reveal")];
    [("", py_lit "<arrow keys> or <h,j,k,l>: move the cursor around")];
    [("", py_lit "Ctrl-C: quit game")];
    [("", py_lit "")] ]%string.

(** [_highlight_cursor_location] replaces the line of the cursor in
    [rendered]; the list it updates in place is returned. *)
Definition _highlight_cursor_location (cursor_row cursor_col : Z) (cursor_style : string)
    (prerendered : list (list N)) (rendered : list (list (string * list N)))
  : outcome (list (list (string * list N))) :=
  cursor_line ← py_getitem prerendered cursor_row;
  let line_idx := cursor_col * 2 in
  let head := py_slice_to cursor_line line_idx in
  cursor_char ← py_getitem cursor_line line_idx;
  let tail := py_slice_from cursor_line (line_idx + 1) in
  let new_line := [(""%string, head); (cursor_style, [cursor_char]); (""%string, tail)] in
  py_setitem rendered cursor_row new_line.

Definition _convert_to_ptkit_representation (raw_representation : list (list (list N)))
    (cursor_row cursor_col : Z) (auto_reveal_enabled : bool)
  : outcome (list (list (string * list N))) :=
  let as_lines := py_join (py_lit " ") <$> raw_representation in
  let ptkit_lines := (λ line, [(""%string, line)]) <$> as_lines in
  ptkit_lines ← _highlight_cursor_location cursor_row cursor_col
                  "fg:ansiblack bg:ansigreen" as_lines ptkit_lines;
  Ok (_generate_instruction_header auto_reveal_enabled ++ ptkit_lines).

(** [render_death_screen]; iterating over [None] is a [TypeError]. *)
Definition render_death_screen (minefield : option (ndarray Z))
    (cursor_row cursor_col : Z) (auto_reveal_enabled : bool)
  : outcome (list (list (string * list N))) :=
  let header := _generate_instruction_header auto_reveal_enabled in
  match minefield with
  | None => Raise TypeError
  | Some minefield =>
      prerendered ←
        omapM (λ row,
                 chars ← omapM (λ flag, ch ← py_getitem (py_lit " " ++ MINE) flag; Ok [ch])
                           row;
                 Ok (py_join (py_lit " ") chars))
          (np_rows minefield);
      let rendered := (λ line, [(""%string, line)]) <$> prerendered in
      rendered ← _highlight_cursor_location cursor_row cursor_col
                   "fg:ansiwhite bg:ansired" prerendered rendered;
      let rendered :=
        rendered ++ [ [(""%string, py_lit "")];
                      [(""%string, py_lit "Owie-wowie, you died :(")] ] in
      Ok (header ++ rendered)
  end.
End rendering.

Record FieldController : Type := mk_FieldController {
  _status : GameStatus;
  _field : Field;
  _cursor_row : Z;
  _cursor_col : Z;
  _auto_reveal : bool
}.

Definition FieldController_init (field : Field) : FieldController :=
  mk_FieldController Playing field 0 0 false.

Definition set_status (c : FieldController) (s : GameStatus) : FieldController :=
  mk_FieldController s (_field c) (_cursor_row c) (_cursor_col c) (_auto_reveal c).
Definition set_field (c : FieldController) (f : Field) : FieldController :=
  mk_FieldController (_status c) f (_cursor_row c) (_cursor_col c) (_auto_reveal c).
Definition set_cursor_row (c : FieldController) (r : Z) : FieldController :=
  mk_FieldController (_status c) (_field c) r (_cursor_col c) (_auto_reveal c).
Definition set_cursor_col (c : FieldController) (k : Z) : FieldController :=
  mk_FieldController (_status c) (_field c) (_cursor_row c) k (_auto_reveal c).
Definition set_auto_reveal (c : FieldController) (b : bool) : FieldController :=
  mk_FieldController (_status c) (_field c) (_cursor_row c) (_cursor_col c) b.

Definition _move_cursor_up (c : FieldController) : FieldController :=
  set_cursor_row c (Z.max 0 (_cursor_row c - 1)).
Definition _move_cursor_down (c : FieldController) : FieldController :=
  set_cursor_row c (Z.min (_cursor_row c + 1) (Z.of_nat (rows (_field c)) - 1)).
Definition _move_cursor_left (c : FieldController) : FieldController :=
  set_cursor_col c (Z.max 0 (_cursor_col c - 1)).
Definition _move_cursor_right (c : FieldController) : FieldController :=
  set_cursor_col c (Z.min (_cursor_col c + 1) (Z.of_nat (cols (_field c)) - 1)).

(** What the running application does to the controller: the bound keys
    and the redraw, which re-evaluates the win condition. *)
Inductive event : Type :=
| KeyUp | KeyDown | KeyRight | KeyLeft
| KeyAny (fuel : nat) (rs : random_source) (key : string)
| Redraw.

Section controller.
Variable set_order : gset coord → list coord.

Definition handle_action (fuel : nat) (rs : random_source) (key : string)
    (c : FieldController) : outcome FieldController :=
  if bool_decide (key = "f"%string) then
    f ← toggle_flag_square (_field c) (_cursor_row c) (_cursor_col c);
    Ok (set_field c f)
  else if bool_decide (key = "x"%string) then
    '(alive, f) ← pick_square set_order fuel rs (_field c) (_cursor_row c) (_cursor_col c)
                    (_auto_reveal c);
    let c := set_field c f in
    Ok (if alive : bool then c else set_status c Lost)
  else if bool_decide (key = "h"%string) then Ok (_move_cursor_left c)
  else if bool_decide (key = "j"%string) then Ok (_move_cursor_down c)
  else if bool_decide (key = "k"%string) then Ok (_move_cursor_up c)
  else if bool_decide (key = "l"%string) then Ok (_move_cursor_right c)
  else if bool_decide (key = "q"%string) then Ok (set_auto_reveal c (negb (_auto_reveal c)))
  else Ok c.

Definition evaluate_win_condition (c : FieldController) : outcome FieldController :=
  if bool_decide (_status c = Lost) then Ok c
  else if negb (initialized (_field c)) then Ok c
  else
    match _mines (_field c) with
    | Some mines =>
        let revealed := np_invert (astype_bool (_revealed (_field c))) in
        let mined := astype_bool mines in
        same ← np_zip eqb mined revealed;
        Ok (if np_all same then set_status c Won else c)
    | None => Raise TypeError
    end.

(** [create_app]: the controller the application starts with. *)
Definition create_app (rows cols : Z) (mine_ratio : float) : outcome FieldController :=
  field ← Field_init rows cols mine_ratio;
  Ok (FieldController_init field).

Definition dispatch (e : event) (c : FieldController) : outcome FieldController :=
  match e with
  | KeyUp => Ok (_move_cursor_up c)
  | KeyDown => Ok (_move_cursor_down c)
  | KeyRight => Ok (_move_cursor_right c)
  | KeyLeft => Ok (_move_cursor_left c)
  | KeyAny fuel rs key => handle_action fuel rs key c
  | Redraw => evaluate_win_condition c
  end.

Fixpoint run_events (es : list event) (c : FieldController) : outcome FieldController :=
  match es with
  | [] => Ok c
  | e :: es => c ← dispatch e c; run_events es c
  end.
End controller.

(** [FieldController.create_content]: the win condition is re-evaluated,
    then the screen for the status is drawn; the [UIContent] it returns is
    the list of its lines. *)
Definition create_content (FLAG UNKNOWN MINE BLANK : list N) (c : FieldController)
  : outcome (FieldController * list (list (string * list N))) :=
  c ← evaluate_win_condition c;
  match _status c with
  | Lost =>
      death ← render_death_screen MINE (_mines (_field c)) (_cursor_row c) (_cursor_col c)
                (_auto_reveal c);
      Ok (c, death)
  | Won => Ok (c, [[(""%string, py_lit "u r winner!")]])
  | Playing =>
      field_repr ← render_field FLAG UNKNOWN MINE BLANK (_field c);
      full_content ← _convert_to_ptkit_representation field_repr (_cursor_row c)
                       (_cursor_col c) (_auto_reveal c);
      Ok (c, full_content)
  end.

(** * Specification vocabulary *)

(** An array whose buffer has the length its shape announces. *)
Definition well_formed {A : Type} (a : ndarray A) : Prop :=
  length (data a) = size_of (shape a).

(** An integer array holding only 0 and 1 (a boolean grid). *)
Definition binary (a : ndarray Z) : Prop :=
  Forall (λ v, v = 0 ∨ v = 1) (data a).

(** The value at an in-bounds cell (0 elsewhere). *)
Definition cell (a : ndarray Z) (p : coord) : Z :=
  default 0 (data a !! flat_offset (shape a) p).

(** The 3x3 block around [p], cut off at the edges of the grid. *)
Definition neighbourhood (sh : nat * nat) (p : coord) : list coord :=
  filter (in_bounds sh) (cprod (seqZ (p.1 - 1) 3) (seqZ (p.2 - 1) 3)).

(** How many cells of the neighbourhood of [p] hold a nonzero value. *)
Definition count_around (a : ndarray Z) (p : coord) : nat :=
  length (filter (λ q, cell a q ≠ 0) (neighbourhood (shape a) p)).

(** The number of mined cells of a grid. *)
Definition mine_count (mines : ndarray Z) : nat :=
  length (filter (λ v, v ≠ 0) (data mines)).

(** What every layout drawn for a field looks like: a boolean grid of the
    field's shape holding exactly [round(rows * cols * mine_ratio)]
    mines. *)
Definition layout_of (f : Field) (mines : ndarray Z) : Prop :=
  shape mines = (rows f, cols f) ∧ well_formed mines ∧ binary mines ∧
  ∃ n, num_mines_of (rows f) (cols f) (mine_ratio f) = Ok n ∧
       0 ≤ n ≤ Z.of_nat (rows f) * Z.of_nat (cols f) ∧
       Z.of_nat (mine_count mines) = n.

(** The [k]-th layout the random source hands to a first pick at [p] is
    the first one without a mine at [p]. *)
Definition first_free_draw (rs : random_source) (f : Field) (p : coord) (k : nat) : Prop :=
  (∀ j, (j < k)%nat →
     ∃ m v, initialize_mines rs j (rows f) (cols f) (mine_ratio f) = Ok m ∧
            np_get m p = Ok v ∧ v ≠ 0) ∧
  (∃ m, initialize_mines rs k (rows f) (cols f) (mine_ratio f) = Ok m ∧
        np_get m p = Ok 0).

(** What the first pick at [p] on the uninitialized field [f] promises
    about the field [f'] it leaves: a layout with no mine at [p] and with
    [round(rows * cols * mine_ratio)] mines in all. *)
Definition initialized_safely (f : Field) (p : coord) (f' : Field) : Prop :=
  ∃ mines n, _mines f' = Some mines ∧ np_get mines p = Ok 0 ∧
             num_mines_of (rows f) (cols f) (mine_ratio f) = Ok n ∧
             Z.of_nat (mine_count mines) = n.

(** A grid of the field's shape. *)
Definition grid_of (sh : nat * nat) (a : ndarray Z) : Prop :=
  shape a = sh ∧ well_formed a.

(** The states a [Field] object goes through: [revealed] and [flagged]
    are boolean grids of the field's shape; [mines] and the adjacency
    grid are absent together or present together, [mines] boolean. *)
Definition wf_field (f : Field) : Prop :=
  grid_of (rows f, cols f) (_revealed f) ∧ binary (_revealed f) ∧
  grid_of (rows f, cols f) (_flagged f) ∧ binary (_flagged f) ∧
  match _mines f, _adjacency_matrix f with
  | Some mines, Some adjacency_matrix =>
      grid_of (rows f, cols f) mines ∧ binary mines ∧
      grid_of (rows f, cols f) adjacency_matrix
  | None, None => True
  | _, _ => False
  end.

(** [to_check.pop(0)]: the work list handled as a queue. *)
Definition queue_pop {A : Type} (l : list A) : option (A * list A) :=
  match l with
  | [] => None
  | x :: r => Some (x, r)
  end.

(** All cells of a grid. *)
Definition cells (sh : nat * nat) : gset coord :=
  list_to_set (cprod (seqZ 0 (Z.of_nat sh.1)) (seqZ 0 (Z.of_nat sh.2))).

(** How many elements at the head of [l] are already checked. *)
Fixpoint leading (checked : gset coord) (l : list coord) : nat :=
  match l with
  | [] => 0
  | x :: l => if decide (x ∈ checked) then S (leading checked l) else 0
  end.

Section flood.
Variables flagged adjacency_matrix revealed : ndarray Z.

(** The gating rule: at least as many flagged cells around [p] as the
    adjacency value of [p]. *)
Definition gate_open (p : coord) : Prop :=
  cell adjacency_matrix p ≤ Z.of_nat (count_around flagged p).

(** A cell the flood fill may step on: neither revealed nor flagged. *)
Definition coverable (q : coord) : Prop :=
  cell revealed q = 0 ∧ cell flagged q = 0.

(** The cells reachable from the seed: from a reached cell whose gate is
    open, every coverable cell of its neighbourhood is reached. *)
Inductive reach (seed : coord) : coord → Prop :=
| reach_seed : reach seed seed
| reach_step (p q : coord) :
    reach seed p → gate_open p → q ∈ neighbourhood (shape flagged) p → coverable q →
    reach seed q.

(** The set a pick at [seed] is to reveal: the seed alone when the pick
    is not a chord and the seed has a nonzero adjacency value, the cells
    reachable from the seed otherwise. *)
Definition flood (seed : coord) (auto_reveal : bool) (q : coord) : Prop :=
  if negb auto_reveal && truthy (cell adjacency_matrix seed)
  then q = seed
  else reach seed q.
End flood.

#[global] Instance gate_open_dec flagged adjacency_matrix p :
  Decision (gate_open flagged adjacency_matrix p).
Proof. unfold gate_open. apply _. Defined.

#[global] Instance coverable_dec flagged revealed q : Decision (coverable flagged revealed q).
Proof. unfold coverable. apply _. Defined.

(** One iteration of the flood fill, spelled on the specification side:
    the cells the iteration at [x] appends to the work list, and the
    update grid with [x] marked. *)
Definition next_work (set_order : gset coord → list coord)
    (flagged adjacency_matrix revealed : ndarray Z)
    (already_checked : gset coord) (x : coord) : list coord :=
  if decide (gate_open flagged adjacency_matrix x)
  then filter (λ q, (q ∉ already_checked) ∧ coverable flagged revealed q)
         (set_order (adjacent_squares (shape flagged).1 (shape flagged).2 x))
  else [].

Definition mark (update_matrix : ndarray Z) (x : coord) : ndarray Z :=
  mk_ndarray (shape update_matrix)
    (<[flat_offset (shape update_matrix) x := 1]> (data update_matrix)).

(** The update grid [r] marks exactly the cells of [S]. *)
Definition marks (sh : nat * nat) (r : ndarray Z) (S : coord → Prop) : Prop :=
  grid_of sh r ∧ binary r ∧ ∀ q, in_bounds sh q → (cell r q = 1 ↔ S q).

(** The invariant of the flood-fill loop: every cell in the work list or
    already checked is reachable; the update grid marks the seed and the
    checked cells; what a checked cell with an open gate leads to has
    been checked or is waiting in the work list. *)
Record flood_inv (sh : nat * nat) (flagged adjacency_matrix revealed : ndarray Z)
    (seed : coord) (to_check : list coord) (already_checked : gset coord)
    (update_matrix : ndarray Z) : Prop := mk_flood_inv {
  inv_grid : grid_of sh update_matrix;
  inv_binary : binary update_matrix;
  inv_work : ∀ q, q ∈ to_check → reach flagged adjacency_matrix revealed seed q;
  inv_checked : ∀ q, q ∈ already_checked → reach flagged adjacency_matrix revealed seed q;
  inv_marked : ∀ q, in_bounds sh q →
                    (cell update_matrix q = 1 ↔ q = seed ∨ q ∈ already_checked);
  inv_closed : ∀ p q, p ∈ already_checked → gate_open flagged adjacency_matrix p →
                      q ∈ neighbourhood sh p → coverable flagged revealed q →
                      q ∈ already_checked ∨ q ∈ to_check;
  inv_seed : seed ∈ already_checked ∨ seed ∈ to_check
}.

(** The two mutating operations of the engine, as a caller issues them. *)
Inductive op : Type :=
| PickSquare (fuel : nat) (rs : random_source) (row_idx col_idx : Z) (auto_reveal : bool)
| ToggleFlag (row_idx col_idx : Z).

Definition fair_op (o : op) : Prop :=
  match o with
  | PickSquare _ rs _ _ _ => fair_shuffle rs
  | ToggleFlag _ _ => True
  end.

Definition run_op (set_order : gset coord → list coord) (o : op) (f : Field)
  : outcome Field :=
  match o with
  | PickSquare fuel rs row_idx col_idx auto_reveal =>
      '(_, f) ← pick_square set_order fuel rs f row_idx col_idx auto_reveal; Ok f
  | ToggleFlag row_idx col_idx => toggle_flag_square f row_idx col_idx
  end.

Fixpoint run_ops (set_order : gset coord → list coord) (os : list op) (f : Field)
  : outcome Field :=
  match os with
  | [] => Ok f
  | o :: os => f ← run_op set_order o f; run_ops set_order os f
  end.

(** The grids of a won game: the pointwise negation of [revealed] is the
    mine grid. *)
Definition win_grids (f : Field) : Prop :=
  ∃ mines, _mines f = Some mines ∧
           np_invert (astype_bool (_revealed f)) = astype_bool mines.

Definition fair_event (e : event) : Prop :=
  match e with
  | KeyAny _ rs _ => fair_shuffle rs
  | _ => True
  end.

(** The controller states the running application can be in. *)
Definition reachable (set_order : gset coord → list coord) (c : FieldController) : Prop :=
  ∃ rows cols mine_ratio c0 es,
    create_app rows cols mine_ratio = Ok c0 ∧ Forall fair_event es ∧
    run_events set_order es c0 = Ok c.

(** What holds of every reachable controller state. *)
Definition controller_inv (c : FieldController) : Prop :=
  wf_field (_field c) ∧
  (_status c = Won → initialized (_field c) = true ∧ win_grids (_field c)).

(** The states a field goes through once [Field(rows, cols, ratio)] has
    built it as [f0]: before the first pick nothing is revealed; after it
    the mines are a layout of the field as built and the adjacency grid
    is the one generated from them. *)
Definition consistent (f0 f : Field) : Prop :=
  rows f = rows f0 ∧ cols f = cols f0 ∧ mine_ratio f = mine_ratio f0 ∧
  match _mines f, _adjacency_matrix f with
  | Some mines, Some adjacency_matrix =>
      layout_of f0 mines ∧ adjacency_matrix = generate_adjacency_matrix mines
  | None, None => ∀ q, cell (_revealed f) q = 0
  | _, _ => False
  end.

(** Some mined cell of the field is revealed. *)
Definition mine_revealed (f : Field) : Prop :=
  ∃ mines q, _mines f = Some mines ∧ in_bounds (rows f, cols f) q ∧
             cell mines q ≠ 0 ∧ cell (_revealed f) q ≠ 0.

(** The cursor sits on a cell of the field. *)
Definition cursor_in_bounds (c : FieldController) : Prop :=
  in_bounds (rows (_field c), cols (_field c)) (_cursor_row c, _cursor_col c).

(** What [update_revelation_matrix] may mark: a cell that is not revealed
    and either has no mine around it or is neither mined nor flagged. *)
Definition markable (mines flagged adjacency_matrix revealed : ndarray Z) (q : coord)
  : Prop :=
  cell revealed q = 0 ∧
  (cell adjacency_matrix q = 0 ∨ (cell mines q = 0 ∧ cell flagged q = 0)).

#[global] Instance markable_dec mines flagged adjacency_matrix revealed q :
  Decision (markable mines flagged adjacency_matrix revealed q).
Proof. unfold markable. apply _. Defined.

Section sweep.
Variables mines flagged adjacency_matrix revealed : ndarray Z.
Variable sh : nat * nat.

(** A cell from which [update_revelation_matrix] goes on to the block
    around it: inside the grid, not revealed, no mine around it. *)
Definition spreads (p : coord) : Prop :=
  in_bounds sh p ∧ cell revealed p = 0 ∧ cell adjacency_matrix p = 0.

(** The positions [update_revelation_matrix] looks at: the block around
    the picked position and the block around every cell it spreads from. *)
Inductive visited (seed : coord) : coord → Prop :=
| visited_block (q : coord) : q ∈ block seed → visited seed q
| visited_step (p q : coord) : visited seed p → spreads p → q ∈ block p → visited seed q.

(** The set [update_revelation_matrix] is to mark. *)
Definition sweep (seed : coord) (q : coord) : Prop :=
  visited seed q ∧ markable mines flagged adjacency_matrix revealed q.

(** One iteration of the loop at [item], spelled on the specification
    side: whether the cell gets marked, and what is appended to the work
    list. *)
Definition sweep_marks (item : coord) : Prop :=
  in_bounds sh item ∧ markable mines flagged adjacency_matrix revealed item.

Definition sweep_work (checked : gset (Z + coord)) (item : coord) : list coord :=
  if decide (spreads item)
  then filter (λ coord, inr coord ∉ checked) (block item)
  else [].
End sweep.

#[global] Instance spreads_dec adjacency_matrix revealed sh p :
  Decision (spreads adjacency_matrix revealed sh p).
Proof. unfold spreads. apply _. Defined.

#[global] Instance sweep_marks_dec mines flagged adjacency_matrix revealed sh q :
  Decision (sweep_marks mines flagged adjacency_matrix revealed sh q).
Proof. unfold sweep_marks. apply _. Defined.

(** The invariant of the loop of [update_revelation_matrix]: what waits
    in the work list or was checked is visited; the update grid marks
    the checked cells that are markable; the block around the picked
    position and around every checked cell the loop spreads from has
    been checked or is waiting. *)
Record sweep_inv (sh : nat * nat) (mines flagged adjacency_matrix revealed : ndarray Z)
    (seed : coord) (to_test : list coord) (checked : gset (Z + coord))
    (update_matrix : ndarray Z) : Prop := mk_sweep_inv {
  sweep_grid : grid_of sh update_matrix;
  sweep_binary : binary update_matrix;
  sweep_work_visited : ∀ q, q ∈ to_test → visited adjacency_matrix revealed sh seed q;
  sweep_checked_visited :
    ∀ q, inr q ∈ checked → visited adjacency_matrix revealed sh seed q;
  sweep_marked :
    ∀ q, in_bounds sh q →
         (cell update_matrix q = 1 ↔
          inr q ∈ checked ∧ markable mines flagged adjacency_matrix revealed q);
  sweep_closed :
    ∀ p q, inr p ∈ checked → spreads adjacency_matrix revealed sh p → q ∈ block p →
           inr q ∈ checked ∨ q ∈ to_test;
  sweep_start : ∀ q, q ∈ block seed → inr q ∈ checked ∨ q ∈ to_test
}.

(** The positions the work list of [update_revelation_matrix] can hold:
    the block around the picked position and the grid with a ring around
    it. *)
Definition universe (sh : nat * nat) (seed : coord) : gset coord :=
  list_to_set (block seed) ∪
  list_to_set (cprod (seqZ (-1) (Z.of_nat sh.1 + 2)) (seqZ (-1) (Z.of_nat sh.2 + 2))).

(** The positions of [U] not yet checked, and the measure that shrinks
    with every iteration of the loop. *)
Definition unchecked (U : gset coord) (checked : gset (Z + coord)) : gset coord :=
  filter (λ q, inr q ∉ checked) U.

Definition top_checked (to_test : list coord) (checked : gset (Z + coord)) : nat :=
  match list_pop to_test with
  | Some (x, _) => if decide (inr x ∈ checked) then 10 else 0
  | None => 0
  end.

Definition update_measure (U : gset coord) (to_test : list coord)
    (checked : gset (Z + coord)) : nat :=
  20 * size (unchecked U checked) + length to_test + top_checked to_test checked.

(** How many lines the screen of a controller has: the eight lines of the
    instructions and the rows of the field while the game is on, two more
    lines on the death screen, one line for a won game. *)
Definition screen_lines (c : FieldController) : nat :=
  match _status c with
  | Playing => 8 + rows (_field c)
  | Lost => 8 + rows (_field c) + 2
  | Won => 1
  end.

(** * Example boards and games *)

(** A 3x4 mine grid. *)
Definition mines_3x4 : ndarray Z := mk_ndarray (3%nat, 4%nat) [0;1;1;0; 0;0;0;0; 1;0;0;1].

(** Two random sources: the clock advances one second per reading; the
    shuffle reverses its argument, or rotates it by the seed. *)
Definition rs_reverse : random_source :=
  mk_random_source (λ k, Z.of_nat k) (λ _ l, reverse l).
Definition rs_rotate : random_source :=
  mk_random_source (λ k, Z.of_nat k) (λ seed l, rotate (Z.to_nat seed) l).

(** Fresh fields, as [Field(rows, cols, ratio)] builds them. *)
Definition field_1x1 : Field :=
  mk_Field 1 1 0.75%float (np_zeros (1%nat, 1%nat)) None None (np_zeros (1%nat, 1%nat)).
Definition field_2x2 : Field :=
  mk_Field 2 2 0.5%float (np_zeros (2%nat, 2%nat)) None None (np_zeros (2%nat, 2%nat)).

(** The mine grid of the win-detection scenario of the specification. *)
Definition mines_2x2 : ndarray Z := mk_ndarray (2%nat, 2%nat) [0; 1; 1; 0].

(** [field_2x2] after a flag was put on (0, 1). *)
Definition field_2x2_flagged : Field :=
  mk_Field 2 2 0.5%float (np_zeros (2%nat, 2%nat)) None None
    (mk_ndarray (2%nat, 2%nat) [0; 1; 0; 0]).

(** A 3x3 board with one mine in a corner: its mines, its adjacency grid,
    no flag and nothing revealed. *)
Definition mines_3x3 : ndarray Z := mk_ndarray (3%nat, 3%nat) [0; 0; 0; 0; 0; 0; 0; 0; 1].
Definition adjacency_3x3 : ndarray Z :=
  Eval vm_compute in generate_adjacency_matrix mines_3x3.
Definition blank_3x3 : ndarray Z := np_zeros (3%nat, 3%nat).

(** A 1x3 board with a mine at its left end, flagged; nothing revealed. *)
Definition adjacency_1x3 : ndarray Z := mk_ndarray (1%nat, 3%nat) [1; 1; 0].
Definition flagged_1x3 : ndarray Z := mk_ndarray (1%nat, 3%nat) [1; 0; 0].
Definition blank_1x3 : ndarray Z := np_zeros (1%nat, 3%nat).

(** The 2x2 board of the win-detection scenario, initialized, nothing
    revealed, no flag. *)
Definition field_2x2_mined : Field :=
  mk_Field 2 2 0.5%float (np_zeros (2%nat, 2%nat))
    (Some mines_2x2) (Some (mk_ndarray (2%nat, 2%nat) [2; 2; 2; 2]))
    (np_zeros (2%nat, 2%nat)).

(** [field_2x2_mined] with a flag on the mine at (0, 1). *)
Definition field_2x2_mined_flagged : Field :=
  set_flagged field_2x2_mined (mk_ndarray (2%nat, 2%nat) [0; 1; 0; 0]).

(** A 2x2 game played to the end: both free cells of the top row are
    picked, the mines of the bottom row stay covered. *)
Definition game_2x2_events : list event :=
  [KeyAny 5 rs_reverse "x"; KeyRight; KeyAny 5 rs_reverse "x"].

Definition game_2x2 : outcome FieldController :=
  c ← create_app 2 2 0.5%float; run_events elements game_2x2_events c.


(** A flag, a pick and another flag. *)
Definition ops_2x2 : list op :=
  [ToggleFlag 1 1; PickSquare 5 rs_reverse 0 0 false; ToggleFlag 0 1].

(** The 3x3 board with its mine in the corner (2, 2), initialized,
    nothing revealed; without a flag, and with the mine flagged. *)
Definition field_3x3_mined : Field :=
  mk_Field 3 3 0.125%float blank_3x3 (Some mines_3x3)
    (Some (generate_adjacency_matrix mines_3x3)) blank_3x3.
Definition field_3x3_flagged : Field :=
  set_flagged field_3x3_mined (mk_ndarray (3%nat, 3%nat) [0; 0; 0; 0; 0; 0; 0; 0; 1]).

(** [mines_3x3] with the corner away from the mine revealed. *)
Definition revealed_3x3 : ndarray Z := mk_ndarray (3%nat, 3%nat) [1; 0; 0; 0; 0; 0; 0; 0; 0].

(** The controller of a lost 2x2 game, the cursor on the mine that was
    hit; the controller of a won 2x2 game, the cursor on a mine; and some
    more key presses and redraws. *)
Definition lost_2x2 : FieldController :=
  mk_FieldController Lost
    (set_revealed field_2x2_mined (mk_ndarray (2%nat, 2%nat) [1; 0; 1; 0])) 1 0 false.
Definition won_2x2 : FieldController :=
  mk_FieldController Won
    (set_revealed field_2x2_mined (mk_ndarray (2%nat, 2%nat) [1; 0; 0; 1])) 1 0 false.
Definition more_events : list event :=
  [Redraw; KeyUp; KeyAny 5 rs_reverse "x"; KeyRight; KeyAny 5 rs_reverse "f"; KeyDown;
   KeyDown; Redraw].

(** The first pick of a game and a step to the right. *)
Definition opening_events : list event := [KeyAny 5 rs_reverse "x"; KeyRight].

(** * Outcomes: inversion and rewriting *)

Lemma bind_Ok {A B : Type} (m : outcome A) (k : A → outcome B) (b : B) :
  m ≫= k = Ok b ↔ ∃ a, m = Ok a ∧ k a = Ok b.
Proof.
  destruct m as [a|e|]; simpl; split.
  - intros H. exists a. auto.
  - intros (a' & [= <-] & H). exact H.
  - discriminate.
  - intros (? & [=] & _).
  - discriminate.
  - intros (? & [=] & _).
Qed.

Ltac inv_bind H :=
  repeat match type of H with
  | (_ ≫= _) = Ok _ =>
      let x := fresh "x" in
      let Hx := fresh "Hx" in
      apply bind_Ok in H; destruct H as (x & Hx & H)
  end.

(** * Arrays: indexing *)

Lemma np_index_in_range (n : nat) (i : Z) :
  0 ≤ i < Z.of_nat n → np_index n i = Some (Z.to_nat i).
Proof. intros H. unfold np_index. rewrite bool_decide_eq_true_2; auto. Qed.

Lemma np_offset_in_bounds (sh : nat * nat) (p : coord) :
  in_bounds sh p → np_offset sh p = Some (flat_offset sh p).
Proof.
  intros [H1 H2]. unfold np_offset, flat_offset.
  rewrite !np_index_in_range by assumption. f_equal. nia.
Qed.

Lemma flat_offset_lt (sh : nat * nat) (p : coord) :
  in_bounds sh p → (flat_offset sh p < size_of sh)%nat.
Proof. intros [H1 H2]. unfold flat_offset, size_of. nia. Qed.

Lemma flat_offset_inj (sh : nat * nat) (p q : coord) :
  in_bounds sh p → in_bounds sh q → flat_offset sh p = flat_offset sh q → p = q.
Proof.
  destruct p as [r c], q as [r' c']. unfold in_bounds, flat_offset. simpl.
  intros [H1 H2] [H3 H4] H.
  assert (r * Z.of_nat sh.2 + c = r' * Z.of_nat sh.2 + c') as E by nia.
  assert (r = r') as -> by nia.
  f_equal. lia.
Qed.

Lemma np_get_in_bounds (a : ndarray Z) (p : coord) :
  well_formed a → in_bounds (shape a) p → np_get a p = Ok (cell a p).
Proof.
  intros Hwf Hp. unfold np_get, cell. rewrite np_offset_in_bounds by assumption.
  destruct (data a !! flat_offset (shape a) p) as [v|] eqn:E; [reflexivity|].
  apply lookup_ge_None in E. pose proof (flat_offset_lt _ _ Hp). unfold well_formed in Hwf. lia.
Qed.

Lemma np_set_in_bounds {A : Type} (a : ndarray A) (p : coord) (v : A) :
  well_formed a → in_bounds (shape a) p →
  np_set a p v = Ok (mk_ndarray (shape a) (<[flat_offset (shape a) p:=v]> (data a))).
Proof.
  intros Hwf Hp. unfold np_set. rewrite np_offset_in_bounds by assumption.
  rewrite bool_decide_eq_true_2; [reflexivity|].
  pose proof (flat_offset_lt _ _ Hp). unfold well_formed in Hwf. lia.
Qed.

Lemma binary_cell (a : ndarray Z) (p : coord) : binary a → cell a p = 0 ∨ cell a p = 1.
Proof.
  intros Hb. unfold cell. destruct (data a !! flat_offset (shape a) p) as [v|] eqn:E; simpl.
  - eapply (proj1 (Forall_lookup _ _) Hb); eauto.
  - by left.
Qed.

Lemma padded_cell (a : ndarray Z) (p : coord) :
  in_bounds (shape a) p → padded 0 a p = cell a p.
Proof. intros Hp. unfold padded, cell. by rewrite bool_decide_eq_true_2. Qed.

Lemma padded_outside (a : ndarray Z) (p : coord) :
  ¬ in_bounds (shape a) p → padded 0 a p = 0.
Proof. intros Hp. unfold padded. by rewrite bool_decide_eq_false_2. Qed.

Lemma np_get_tabulate {A : Type} (sh : nat * nat) (f : coord → A) (p : coord) :
  in_bounds sh p → np_get (np_tabulate sh f) p = Ok (f p).
Proof.
  intros Hp. unfold np_get. simpl. rewrite np_offset_in_bounds by assumption.
  rewrite list_lookup_fmap, lookup_seq_lt by (by apply flat_offset_lt). simpl.
  destruct p as [r c], Hp as [H1 H2]. simpl in *. unfold flat_offset. simpl.
  assert (0 < sh.2)%nat as Hpos by lia.
  assert (Z.to_nat (r * Z.of_nat sh.2 + c) = Z.to_nat r * sh.2 + Z.to_nat c)%nat as -> by nia.
  rewrite Nat.div_add_l, Nat.div_small, Nat.add_0_r by lia.
  rewrite Nat.add_comm, Nat.Div0.mod_add, Nat.mod_small by lia.
  do 3 f_equal; lia.
Qed.

Lemma seqZ_3 (m : Z) : seqZ m 3 = [m; m + 1; m + 2].
Proof. unfold seqZ. simpl. repeat (apply (f_equal2 cons); [lia|]). reflexivity. Qed.

Lemma py_sum_perm (l k : list Z) : l ≡ₚ k → py_sum l = py_sum k.
Proof. induction 1; simpl; lia. Qed.

Lemma sum_padded_count (a : ndarray Z) (l : list coord) :
  binary a →
  py_sum (padded 0 a <$> l)
  = Z.of_nat (length (filter (λ q, cell a q ≠ 0) (filter (in_bounds (shape a)) l))).
Proof.
  intros Hb. induction l as [|q l IH]; [reflexivity|].
  rewrite fmap_cons. simpl. rewrite IH. rewrite filter_cons.
  destruct (decide (in_bounds (shape a) q)) as [Hq|Hq].
  - rewrite padded_cell by assumption. rewrite filter_cons.
    destruct (binary_cell a q Hb) as [E|E]; rewrite E.
    + rewrite decide_False by auto. lia.
    + rewrite decide_True by lia. simpl. lia.
  - rewrite padded_outside by assumption. lia.
Qed.

Lemma kernel_cells_3x3 :
  kernel_cells (3%nat, 3%nat)
  = [(0, 0); (0, 1); (0, 2); (1, 0); (1, 1); (1, 2); (2, 0); (2, 1); (2, 2)].
Proof. reflexivity. Qed.

Lemma convolve_ones_block (a : ndarray Z) (p : coord) :
  (λ k : coord, padded 0 (np_ones (3%nat, 3%nat)) k * padded 0 a (p.1 + 1 - k.1, p.2 + 1 - k.2))
    <$> kernel_cells (3%nat, 3%nat)
  = padded 0 a <$> reverse (cprod (seqZ (p.1 - 1) 3) (seqZ (p.2 - 1) 3)).
Proof.
  rewrite !seqZ_3, kernel_cells_3x3. destruct p as [r c]. cbn.
  repeat (apply (f_equal2 cons);
          [ match goal with
            | |- ?x * _ = _ => let v := eval vm_compute in x in change x with v
            end;
            rewrite Z.mul_1_l; f_equal; apply (f_equal2 pair); lia
          | ]).
  reflexivity.
Qed.

(** C4. The adjacency grid holds, at every cell of a boolean mine grid,
    the number of mined cells among the cell and its neighbours inside
    the grid; positions off the grid count for nothing. *)
Theorem adjacency_counts_mines (mines : ndarray Z) (p : coord) :
  binary mines →
  in_bounds (shape mines) p →
  np_get (generate_adjacency_matrix mines) p = Ok (Z.of_nat (count_around mines p)).
Proof.
  intros Hb Hp. unfold generate_adjacency_matrix, ndimage_convolve.
  rewrite np_get_tabulate by assumption. f_equal.
  change (Z.of_nat (shape (np_ones (3%nat, 3%nat))).1 / 2) with 1.
  change (Z.of_nat (shape (np_ones (3%nat, 3%nat))).2 / 2) with 1.
  change (shape (np_ones (3%nat, 3%nat))) with (3%nat, 3%nat).
  cbn [fst snd].
  rewrite (convolve_ones_block mines p).
  rewrite (py_sum_perm _ (padded 0 mines <$> cprod (seqZ (p.1 - 1) 3) (seqZ (p.2 - 1) 3))).
  - by rewrite sum_padded_count.
  - apply fmap_Permutation. apply reverse_Permutation.
Qed.

Lemma adjacency_counts_mines_witness :
  np_get (generate_adjacency_matrix mines_3x4) (1, 1) = Ok (Z.of_nat (count_around mines_3x4 (1, 1))).
Proof.
  apply adjacency_counts_mines.
  - unfold binary. simpl. repeat (apply Forall_cons_2; [lia|]). apply Forall_nil_2.
  - vm_compute. intuition discriminate.
Defined.

(** * Drawing the mine layout *)

Lemma truthy_false (v : Z) : truthy v = false ↔ v = 0.
Proof. unfold truthy. destruct (Z.eqb_spec v 0); simpl; split; intros; congruence. Qed.

Lemma truthy_true (v : Z) : truthy v = true ↔ v ≠ 0.
Proof. unfold truthy. destruct (Z.eqb_spec v 0); simpl; split; intros; congruence. Qed.

Lemma mine_list_binary (rows cols : nat) (n : Z) :
  Forall (λ v, v = 0 ∨ v = 1) (mine_list rows cols n).
Proof.
  unfold mine_list. apply Forall_app. split; apply Forall_replicate; auto.
Qed.

Lemma filter_replicate_nonzero (k : nat) (v : Z) :
  length (filter (λ v, v ≠ 0) (replicate k v)) = if decide (v ≠ 0) then k else 0%nat.
Proof.
  induction k as [|k IH]; simpl.
  - by destruct (decide (v ≠ 0)).
  - rewrite filter_cons. destruct (decide (v ≠ 0)); simpl; by rewrite IH.
Qed.

Lemma mine_list_count (rows cols : nat) (n : Z) :
  length (filter (λ v, v ≠ 0) (mine_list rows cols n)) = Z.to_nat n.
Proof.
  unfold mine_list. rewrite filter_app, length_app, !filter_replicate_nonzero.
  rewrite decide_True by lia. rewrite decide_False by auto. lia.
Qed.

Lemma mine_list_length (rows cols : nat) (n : Z) :
  length (mine_list rows cols n)
  = (Z.to_nat n + Z.to_nat (Z.of_nat rows * Z.of_nat cols - n))%nat.
Proof. unfold mine_list. by rewrite length_app, !length_replicate. Qed.

Lemma initialize_mines_layout (rs : random_source) (tick : nat) (f : Field) (mines : ndarray Z) :
  fair_shuffle rs →
  initialize_mines rs tick (rows f) (cols f) (mine_ratio f) = Ok mines →
  layout_of f mines.
Proof.
  intros Hfair H. unfold initialize_mines in H. inv_bind H.
  rename x into n.
  unfold np_reshape in H. case_bool_decide as Hlen; [|discriminate].
  injection H as <-.
  pose proof (Hfair (clock rs tick) (mine_list (rows f) (cols f) n)) as Hperm.
  rewrite Hperm, mine_list_length in Hlen. unfold size_of in Hlen. simpl in Hlen.
  unfold layout_of, well_formed, binary, mine_count. simpl.
  split_and!; [done| |..].
  - rewrite Hperm, mine_list_length. unfold size_of. simpl. lia.
  - rewrite Hperm. apply mine_list_binary.
  - exists n. split; [done|]. rewrite Hperm, mine_list_count. lia.
Qed.

Lemma _initialize_loop_Ok (rs : random_source) (f : Field) (p : coord)
    (fuel tick : nat) (mines0 mines : ndarray Z) :
  fair_shuffle rs →
  layout_of f mines0 →
  _initialize_loop fuel rs tick f p mines0 = Ok mines →
  layout_of f mines ∧ np_get mines p = Ok 0.
Proof.
  intros Hfair. revert tick mines0.
  induction fuel as [|fuel IH]; intros tick mines0 Hl H; simpl in H.
  - inv_bind H. destruct (truthy x) eqn:E; [discriminate|].
    injection H as <-. apply truthy_false in E. by subst.
  - inv_bind H. destruct (truthy x) eqn:E.
    + inv_bind H. eapply IH; [|exact H]. eapply initialize_mines_layout; eauto.
    + injection H as <-. apply truthy_false in E. by subst.
Qed.

Lemma _initialize_Ok (rs : random_source) (f f1 : Field) (fuel : nat) (row_idx col_idx : Z) :
  fair_shuffle rs →
  _initialize fuel rs f row_idx col_idx = Ok f1 →
  ∃ mines, f1 = set_adjacency_matrix (set_mines f (Some mines))
                  (Some (generate_adjacency_matrix mines)) ∧
           layout_of f mines ∧ np_get mines (row_idx, col_idx) = Ok 0.
Proof.
  intros Hfair H. unfold _initialize in H. inv_bind H. injection H as <-.
  exists x0. split; [done|].
  eapply _initialize_loop_Ok; eauto using initialize_mines_layout.
Qed.

Lemma rs_reverse_fair : fair_shuffle rs_reverse.
Proof. intros seed l. simpl. apply reverse_Permutation. Qed.

Lemma rs_rotate_fair : fair_shuffle rs_rotate.
Proof.
  intros seed l. simpl. unfold rotate.
  rewrite Permutation_app_comm. by rewrite take_drop.
Qed.

Lemma pick_square_Ok (set_order : gset coord → list coord) (fuel : nat)
    (rs : random_source) (f f2 : Field) (row_idx col_idx : Z) (auto_reveal alive : bool) :
  pick_square set_order fuel rs f row_idx col_idx auto_reveal = Ok (alive, f2) →
  ∃ f1 adjacency_matrix mines revelation_update revealed hit,
    (if initialized f then Ok f else _initialize fuel rs f row_idx col_idx) = Ok f1 ∧
    _adjacency_matrix f1 = Some adjacency_matrix ∧
    _mines f1 = Some mines ∧
    reveal_square set_order list_pop (_flagged f1) adjacency_matrix (_revealed f1)
      fuel row_idx col_idx auto_reveal = Ok revelation_update ∧
    np_zip Z.lor (_revealed f1) revelation_update = Ok revealed ∧
    f2 = set_revealed f1 revealed ∧
    np_zip Z.mul mines revealed = Ok hit ∧
    alive = negb (np_any hit).
Proof.
  intros H. unfold pick_square in H. inv_bind H. rename x into f1.
  destruct (_adjacency_matrix f1) as [adj|] eqn:Ea; [|discriminate].
  destruct (_mines f1) as [mines|] eqn:Em; [|discriminate].
  inv_bind H. simpl in Hx1. injection H as <- <-.
  exists f1, adj, mines, x, x0, x1. by split_and!.
Qed.

(** C3. A first pick on an uninitialized field leaves, whenever the
    initialization completes, a layout with no mine at the picked cell
    and with exactly [round(rows * cols * mine_ratio)] mines, however
    many layouts were drawn and discarded on the way. *)
Theorem first_pick_is_safe (set_order : gset coord → list coord) (fuel : nat)
    (rs : random_source) (f : Field) (row_idx col_idx : Z) (auto_reveal : bool) :
  fair_shuffle rs →
  initialized f = false →
  (∀ f1, _initialize fuel rs f row_idx col_idx = Ok f1 →
         initialized_safely f (row_idx, col_idx) f1) ∧
  (∀ alive f2, pick_square set_order fuel rs f row_idx col_idx auto_reveal = Ok (alive, f2) →
               initialized_safely f (row_idx, col_idx) f2).
Proof.
  intros Hfair Hinit.
  assert (∀ f1, _initialize fuel rs f row_idx col_idx = Ok f1 →
                initialized_safely f (row_idx, col_idx) f1) as Hstep.
  { intros f1 H. apply _initialize_Ok in H as (mines & -> & Hl & Hget); [|done].
    destruct Hl as (_ & _ & _ & n & Hn & _ & Hcount).
    exists mines, n. by split_and!. }
  split; [exact Hstep|].
  intros alive f2 H.
  apply pick_square_Ok in H
    as (f1 & adj & mines & upd & revealed & hit & H1 & _ & _ & _ & _ & -> & _).
  rewrite Hinit in H1. apply Hstep in H1.
  destruct H1 as (m & n & Hm & Hrest). exists m, n. by split.
Qed.

Lemma first_pick_is_safe_witness :
  ∃ alive f2,
    pick_square elements 3 rs_reverse field_2x2 0 0 false = Ok (alive, f2) ∧
    initialized_safely field_2x2 (0, 0) f2.
Proof.
  eexists _, _. split; [vm_compute; reflexivity|].
  eapply (proj2 (first_pick_is_safe elements 3 rs_reverse field_2x2 0 0 false
                   rs_reverse_fair eq_refl)).
  vm_compute. reflexivity.
Defined.

(** * Termination of the first pick's sampling loop *)

Lemma first_free_draw_at (rs : random_source) (f : Field) (p : coord) (k j : nat) :
  first_free_draw rs f p k → (j ≤ k)%nat →
  ∃ m v, initialize_mines rs j (rows f) (cols f) (mine_ratio f) = Ok m ∧
         np_get m p = Ok v ∧ (v = 0 ↔ j = k).
Proof.
  intros [Hbefore (mk & Hk & Hget)] Hj.
  destruct (decide (j = k)) as [->|Hne].
  - exists mk, 0. by split_and!.
  - destruct (Hbefore j) as (m & v & Hm & Hv & Hnz); [lia|].
    exists m, v. split_and!; [done..|]. split; intros; [lia|done].
Qed.

Lemma _initialize_loop_first_free (rs : random_source) (f : Field) (p : coord) (k : nat) :
  first_free_draw rs f p k →
  ∀ (n t : nat) (m : ndarray Z),
    k = (t + n)%nat →
    initialize_mines rs t (rows f) (cols f) (mine_ratio f) = Ok m →
    ∀ fuel,
      _initialize_loop fuel rs (S t) f p m
      = if bool_decide (n ≤ fuel)%nat
        then initialize_mines rs k (rows f) (cols f) (mine_ratio f)
        else Timeout.
Proof.
  intros Hk. induction n as [|n IH]; intros t m -> Hm fuel.
  - replace (t + 0)%nat with t in * by lia.
    destruct (first_free_draw_at rs f p t t Hk) as (m' & v & Hm' & Hv & Hz); [lia|].
    rewrite Hm in Hm'. injection Hm' as <-.
    assert (v = 0) as -> by (by apply Hz).
    rewrite bool_decide_eq_true_2 by lia.
    destruct fuel; simpl; by rewrite Hv, Hm.
  - destruct (first_free_draw_at rs f p (t + S n) t Hk) as (m' & v & Hm' & Hv & Hz); [lia|].
    rewrite Hm in Hm'. injection Hm' as <-.
    assert (truthy v = true) as Hv' by (apply truthy_true; lia).
    destruct fuel as [|fuel]; simpl; rewrite Hv; simpl; rewrite Hv'.
    + reflexivity.
    + destruct (first_free_draw_at rs f p (t + S n) (S t) Hk) as (m1 & v1 & Hm1 & _); [lia|].
      rewrite Hm1. simpl. rewrite (IH (S t) m1) by (done || lia).
      destruct (decide (n ≤ fuel)%nat).
      * by rewrite !bool_decide_eq_true_2 by lia.
      * by rewrite !bool_decide_eq_false_2 by lia.
Qed.

Lemma np_get_elem_of (a : ndarray Z) (p : coord) (v : Z) :
  np_get a p = Ok v → v ∈ data a.
Proof.
  unfold np_get. destruct (np_offset (shape a) p) as [k|]; [|discriminate].
  destruct (data a !! k) as [w|] eqn:E; [|discriminate].
  intros [= <-]. by eapply list_elem_of_lookup_2.
Qed.

Lemma free_cell_bounds_mines (rs : random_source) (tick : nat) (f : Field)
    (mines : ndarray Z) (p : coord) :
  fair_shuffle rs →
  initialize_mines rs tick (rows f) (cols f) (mine_ratio f) = Ok mines →
  np_get mines p = Ok 0 →
  ∃ n, num_mines_of (rows f) (cols f) (mine_ratio f) = Ok n ∧
       0 ≤ n < Z.of_nat (rows f) * Z.of_nat (cols f).
Proof.
  intros Hfair Hm Hget.
  destruct (initialize_mines_layout rs tick f mines Hfair Hm)
    as (_ & Hwf & _ & n & Hn & Hrange & Hcount).
  exists n. split; [done|].
  apply np_get_elem_of in Hget.
  assert (mine_count mines < length (data mines))%nat as Hlt.
  { unfold mine_count. clear -Hget. induction (data mines) as [|w l IH]; [by inversion Hget|].
    rewrite filter_cons. apply elem_of_cons in Hget as [<-|Hin].
    - rewrite decide_False by auto. simpl. pose proof (length_filter (λ v, v ≠ 0) l). lia.
    - specialize (IH Hin). destruct (decide (w ≠ 0)); simpl; lia. }
  unfold well_formed in Hwf.
  destruct (initialize_mines_layout rs tick f mines Hfair Hm) as (Hsh & _).
  rewrite Hsh in Hwf. unfold size_of in Hwf. simpl in Hwf. lia.
Qed.

(** C2, as the code has it.  The sampling loop of a first pick ends
    exactly when the random source comes up with a layout that leaves the
    picked cell free: if the [k]-th layout drawn is the first such one,
    the loop resamples [k] times and the initialization returns, and
    with less fuel than [k] iterations it is still running.  A free cell
    means fewer mines than cells: [round(rows * cols * mine_ratio)] is
    below [rows * cols]. *)
Theorem initialize_terminates (rs : random_source) (f : Field)
    (row_idx col_idx : Z) (k : nat) :
  fair_shuffle rs →
  first_free_draw rs f (row_idx, col_idx) k →
  (∃ f1, ∀ fuel, (k ≤ fuel)%nat → _initialize fuel rs f row_idx col_idx = Ok f1) ∧
  (∀ fuel, (fuel < k)%nat → _initialize fuel rs f row_idx col_idx = Timeout) ∧
  (∃ n, num_mines_of (rows f) (cols f) (mine_ratio f) = Ok n ∧
        0 ≤ n < Z.of_nat (rows f) * Z.of_nat (cols f)).
Proof.
  intros Hfair Hk.
  destruct (first_free_draw_at rs f _ k 0 Hk) as (m0 & v0 & Hm0 & _); [lia|].
  destruct (first_free_draw_at rs f _ k k Hk) as (mk & vk & Hmk & Hvk & Hz); [lia|].
  assert (vk = 0) as -> by (by apply Hz).
  pose proof (_initialize_loop_first_free rs f _ k Hk k 0 m0 eq_refl Hm0) as Hloop.
  split_and!.
  - eexists. intros fuel Hfuel. unfold _initialize. rewrite Hm0. simpl.
    rewrite Hloop, bool_decide_eq_true_2 by lia. rewrite Hmk. simpl. reflexivity.
  - intros fuel Hfuel. unfold _initialize. rewrite Hm0. simpl.
    by rewrite Hloop, bool_decide_eq_false_2 by lia.
  - eapply free_cell_bounds_mines; eauto.
Qed.

Lemma rs_rotate_first_free_draw : first_free_draw rs_rotate field_2x2 (0, 0) 2.
Proof.
  split.
  - intros j Hj. destruct j as [|[|j]]; [| |lia].
    + eexists _, _. split_and!; [vm_compute; reflexivity..|done].
    + eexists _, _. split_and!; [vm_compute; reflexivity..|done].
  - eexists. split; vm_compute; reflexivity.
Defined.

Lemma initialize_terminates_witness :
  (∃ f1, ∀ fuel, (2 ≤ fuel)%nat → _initialize fuel rs_rotate field_2x2 0 0 = Ok f1) ∧
  (∀ fuel, (fuel < 2)%nat → _initialize fuel rs_rotate field_2x2 0 0 = Timeout) ∧
  (∃ n, num_mines_of (rows field_2x2) (cols field_2x2) (mine_ratio field_2x2) = Ok n ∧
        0 ≤ n < Z.of_nat (rows field_2x2) * Z.of_nat (cols field_2x2)).
Proof.
  exact (initialize_terminates rs_rotate field_2x2 0 0 2 rs_rotate_fair
           rs_rotate_first_free_draw).
Defined.

Lemma initialize_mines_1x1 (rs : random_source) (tick : nat) :
  fair_shuffle rs →
  initialize_mines rs tick (rows field_1x1) (cols field_1x1) (mine_ratio field_1x1)
  = Ok (mk_ndarray (1%nat, 1%nat) [1]).
Proof.
  intros Hfair. unfold initialize_mines.
  change (num_mines_of (rows field_1x1) (cols field_1x1) (mine_ratio field_1x1)) with (Ok 1).
  simpl.
  change (mine_list 1 1 1) with [1].
  pose proof (Hfair (clock rs tick) [1]) as Hperm.
  apply Permutation_singleton_r in Hperm. rewrite Hperm. reflexivity.
Qed.

Lemma _initialize_loop_1x1 (rs : random_source) (fuel tick : nat) :
  fair_shuffle rs →
  _initialize_loop fuel rs tick field_1x1 (0, 0) (mk_ndarray (1%nat, 1%nat) [1]) = Timeout.
Proof.
  intros Hfair. revert tick. induction fuel as [|fuel IH]; intros tick; [reflexivity|].
  change (_initialize_loop (S fuel) rs tick field_1x1 (0, 0) (mk_ndarray (1%nat, 1%nat) [1]))
    with (mines ← initialize_mines rs tick (rows field_1x1) (cols field_1x1)
                    (mine_ratio field_1x1);
          _initialize_loop fuel rs (S tick) field_1x1 (0, 0) mines).
  rewrite initialize_mines_1x1 by assumption. apply IH.
Qed.

(** C2, counterexample.  A 1x1 field with [mine_ratio = 0.75], which is
    below 1.0, gets [round(0.75) = 1] mine: every layout mines the only
    cell, and whatever the random source and however much fuel, the
    first pick at (0, 0) is still sampling. *)
Lemma initialize_diverges_below_ratio_one :
  PrimFloat.ltb (mine_ratio field_1x1) 1%float = true ∧
  Field_init 1 1 0.75%float = Ok field_1x1 ∧
  ¬ ∃ rs fuel, fair_shuffle rs ∧ _initialize fuel rs field_1x1 0 0 ≠ Timeout.
Proof.
  split_and!; [reflexivity..|].
  intros (rs & fuel & Hfair & H). apply H.
  unfold _initialize. rewrite initialize_mines_1x1 by assumption.
  simpl. by rewrite _initialize_loop_1x1.
Qed.

(** * [from_mine_matrix] *)

Lemma float_of_int_cases (n : Z) :
  float_of_int n = Raise OverflowError ∨ ∃ x, float_of_int n = Ok x.
Proof.
  unfold float_of_int. destruct (binary_normalize prec emax n 0 false); eauto.
Qed.

Lemma Field_init_nat (num_rows num_cols : nat) (ratio : float) :
  ∃ f, Field_init (Z.of_nat num_rows) (Z.of_nat num_cols) ratio = Ok f.
Proof.
  unfold Field_init. rewrite bool_decide_eq_true_2 by lia. eauto.
Qed.

(** C1, what the code does.  [from_mine_matrix] never returns a field:
    whatever the mine grid, the assignment to the read-only property
    [adjacency_matrix] raises [AttributeError] (a sum of the grid beyond
    the floats raises earlier). *)
Theorem from_mine_matrix_raises (mines : ndarray Z) :
  from_mine_matrix mines = Raise AttributeError ∨
  from_mine_matrix mines = Raise OverflowError.
Proof.
  unfold from_mine_matrix. destruct (shape mines) as [r c].
  destruct (float_of_int_cases (np_sum mines)) as [->|[x ->]]; [by right|].
  destruct (float_of_int_cases (Z.of_nat r * Z.of_nat c)) as [->|[y ->]]; [by right|].
  simpl. destruct (Field_init_nat r c (x / y)%float) as [f ->]. simpl.
  by left.
Qed.

Lemma from_mine_matrix_2x2 : from_mine_matrix mines_2x2 = Raise AttributeError.
Proof. vm_compute. reflexivity. Qed.

(** * [toggle_flag_square] *)

Lemma ndarray_insert_id (a : ndarray Z) (p : coord) :
  well_formed a → in_bounds (shape a) p →
  mk_ndarray (shape a) (<[flat_offset (shape a) p := cell a p]> (data a)) = a.
Proof.
  intros Hwf Hp. destruct a as [sh d]. simpl in *. f_equal.
  apply list_insert_id. unfold cell. simpl.
  destruct (d !! flat_offset sh p) eqn:E; [done|].
  apply lookup_ge_None in E. pose proof (flat_offset_lt _ _ Hp).
  unfold well_formed in Hwf. simpl in Hwf. lia.
Qed.

Lemma cell_insert (a : ndarray Z) (p q : coord) (v : Z) :
  well_formed a → in_bounds (shape a) p → in_bounds (shape a) q →
  cell (mk_ndarray (shape a) (<[flat_offset (shape a) p := v]> (data a))) q
  = if decide (p = q) then v else cell a q.
Proof.
  intros Hwf Hp Hq. unfold cell. simpl.
  destruct (decide (p = q)) as [->|Hne].
  - rewrite list_lookup_insert_eq; [done|].
    pose proof (flat_offset_lt _ _ Hq). unfold well_formed in Hwf. lia.
  - rewrite list_lookup_insert_ne; [done|].
    intros E. by apply flat_offset_inj in E.
Qed.

Lemma toggle_flag_square_unrevealed (f : Field) (row_idx col_idx : Z) :
  wf_field f →
  in_bounds (rows f, cols f) (row_idx, col_idx) →
  cell (_revealed f) (row_idx, col_idx) = 0 →
  toggle_flag_square f row_idx col_idx
  = Ok (set_flagged f
          (mk_ndarray (shape (_flagged f))
             (<[flat_offset (shape (_flagged f)) (row_idx, col_idx)
                := 1 - cell (_flagged f) (row_idx, col_idx)]> (data (_flagged f))))).
Proof.
  intros ([Hr1 Hr2] & Hr3 & [Hf1 Hf2] & Hf3 & _) Hp Hz.
  unfold toggle_flag_square.
  rewrite (np_get_in_bounds (_revealed f)), Hz by (done || by rewrite Hr1). simpl.
  rewrite (np_get_in_bounds (_flagged f)) by (done || by rewrite Hf1). simpl.
  rewrite np_set_in_bounds by (done || by rewrite Hf1). simpl.
  do 4 f_equal.
  destruct (binary_cell (_flagged f) (row_idx, col_idx) Hf3) as [->| ->]; reflexivity.
Qed.

Lemma toggle_flag_square_revealed (f : Field) (row_idx col_idx : Z) :
  wf_field f →
  in_bounds (rows f, cols f) (row_idx, col_idx) →
  cell (_revealed f) (row_idx, col_idx) ≠ 0 →
  toggle_flag_square f row_idx col_idx = Ok f.
Proof.
  intros ([Hr1 Hr2] & _) Hp Hnz. unfold toggle_flag_square.
  rewrite (np_get_in_bounds (_revealed f)) by (done || by rewrite Hr1). simpl.
  apply truthy_true in Hnz. by rewrite Hnz.
Qed.

Lemma wf_field_set_flagged (f : Field) (a : ndarray Z) :
  wf_field f → grid_of (rows f, cols f) a → binary a → wf_field (set_flagged f a).
Proof. intros (? & ? & ? & ? & ?) ? ?. unfold wf_field. simpl. by split_and!. Qed.

Lemma binary_insert (a : ndarray Z) (k : nat) (v : Z) :
  binary a → v = 0 ∨ v = 1 → binary (mk_ndarray (shape a) (<[k:=v]> (data a))).
Proof. intros Hb Hv. unfold binary in *. simpl. by apply Forall_insert. Qed.

Lemma grid_of_insert (sh : nat * nat) (a : ndarray Z) (k : nat) (v : Z) :
  grid_of sh a → grid_of sh (mk_ndarray (shape a) (<[k:=v]> (data a))).
Proof.
  intros [H1 H2]. unfold grid_of, well_formed in *. simpl. by rewrite length_insert.
Qed.

(** C9. On an unrevealed in-bounds cell one toggle flips the flag and a
    second one restores it, leaving the field as it was; on a revealed
    cell a toggle returns without changing anything. *)
Theorem toggle_flag_square_involutive (f : Field) (row_idx col_idx : Z) :
  wf_field f →
  in_bounds (rows f, cols f) (row_idx, col_idx) →
  (cell (_revealed f) (row_idx, col_idx) = 0 →
   ∃ f1, toggle_flag_square f row_idx col_idx = Ok f1 ∧
         cell (_flagged f1) (row_idx, col_idx) = 1 - cell (_flagged f) (row_idx, col_idx) ∧
         toggle_flag_square f1 row_idx col_idx = Ok f) ∧
  (cell (_revealed f) (row_idx, col_idx) ≠ 0 →
   toggle_flag_square f row_idx col_idx = Ok f).
Proof.
  intros Hwf Hp. split; [|by apply toggle_flag_square_revealed].
  intros Hz. pose proof Hwf as (_ & _ & [Hf1 Hf2] & Hf3 & _).
  assert (in_bounds (shape (_flagged f)) (row_idx, col_idx)) as Hp' by (by rewrite Hf1).
  assert (1 - cell (_flagged f) (row_idx, col_idx) = 0 ∨
          1 - cell (_flagged f) (row_idx, col_idx) = 1) as Hflip.
  { destruct (binary_cell (_flagged f) (row_idx, col_idx) Hf3) as [->| ->]; auto. }
  eexists. split; [by apply toggle_flag_square_unrevealed|].
  split.
  - simpl. rewrite cell_insert by done. by rewrite decide_True.
  - rewrite toggle_flag_square_unrevealed; [| |done|done].
    + simpl. rewrite cell_insert, decide_True by done.
      rewrite list_insert_insert_eq.
      replace (1 - (1 - cell (_flagged f) (row_idx, col_idx)))
        with (cell (_flagged f) (row_idx, col_idx)) by lia.
      rewrite ndarray_insert_id by done. by destruct f.
    + apply wf_field_set_flagged; [done| |].
      * by apply grid_of_insert.
      * by apply binary_insert.
Qed.

Lemma field_2x2_wf : wf_field field_2x2.
Proof.
  unfold wf_field, grid_of, well_formed, binary. simpl.
  split_and!; try done; repeat (apply Forall_cons_2; [lia|]); apply Forall_nil_2.
Qed.

Lemma field_2x2_flagged_wf : wf_field field_2x2_flagged.
Proof.
  unfold wf_field, grid_of, well_formed, binary. simpl.
  split_and!; try done; repeat (apply Forall_cons_2; [lia|]); apply Forall_nil_2.
Qed.

Lemma toggle_flag_square_involutive_witness :
  toggle_flag_square field_2x2 0 1 = Ok field_2x2_flagged ∧
  ∃ f1, toggle_flag_square field_2x2_flagged 0 1 = Ok f1 ∧
        cell (_flagged f1) (0, 1) = 1 - cell (_flagged field_2x2_flagged) (0, 1) ∧
        toggle_flag_square f1 0 1 = Ok field_2x2_flagged.
Proof.
  split; [reflexivity|].
  apply (toggle_flag_square_involutive field_2x2_flagged 0 1 field_2x2_flagged_wf).
  - unfold in_bounds. simpl. lia.
  - reflexivity.
Defined.

(** * Neighbourhoods *)

Lemma NoDup_cprod {A B : Type} (l : list A) (k : list B) :
  NoDup l → NoDup k → NoDup (cprod l k).
Proof.
  intros Hl Hk. induction Hl as [|x l Hx Hl IH]; [constructor|].
  change (cprod (x :: l) k) with ((pair x <$> k) ++ cprod l k).
  apply NoDup_app. split_and!; [|..|done].
  - apply NoDup_fmap; [|done]. by intros ?? [= ->].
  - intros [a b] [b' [[= -> ->] _]]%list_elem_of_fmap [Ha _]%list_elem_of_cprod. done.
Qed.

Lemma neighbourhood_NoDup (sh : nat * nat) (p : coord) : NoDup (neighbourhood sh p).
Proof. apply NoDup_filter, NoDup_cprod; apply NoDup_seqZ. Qed.

Lemma elem_of_neighbourhood (sh : nat * nat) (p q : coord) :
  q ∈ neighbourhood sh p ↔
  in_bounds sh q ∧ p.1 - 1 ≤ q.1 ≤ p.1 + 1 ∧ p.2 - 1 ≤ q.2 ≤ p.2 + 1.
Proof.
  unfold neighbourhood.
  rewrite list_elem_of_filter, list_elem_of_cprod, !elem_of_seqZ. intuition lia.
Qed.

Lemma elem_of_clipped (n : nat) (r x : Z) :
  0 ≤ r < Z.of_nat n →
  x ∈ (λ y, np_clip y 0 (Z.of_nat n - 1)) <$> seqZ (r - 1) 3 ↔
  0 ≤ x < Z.of_nat n ∧ r - 1 ≤ x ≤ r + 1.
Proof.
  intros Hr. rewrite seqZ_3. cbn [fmap list_fmap].
  rewrite !elem_of_cons, elem_of_nil. unfold np_clip. lia.
Qed.

Lemma elem_of_adjacent_squares (sh : nat * nat) (p q : coord) :
  in_bounds sh p →
  q ∈ adjacent_squares sh.1 sh.2 p ↔ q ∈ neighbourhood sh p.
Proof.
  intros [H1 H2]. unfold adjacent_squares.
  rewrite elem_of_list_to_set, list_elem_of_cprod, !elem_of_clipped by done.
  rewrite elem_of_neighbourhood. unfold in_bounds. intuition lia.
Qed.

Lemma neighbourhood_in_bounds (sh : nat * nat) (p q : coord) :
  q ∈ neighbourhood sh p → in_bounds sh q.
Proof. rewrite elem_of_neighbourhood. tauto. Qed.

Lemma elem_of_cells (sh : nat * nat) (p : coord) : p ∈ cells sh ↔ in_bounds sh p.
Proof.
  unfold cells, in_bounds.
  rewrite elem_of_list_to_set, list_elem_of_cprod, !elem_of_seqZ. lia.
Qed.

(** * The flood fill *)

Lemma py_sum_count (a : ndarray Z) (l : list coord) :
  binary a →
  py_sum (cell a <$> l) = Z.of_nat (length (filter (λ q, cell a q ≠ 0) l)).
Proof.
  intros Hb. induction l as [|q l IH]; [reflexivity|].
  rewrite fmap_cons, filter_cons. simpl. rewrite IH.
  destruct (binary_cell a q Hb) as [E|E]; rewrite E.
  - rewrite decide_False by auto. lia.
  - rewrite decide_True by lia. simpl. lia.
Qed.

Lemma omapM_np_get (a : ndarray Z) (l : list coord) :
  well_formed a → Forall (in_bounds (shape a)) l →
  omapM (np_get a) l = Ok (cell a <$> l).
Proof.
  intros Hwf. induction 1 as [|q l Hq Hl IH]; [reflexivity|].
  simpl. rewrite np_get_in_bounds by done. simpl. by rewrite IH.
Qed.

Section reveal_facts.
Variable set_order : gset coord → list coord.
Hypothesis set_order_perm : ∀ s, set_order s ≡ₚ elements s.
Variables flagged adjacency_matrix revealed : ndarray Z.
Variable sh : nat * nat.
Hypothesis flagged_grid : grid_of sh flagged.
Hypothesis flagged_binary : binary flagged.
Hypothesis adjacency_grid : grid_of sh adjacency_matrix.
Hypothesis revealed_grid : grid_of sh revealed.

Lemma set_order_adjacent (p : coord) :
  in_bounds sh p →
  set_order (adjacent_squares sh.1 sh.2 p) ≡ₚ neighbourhood sh p.
Proof.
  intros Hp. rewrite set_order_perm.
  apply NoDup_Permutation; [apply NoDup_elements|apply neighbourhood_NoDup|].
  intros q. rewrite elem_of_elements. by apply elem_of_adjacent_squares.
Qed.

Lemma set_order_in_bounds (p : coord) :
  in_bounds sh p → Forall (in_bounds sh) (set_order (adjacent_squares sh.1 sh.2 p)).
Proof.
  intros Hp. rewrite set_order_adjacent by done. apply Forall_forall.
  intros q. apply neighbourhood_in_bounds.
Qed.

Lemma adjacent_flagged_sum (p : coord) :
  in_bounds sh p →
  py_sum (cell flagged <$> set_order (adjacent_squares sh.1 sh.2 p))
  = Z.of_nat (count_around flagged p).
Proof.
  intros Hp. rewrite py_sum_count by done. unfold count_around.
  rewrite (proj1 flagged_grid). by rewrite set_order_adjacent.
Qed.

Lemma can_add_in_bounds (already_checked : gset coord) (q : coord) :
  in_bounds sh q →
  can_add flagged revealed already_checked q
  = Ok (bool_decide ((q ∉ already_checked) ∧ coverable flagged revealed q)).
Proof.
  intros Hq. unfold can_add, coverable.
  destruct flagged_grid as [Hf1 Hf2], revealed_grid as [Hr1 Hr2].
  case_bool_decide as Hin.
  - by rewrite bool_decide_eq_false_2 by tauto.
  - rewrite (np_get_in_bounds revealed) by (done || by rewrite Hr1). simpl.
    destruct (truthy (cell revealed q)) eqn:Er.
    + apply truthy_true in Er. by rewrite bool_decide_eq_false_2 by tauto.
    + apply truthy_false in Er.
      rewrite (np_get_in_bounds flagged) by (done || by rewrite Hf1). simpl.
      destruct (truthy (cell flagged q)) eqn:Ef; simpl.
      * apply truthy_true in Ef. by rewrite bool_decide_eq_false_2 by tauto.
      * apply truthy_false in Ef. by rewrite bool_decide_eq_true_2.
Qed.

Lemma ofilterM_can_add (already_checked : gset coord) (l : list coord) :
  Forall (in_bounds sh) l →
  ofilterM (can_add flagged revealed already_checked) l
  = Ok (filter (λ q, (q ∉ already_checked) ∧ coverable flagged revealed q) l).
Proof.
  induction 1 as [|q l Hq Hl IH]; [reflexivity|].
  simpl. rewrite can_add_in_bounds by done. simpl. rewrite IH. simpl.
  rewrite filter_cons. by case_bool_decide; [rewrite decide_True|rewrite decide_False].
Qed.

Section worklist.
Variable take : list coord → option (coord * list coord).

(** One turn of the loop, for a current cell inside the grid. *)
Lemma reveal_loop_step (fuel : nat) (to_check rest : list coord) (x : coord)
    (already_checked : gset coord) (update_matrix : ndarray Z) :
  take to_check = Some (x, rest) →
  in_bounds sh x →
  grid_of sh update_matrix →
  reveal_loop set_order take flagged adjacency_matrix revealed (S fuel)
    to_check already_checked update_matrix
  = reveal_loop set_order take flagged adjacency_matrix revealed fuel
      (rest ++ next_work set_order flagged adjacency_matrix revealed
                 ({[x]} ∪ already_checked) x)
      ({[x]} ∪ already_checked) (mark update_matrix x).
Proof.
  intros Htake Hx [Hu1 Hu2].
  destruct flagged_grid as [Hf1 Hf2], adjacency_grid as [Ha1 Ha2].
  simpl. rewrite Htake. rewrite Hf1.
  rewrite omapM_np_get by (done || rewrite Hf1; by apply set_order_in_bounds). simpl.
  rewrite (np_get_in_bounds adjacency_matrix) by (done || by rewrite Ha1). simpl.
  rewrite adjacent_flagged_sum by done.
  unfold next_work, gate_open. rewrite Hf1.
  case_bool_decide as Hgate; [rewrite decide_True by done|rewrite decide_False by done]; simpl.
  - rewrite ofilterM_can_add by (by apply set_order_in_bounds). simpl.
    rewrite np_set_in_bounds by (done || by rewrite Hu1). reflexivity.
  - rewrite np_set_in_bounds by (done || by rewrite Hu1). simpl.
    by rewrite app_nil_r.
Qed.

Lemma reveal_loop_done (fuel : nat) (to_check : list coord)
    (already_checked : gset coord) (update_matrix : ndarray Z) :
  take to_check = None →
  reveal_loop set_order take flagged adjacency_matrix revealed fuel
    to_check already_checked update_matrix = Ok update_matrix.
Proof. intros H. destruct fuel; simpl; by rewrite H. Qed.

Variable view : list coord → list coord.
Hypothesis take_None : ∀ l, take l = None → l = [].
Hypothesis take_view : ∀ l x r, take l = Some (x, r) → view l = x :: view r.
Hypothesis view_perm : ∀ l, view l ≡ₚ l.
Hypothesis view_app : ∀ (checked : gset coord) r new,
  (∀ y, y ∈ new → y ∉ checked) →
  (leading checked (view (r ++ new)) ≤ leading checked (view r))%nat.

Variable seed : coord.
Hypothesis seed_in_bounds : in_bounds sh seed.

Lemma take_perm (l r : list coord) (x : coord) : take l = Some (x, r) → l ≡ₚ x :: r.
Proof. intros H%take_view. by rewrite <- (view_perm l), H, view_perm. Qed.

Lemma reach_in_bounds (q : coord) :
  reach flagged adjacency_matrix revealed seed q → in_bounds sh q.
Proof.
  induction 1 as [|p q _ _ _ Hq _]; [done|].
  rewrite (proj1 flagged_grid) in Hq. by eapply neighbourhood_in_bounds.
Qed.

Lemma cell_zeros (q : coord) : cell (np_zeros sh) q = 0.
Proof.
  unfold cell, np_zeros. simpl.
  destruct (replicate (size_of sh) 0 !! flat_offset sh q) as [v|] eqn:E; [|done].
  by apply lookup_replicate in E as [-> _].
Qed.

Lemma np_zeros_grid : grid_of sh (np_zeros sh) ∧ binary (np_zeros sh).
Proof.
  unfold grid_of, well_formed, binary, np_zeros. simpl.
  rewrite length_replicate. split_and!; [done..|]. apply Forall_replicate. by left.
Qed.

Lemma cell_mark (update_matrix : ndarray Z) (x q : coord) :
  grid_of sh update_matrix → in_bounds sh x → in_bounds sh q →
  cell (mark update_matrix x) q = if decide (x = q) then 1 else cell update_matrix q.
Proof.
  intros [H1 H2] Hx Hq. unfold mark. apply cell_insert; [done|by rewrite H1..].
Qed.

Lemma mark_grid (update_matrix : ndarray Z) (x : coord) :
  grid_of sh update_matrix → binary update_matrix →
  grid_of sh (mark update_matrix x) ∧ binary (mark update_matrix x).
Proof.
  intros Hg Hb. split; [by apply grid_of_insert|apply binary_insert; auto].
Qed.

Lemma flood_inv_init :
  flood_inv sh flagged adjacency_matrix revealed seed [seed] ∅ (mark (np_zeros sh) seed).
Proof.
  destruct np_zeros_grid as [Hg Hb].
  split.
  - by apply mark_grid.
  - by apply mark_grid.
  - intros q ->%list_elem_of_singleton. constructor.
  - intros q Hq. by apply elem_of_empty in Hq.
  - intros q Hq. rewrite cell_mark by done. rewrite cell_zeros.
    destruct (decide (seed = q)) as [->|Hne]; [intuition|].
    split; [done|]. intros [->|Hin]; [done|by apply elem_of_empty in Hin].
  - intros p q Hp. by apply elem_of_empty in Hp.
  - right. by apply list_elem_of_singleton.
Qed.

Lemma elem_of_next_work (already_checked : gset coord) (x q : coord) :
  in_bounds sh x →
  q ∈ next_work set_order flagged adjacency_matrix revealed already_checked x ↔
  gate_open flagged adjacency_matrix x ∧ q ∈ neighbourhood sh x ∧
  (q ∉ already_checked) ∧ coverable flagged revealed q.
Proof.
  intros Hx. unfold next_work. rewrite (proj1 flagged_grid).
  destruct (decide (gate_open flagged adjacency_matrix x)) as [Hg|Hg].
  - rewrite list_elem_of_filter, set_order_adjacent by done. tauto.
  - rewrite elem_of_nil. tauto.
Qed.

Lemma flood_inv_step (to_check rest : list coord) (x : coord)
    (already_checked : gset coord) (update_matrix : ndarray Z) :
  flood_inv sh flagged adjacency_matrix revealed seed to_check already_checked update_matrix →
  to_check ≡ₚ x :: rest →
  flood_inv sh flagged adjacency_matrix revealed seed
    (rest ++ next_work set_order flagged adjacency_matrix revealed
               ({[x]} ∪ already_checked) x)
    ({[x]} ∪ already_checked) (mark update_matrix x).
Proof.
  intros [Hg Hb Hwork Hchecked Hmarked Hclosed Hseed] Hperm.
  assert (reach flagged adjacency_matrix revealed seed x) as Hx.
  { apply Hwork. rewrite Hperm. by left. }
  pose proof (reach_in_bounds x Hx) as Hxb.
  split.
  - by apply mark_grid.
  - by apply mark_grid.
  - intros q [Hq|Hq]%elem_of_app.
    + apply Hwork. rewrite Hperm. by right.
    + apply elem_of_next_work in Hq as (Hgate & Hn & _ & Hc); [|done].
      eapply reach_step; eauto. by rewrite (proj1 flagged_grid).
  - intros q [->%elem_of_singleton|Hq]%elem_of_union; auto.
  - intros q Hq. rewrite cell_mark by done. rewrite elem_of_union, elem_of_singleton.
    destruct (decide (x = q)) as [->|Hne]; [intuition|].
    rewrite Hmarked by done. intuition congruence.
  - intros p q Hp Hgate Hn Hc. rewrite elem_of_app.
    destruct (decide (q ∈ {[x]} ∪ already_checked)) as [|Hnew]; [by left|].
    apply elem_of_union in Hp as [->%elem_of_singleton|Hp].
    + right. right. by apply elem_of_next_work.
    + destruct (Hclosed p q Hp Hgate Hn Hc) as [Hq|Hq].
      { left. apply elem_of_union. by right. }
      rewrite Hperm in Hq. apply elem_of_cons in Hq as [->|Hq]; [|auto].
      left. apply elem_of_union. left. by apply elem_of_singleton.
  - destruct Hseed as [Hs|Hs].
    { left. apply elem_of_union. by right. }
    rewrite Hperm in Hs. apply elem_of_cons in Hs as [->|Hs].
    { left. apply elem_of_union. left. by apply elem_of_singleton. }
    right. apply elem_of_app. by left.
Qed.

Lemma flood_inv_final (already_checked : gset coord) (update_matrix : ndarray Z) :
  flood_inv sh flagged adjacency_matrix revealed seed [] already_checked update_matrix →
  marks sh update_matrix (reach flagged adjacency_matrix revealed seed).
Proof.
  intros [Hg Hb Hwork Hchecked Hmarked Hclosed Hseed].
  assert (∀ q, reach flagged adjacency_matrix revealed seed q → q ∈ already_checked) as Hall.
  { induction 1 as [|p q _ IH Hgate Hn Hc].
    - destruct Hseed as [|Hs]; [done|]. by apply elem_of_nil in Hs.
    - rewrite (proj1 flagged_grid) in Hn.
      destruct (Hclosed p q IH Hgate Hn Hc) as [|Hq]; [done|]. by apply elem_of_nil in Hq. }
  split_and!; [done..|]. intros q Hq. rewrite Hmarked by done. split.
  - intros [->|Hin]; [constructor|auto].
  - auto.
Qed.

(** The loop computes the reachable set. *)
Lemma reveal_loop_correct (fuel : nat) (to_check : list coord)
    (already_checked : gset coord) (update_matrix r : ndarray Z) :
  flood_inv sh flagged adjacency_matrix revealed seed to_check already_checked update_matrix →
  reveal_loop set_order take flagged adjacency_matrix revealed fuel
    to_check already_checked update_matrix = Ok r →
  marks sh r (reach flagged adjacency_matrix revealed seed).
Proof.
  revert to_check already_checked update_matrix.
  induction fuel as [|fuel IH]; intros to_check already_checked update_matrix Hinv H.
  - simpl in H. destruct (take to_check) as [[x rest]|] eqn:Ht; [discriminate|].
    injection H as <-. apply take_None in Ht as ->. by eapply flood_inv_final.
  - destruct (take to_check) as [[x rest]|] eqn:Ht.
    + pose proof (take_perm _ _ _ Ht) as Hperm.
      assert (in_bounds sh x) as Hx.
      { apply reach_in_bounds, (inv_work _ _ _ _ _ _ _ _ Hinv). rewrite Hperm. by left. }
      rewrite (reveal_loop_step _ _ _ _ _ _ Ht Hx (inv_grid _ _ _ _ _ _ _ _ Hinv)) in H.
      eapply IH; [|exact H]. by eapply flood_inv_step.
    + rewrite reveal_loop_done in H by done. injection H as <-.
      apply take_None in Ht as ->. by eapply flood_inv_final.
Qed.

(** The loop ends: a turn at an unchecked cell shrinks the set of
    unchecked cells, a turn at a checked cell brings the next unchecked
    cell of the work list closer. *)
Lemma reveal_loop_terminates (to_check : list coord)
    (already_checked : gset coord) (update_matrix : ndarray Z) :
  flood_inv sh flagged adjacency_matrix revealed seed to_check already_checked update_matrix →
  ∃ fuel r, reveal_loop set_order take flagged adjacency_matrix revealed fuel
              to_check already_checked update_matrix = Ok r.
Proof.
  remember (size (cells sh ∖ already_checked)) as U eqn:HU.
  remember (leading already_checked (view to_check)) as d eqn:Hd.
  revert d to_check already_checked update_matrix HU Hd.
  induction U as [U IHU] using lt_wf_ind.
  induction d as [d IHd] using lt_wf_ind.
  intros to_check already_checked update_matrix HU Hd Hinv.
  destruct (take to_check) as [[x rest]|] eqn:Ht.
  - pose proof (take_perm _ _ _ Ht) as Hperm.
    pose proof (take_view _ _ _ Ht) as Hview.
    assert (in_bounds sh x) as Hx.
    { apply reach_in_bounds, (inv_work _ _ _ _ _ _ _ _ Hinv). rewrite Hperm. by left. }
    pose proof (flood_inv_step _ _ _ _ _ Hinv Hperm) as Hinv'.
    cut (∃ fuel r, reveal_loop set_order take flagged adjacency_matrix revealed fuel
           (rest ++ next_work set_order flagged adjacency_matrix revealed
                      ({[x]} ∪ already_checked) x)
           ({[x]} ∪ already_checked) (mark update_matrix x) = Ok r).
    { intros (fuel & r & H). exists (S fuel), r.
      by rewrite (reveal_loop_step _ _ _ _ _ _ Ht Hx (inv_grid _ _ _ _ _ _ _ _ Hinv)). }
    destruct (decide (x ∈ already_checked)) as [Hin|Hnin].
    + assert ({[x]} ∪ already_checked = already_checked) as Heq.
      { apply subseteq_union_1_L. by apply singleton_subseteq_l. }
      rewrite Heq in *.
      eapply (IHd (leading already_checked
                     (view (rest ++ next_work set_order flagged adjacency_matrix revealed
                                      already_checked x)))); [|done..].
      rewrite Hd, Hview. simpl. rewrite decide_True by done.
      apply Nat.lt_succ_r, view_app.
      intros y Hy. apply elem_of_next_work in Hy; tauto.
    + eapply (IHU (size (cells sh ∖ ({[x]} ∪ already_checked)))); [|done..].
      rewrite HU. apply subset_size.
      assert (x ∈ cells sh) as Hcell by (by apply elem_of_cells).
      split.
      * intros y. rewrite !elem_of_difference, elem_of_union. tauto.
      * intros Hsub. specialize (Hsub x).
        rewrite !elem_of_difference, elem_of_union, elem_of_singleton in Hsub. tauto.
  - exists 0%nat, update_matrix. by apply reveal_loop_done.
Qed.

Lemma reveal_loop_more_fuel (fuel fuel' : nat) (to_check : list coord)
    (already_checked : gset coord) (update_matrix r : ndarray Z) :
  (fuel ≤ fuel')%nat →
  reveal_loop set_order take flagged adjacency_matrix revealed fuel
    to_check already_checked update_matrix = Ok r →
  reveal_loop set_order take flagged adjacency_matrix revealed fuel'
    to_check already_checked update_matrix = Ok r.
Proof.
  revert fuel' to_check already_checked update_matrix.
  induction fuel as [|fuel IH]; intros fuel' to_check already_checked update_matrix Hle H.
  - simpl in H. destruct (take to_check) as [[x rest]|] eqn:Ht; [discriminate|].
    by rewrite reveal_loop_done.
  - destruct fuel' as [|fuel']; [lia|].
    simpl in *. destruct (take to_check) as [[x rest]|] eqn:Ht; [|done].
    inv_bind H. rewrite Hx. simpl. rewrite Hx0. simpl. rewrite Hx1. simpl.
    rewrite Hx2. simpl. apply IH; [lia|done].
Qed.

Lemma marks_seed_only :
  marks sh (mark (np_zeros sh) seed) (λ q, q = seed).
Proof.
  destruct np_zeros_grid as [Hg Hb].
  split_and!; [by apply mark_grid..|].
  intros q Hq. rewrite cell_mark, cell_zeros by done.
  destruct (decide (seed = q)); intuition congruence.
Qed.

Lemma reveal_square_unfold (fuel : nat) (auto_reveal : bool) :
  reveal_square set_order take flagged adjacency_matrix revealed fuel seed.1 seed.2 auto_reveal
  = if negb auto_reveal && truthy (cell adjacency_matrix seed)
    then Ok (mark (np_zeros sh) seed)
    else reveal_loop set_order take flagged adjacency_matrix revealed fuel
           [seed] ∅ (mark (np_zeros sh) seed).
Proof.
  destruct np_zeros_grid as [[Hz1 Hz2] _], adjacency_grid as [Ha1 Ha2].
  unfold reveal_square. rewrite (proj1 flagged_grid).
  rewrite <- (surjective_pairing seed).
  rewrite np_set_in_bounds by done. simpl.
  destruct auto_reveal; simpl; [reflexivity|].
  rewrite (np_get_in_bounds adjacency_matrix) by (done || by rewrite Ha1). reflexivity.
Qed.

Lemma reveal_square_correct (fuel : nat) (auto_reveal : bool) (r : ndarray Z) :
  reveal_square set_order take flagged adjacency_matrix revealed fuel seed.1 seed.2 auto_reveal
  = Ok r →
  marks sh r (flood flagged adjacency_matrix revealed seed auto_reveal).
Proof.
  rewrite reveal_square_unfold. unfold flood.
  destruct (negb auto_reveal && truthy (cell adjacency_matrix seed)).
  - intros [= <-]. apply marks_seed_only.
  - apply reveal_loop_correct, flood_inv_init.
Qed.

Lemma reveal_square_terminates (auto_reveal : bool) :
  ∃ fuel r,
    reveal_square set_order take flagged adjacency_matrix revealed fuel seed.1 seed.2 auto_reveal
    = Ok r.
Proof.
  destruct (reveal_loop_terminates _ _ _ flood_inv_init) as (fuel & r & H).
  destruct (negb auto_reveal && truthy (cell adjacency_matrix seed)) eqn:E.
  - exists 0%nat, (mark (np_zeros sh) seed). by rewrite reveal_square_unfold, E.
  - exists fuel, r. by rewrite reveal_square_unfold, E.
Qed.

Lemma reveal_square_more_fuel (fuel fuel' : nat) (auto_reveal : bool) (r : ndarray Z) :
  (fuel ≤ fuel')%nat →
  reveal_square set_order take flagged adjacency_matrix revealed fuel seed.1 seed.2 auto_reveal
  = Ok r →
  reveal_square set_order take flagged adjacency_matrix revealed fuel' seed.1 seed.2 auto_reveal
  = Ok r.
Proof.
  intros Hle. rewrite !reveal_square_unfold.
  destruct (negb auto_reveal && truthy (cell adjacency_matrix seed)); [done|].
  by apply reveal_loop_more_fuel.
Qed.

End worklist.
End reveal_facts.

(** ** The two work-list disciplines *)

Lemma list_pop_None (l : list (Z * Z)) : list_pop l = None → l = [].
Proof.
  unfold list_pop. destruct (reverse l) eqn:E; [|discriminate].
  intros _. apply (f_equal reverse) in E. by rewrite reverse_involutive in E.
Qed.

Lemma list_pop_view (l : list (Z * Z)) (x : Z * Z) (r : list (Z * Z)) :
  list_pop l = Some (x, r) → reverse l = x :: reverse r.
Proof.
  unfold list_pop. destruct (reverse l) as [|y k] eqn:E; [discriminate|].
  intros [= -> <-]. by rewrite reverse_involutive.
Qed.

Lemma list_pop_leading (checked : gset (Z * Z)) (r new : list (Z * Z)) :
  (∀ y, y ∈ new → y ∉ checked) →
  (leading checked (reverse (r ++ new)) ≤ leading checked (reverse r))%nat.
Proof.
  intros Hnew. rewrite reverse_app.
  destruct (reverse new) as [|y k] eqn:E; [done|].
  simpl. rewrite decide_False; [lia|].
  apply Hnew, elem_of_reverse. rewrite E. by left.
Qed.

Lemma queue_pop_None (l : list (Z * Z)) : queue_pop l = None → l = [].
Proof. by destruct l. Qed.

Lemma queue_pop_view (l : list (Z * Z)) (x : Z * Z) (r : list (Z * Z)) :
  queue_pop l = Some (x, r) → id l = x :: id r.
Proof. destruct l; [discriminate|]. by intros [= -> ->]. Qed.

Lemma queue_pop_leading (checked : gset (Z * Z)) (r new : list (Z * Z)) :
  (∀ y, y ∈ new → y ∉ checked) →
  (leading checked (id (r ++ new)) ≤ leading checked (id r))%nat.
Proof.
  intros Hnew. unfold id. induction r as [|x r IH]; simpl.
  - destruct new as [|y k]; [done|]. simpl. rewrite decide_False; [done|].
    apply Hnew. by left.
  - destruct (decide (x ∈ checked)); lia.
Qed.

(** ** Arrays are determined by their cells *)

Lemma flat_offset_surj (sh : nat * nat) (i : nat) :
  (i < size_of sh)%nat → ∃ q, in_bounds sh q ∧ flat_offset sh q = i.
Proof.
  intros Hi. unfold size_of in Hi.
  assert (0 < sh.2)%nat as Hpos by nia.
  exists (Z.of_nat (i / sh.2), Z.of_nat (i mod sh.2)).
  pose proof (Nat.div_mod_eq i sh.2) as Hdm.
  pose proof (Nat.mod_upper_bound i sh.2) as Hmod.
  assert (i / sh.2 < sh.1)%nat as Hdiv by (apply Nat.Div0.div_lt_upper_bound; lia).
  unfold in_bounds, flat_offset. simpl. split; [lia|]. nia.
Qed.

Lemma ndarray_eq (sh : nat * nat) (a b : ndarray Z) :
  grid_of sh a → grid_of sh b →
  (∀ q, in_bounds sh q → cell a q = cell b q) →
  a = b.
Proof.
  destruct a as [sa da], b as [sb db]. unfold grid_of, well_formed, cell. simpl.
  intros [-> Ha] [-> Hb] Hcell. f_equal.
  apply list_eq. intros i.
  destruct (decide (i < size_of sh)%nat) as [Hi|Hi].
  - destruct (flat_offset_surj sh i Hi) as (q & Hq & <-).
    specialize (Hcell q Hq).
    destruct (da !! flat_offset sh q) eqn:Ea, (db !! flat_offset sh q) eqn:Eb; simpl in *;
      try congruence.
    + apply lookup_ge_None in Eb. lia.
    + apply lookup_ge_None in Ea. lia.
  - rewrite !(proj2 (lookup_ge_None _ _)) by lia. done.
Qed.

Lemma marks_unique (sh : nat * nat) (a b : ndarray Z) (S : Z * Z → Prop) :
  marks sh a S → marks sh b S → a = b.
Proof.
  intros (Ha & Hba & HSa) (Hb & Hbb & HSb). apply (ndarray_eq sh); [done..|].
  intros q Hq. specialize (HSa q Hq). specialize (HSb q Hq).
  destruct (binary_cell a q Hba) as [E1|E1], (binary_cell b q Hbb) as [E2|E2];
    rewrite ?E1, ?E2 in *; intuition congruence.
Qed.

(** C7. The set of cells the flood fill marks does not depend on how the
    work list is handled: taken from the end, as the code does, or from
    the front, it returns, and returns the same update grid, which marks
    exactly the cells reachable from the seed under the gating rule (the
    seed alone for a pick that is no chord on a cell with a nonzero
    adjacency value).  Nor does it depend on the order in which the
    neighbours of a cell are enumerated. *)
Theorem flood_fill_order_independent (set_order : gset (Z * Z) → list (Z * Z))
    (flagged adjacency_matrix revealed : ndarray Z) (sh : nat * nat)
    (row_idx col_idx : Z) (auto_reveal : bool) :
  (∀ s, set_order s ≡ₚ elements s) →
  grid_of sh flagged → binary flagged →
  grid_of sh adjacency_matrix → grid_of sh revealed →
  in_bounds sh (row_idx, col_idx) →
  ∃ r,
    marks sh r (flood flagged adjacency_matrix revealed (row_idx, col_idx) auto_reveal) ∧
    (∃ fuel, ∀ fuel', (fuel ≤ fuel')%nat →
       reveal_square set_order list_pop flagged adjacency_matrix revealed
         fuel' row_idx col_idx auto_reveal = Ok r ∧
       reveal_square set_order queue_pop flagged adjacency_matrix revealed
         fuel' row_idx col_idx auto_reveal = Ok r) ∧
    (∀ fuel r',
       reveal_square set_order list_pop flagged adjacency_matrix revealed
         fuel row_idx col_idx auto_reveal = Ok r' ∨
       reveal_square set_order queue_pop flagged adjacency_matrix revealed
         fuel row_idx col_idx auto_reveal = Ok r' →
       r' = r).
Proof.
  intros Hso Hf Hfb Ha Hr Hseed.
  pose proof (λ fuel r, reveal_square_correct set_order Hso flagged adjacency_matrix revealed sh
                Hf Hfb Ha Hr list_pop reverse list_pop_None list_pop_view
                reverse_Permutation (row_idx, col_idx) Hseed
                fuel auto_reveal r) as Hlifo.
  pose proof (λ fuel r, reveal_square_correct set_order Hso flagged adjacency_matrix revealed sh
                Hf Hfb Ha Hr queue_pop id queue_pop_None queue_pop_view
                (λ l, reflexivity l) (row_idx, col_idx) Hseed
                fuel auto_reveal r) as Hfifo.
  destruct (reveal_square_terminates set_order Hso flagged adjacency_matrix revealed sh
              Hf Hfb Ha Hr list_pop reverse list_pop_view
              reverse_Permutation list_pop_leading (row_idx, col_idx) Hseed auto_reveal)
    as (n1 & r1 & H1).
  destruct (reveal_square_terminates set_order Hso flagged adjacency_matrix revealed sh
              Hf Hfb Ha Hr queue_pop id queue_pop_view
              (λ l, reflexivity l) queue_pop_leading (row_idx, col_idx) Hseed auto_reveal)
    as (n2 & r2 & H2).
  simpl in *.
  pose proof (Hlifo _ _ H1) as Hm1. pose proof (Hfifo _ _ H2) as Hm2.
  assert (r2 = r1) as -> by (eapply marks_unique; eauto).
  exists r1. split_and!; [done| |].
  - exists (n1 `max` n2)%nat. intros fuel Hfuel. split.
    + eapply (reveal_square_more_fuel set_order flagged adjacency_matrix revealed sh
                Hf Ha list_pop (row_idx, col_idx) Hseed n1); [lia|done].
    + eapply (reveal_square_more_fuel set_order flagged adjacency_matrix revealed sh
                Hf Ha queue_pop (row_idx, col_idx) Hseed n2); [lia|done].
  - intros fuel r' [H|H]; eapply marks_unique; eauto.
Qed.

Lemma elements_order (s : gset (Z * Z)) : elements s ≡ₚ elements s.
Proof. reflexivity. Qed.

Lemma blank_3x3_grid : grid_of (3%nat, 3%nat) blank_3x3 ∧ binary blank_3x3.
Proof.
  split; [by split|]. unfold binary. simpl.
  repeat (apply Forall_cons_2; [lia|]). apply Forall_nil_2.
Qed.

Lemma adjacency_3x3_grid : grid_of (3%nat, 3%nat) adjacency_3x3.
Proof. by split. Qed.

Lemma flood_fill_3x3_stack :
  reveal_square elements list_pop blank_3x3 adjacency_3x3 blank_3x3 20 0 0 false
  = Ok (mk_ndarray (3%nat, 3%nat) [1; 1; 1; 1; 1; 1; 1; 1; 0]).
Proof. vm_compute. reflexivity. Qed.

Lemma flood_fill_3x3_queue :
  reveal_square elements queue_pop blank_3x3 adjacency_3x3 blank_3x3 20 0 0 false
  = Ok (mk_ndarray (3%nat, 3%nat) [1; 1; 1; 1; 1; 1; 1; 1; 0]).
Proof. vm_compute. reflexivity. Qed.

Lemma flood_fill_order_independent_witness :
  ∃ r,
    marks (3%nat, 3%nat) r (flood blank_3x3 adjacency_3x3 blank_3x3 (0, 0) false) ∧
    (∃ fuel, ∀ fuel', (fuel ≤ fuel')%nat →
       reveal_square elements list_pop blank_3x3 adjacency_3x3 blank_3x3 fuel' 0 0 false
       = Ok r ∧
       reveal_square elements queue_pop blank_3x3 adjacency_3x3 blank_3x3 fuel' 0 0 false
       = Ok r) ∧
    (∀ fuel r',
       reveal_square elements list_pop blank_3x3 adjacency_3x3 blank_3x3 fuel 0 0 false
       = Ok r' ∨
       reveal_square elements queue_pop blank_3x3 adjacency_3x3 blank_3x3 fuel 0 0 false
       = Ok r' →
       r' = r).
Proof.
  apply (flood_fill_order_independent elements blank_3x3 adjacency_3x3 blank_3x3
           (3%nat, 3%nat) 0 0 false elements_order
           (proj1 blank_3x3_grid) (proj2 blank_3x3_grid) adjacency_3x3_grid
           (proj1 blank_3x3_grid)).
  unfold in_bounds. simpl. lia.
Defined.

(** C7, counterexample.  On a 1x3 board with the left cell flagged, a
    plain pick on the middle cell, whose adjacency value 1 is matched by
    the flag, marks the middle cell alone, although the right cell is
    reachable from it under the gating rule; the chord pick marks
    both. *)
Lemma flood_fill_not_closure_without_chord :
  reveal_square elements list_pop flagged_1x3 adjacency_1x3 blank_1x3 20 0 1 false
  = Ok (mk_ndarray (1%nat, 3%nat) [0; 1; 0]) ∧
  reveal_square elements queue_pop flagged_1x3 adjacency_1x3 blank_1x3 20 0 1 false
  = Ok (mk_ndarray (1%nat, 3%nat) [0; 1; 0]) ∧
  reach flagged_1x3 adjacency_1x3 blank_1x3 (0, 1) (0, 2) ∧
  reveal_square elements list_pop flagged_1x3 adjacency_1x3 blank_1x3 20 0 1 true
  = Ok (mk_ndarray (1%nat, 3%nat) [0; 1; 1]).
Proof.
  split_and!; [vm_compute; reflexivity..| |vm_compute; reflexivity].
  eapply (reach_step _ _ _ _ (0, 1)); [constructor|..].
  - unfold gate_open. vm_compute. discriminate.
  - apply elem_of_neighbourhood. unfold in_bounds. simpl. lia.
  - by split.
Qed.

(** * Picking: what holds for every index *)

Lemma np_zip_Ok {A B C : Type} (f : A → B → C) (a : ndarray A) (b : ndarray B)
    (c : ndarray C) :
  np_zip f a b = Ok c →
  shape a = shape b ∧ c = mk_ndarray (shape a) (zip_with f (data a) (data b)).
Proof. unfold np_zip. case_bool_decide; [|discriminate]. by intros [= <-]. Qed.

Lemma np_set_Ok {A : Type} (a b : ndarray A) (p : Z * Z) (v : A) :
  np_set a p v = Ok b → ∃ k, b = mk_ndarray (shape a) (<[k:=v]> (data a)).
Proof.
  unfold np_set. destruct (np_offset (shape a) p) as [k|]; [|discriminate].
  case_bool_decide; [|discriminate]. intros [= <-]. eauto.
Qed.

Lemma np_get_Ok {A : Type} (a : ndarray A) (p : Z * Z) (v : A) :
  np_get a p = Ok v → ∃ k, np_offset (shape a) p = Some k ∧ data a !! k = Some v.
Proof.
  unfold np_get. destruct (np_offset (shape a) p) as [k|]; [|discriminate].
  destruct (data a !! k) eqn:E; [|discriminate]. intros [= <-]. eauto.
Qed.

Lemma reveal_loop_shape (set_order : gset (Z * Z) → list (Z * Z))
    (take : list (Z * Z) → option (Z * Z * list (Z * Z)))
    (flagged adjacency_matrix revealed : ndarray Z) (sh : nat * nat) (fuel : nat)
    (to_check : list (Z * Z)) (already_checked : gset (Z * Z)) (update_matrix r : ndarray Z) :
  reveal_loop set_order take flagged adjacency_matrix revealed fuel
    to_check already_checked update_matrix = Ok r →
  grid_of sh update_matrix → binary update_matrix →
  grid_of sh r ∧ binary r.
Proof.
  revert to_check already_checked update_matrix.
  induction fuel as [|fuel IH]; intros to_check already_checked update_matrix H Hg Hb;
    simpl in H; destruct (take to_check) as [[x rest]|]; try discriminate.
  - by injection H as <-.
  - inv_bind H. apply np_set_Ok in Hx2 as [k ->].
    eapply IH; [exact H|by apply grid_of_insert|apply binary_insert; auto].
  - by injection H as <-.
Qed.

Lemma reveal_square_shape (set_order : gset (Z * Z) → list (Z * Z))
    (take : list (Z * Z) → option (Z * Z * list (Z * Z)))
    (flagged adjacency_matrix revealed : ndarray Z) (fuel : nat)
    (row_idx col_idx : Z) (auto_reveal : bool) (r : ndarray Z) :
  reveal_square set_order take flagged adjacency_matrix revealed fuel
    row_idx col_idx auto_reveal = Ok r →
  grid_of (shape flagged) r ∧ binary r.
Proof.
  intros H. unfold reveal_square in H. inv_bind H.
  destruct (np_zeros_grid (shape flagged)) as [Hg Hb].
  apply np_set_Ok in Hx as [k ->].
  assert (grid_of (shape flagged)
            (mk_ndarray (shape (np_zeros (shape flagged)))
               (<[k:=1]> (data (np_zeros (shape flagged))))) ∧
          binary (mk_ndarray (shape (np_zeros (shape flagged)))
                    (<[k:=1]> (data (np_zeros (shape flagged)))))) as [Hg' Hb'].
  { split; [by apply grid_of_insert|apply binary_insert; auto]. }
  destruct x0.
  - by injection H as <-.
  - eapply reveal_loop_shape; eauto.
Qed.

Lemma generate_adjacency_matrix_grid (mines : ndarray Z) :
  grid_of (shape mines) (generate_adjacency_matrix mines).
Proof.
  unfold grid_of, well_formed, generate_adjacency_matrix, ndimage_convolve, np_tabulate.
  simpl. by rewrite length_fmap, length_seq.
Qed.

Lemma _initialize_wf (rs : random_source) (f f1 : Field) (fuel : nat) (row_idx col_idx : Z) :
  fair_shuffle rs → wf_field f →
  _initialize fuel rs f row_idx col_idx = Ok f1 →
  wf_field f1 ∧ initialized f1 = true ∧ rows f1 = rows f ∧ cols f1 = cols f ∧
  _revealed f1 = _revealed f ∧ _flagged f1 = _flagged f.
Proof.
  intros Hfair (Hr & Hrb & Hf & Hfb & _) H.
  apply _initialize_Ok in H as (mines & -> & (Hsh & Hwf & Hb & _) & _); [|done].
  unfold wf_field. simpl. split_and!; try done.
  rewrite <- Hsh. apply generate_adjacency_matrix_grid.
Qed.

Lemma cell_zip_with (f : Z → Z → Z) (a b : ndarray Z) (q : Z * Z) :
  f 0 0 = 0 → shape a = shape b → length (data a) = length (data b) →
  cell (mk_ndarray (shape a) (zip_with f (data a) (data b))) q = f (cell a q) (cell b q).
Proof.
  intros Hf Hsh Hlen. unfold cell. simpl. rewrite lookup_zip_with, <- Hsh.
  destruct (data a !! flat_offset (shape a) q) as [x|] eqn:Ea,
           (data b !! flat_offset (shape a) q) as [y|] eqn:Eb; simpl; try done.
  - apply lookup_ge_None in Eb. apply lookup_lt_Some in Ea. lia.
  - apply lookup_ge_None in Ea. apply lookup_lt_Some in Eb. lia.
Qed.

Lemma zip_with_grid (f : Z → Z → Z) (sh : nat * nat) (a b : ndarray Z) :
  grid_of sh a → grid_of sh b →
  grid_of sh (mk_ndarray (shape a) (zip_with f (data a) (data b))).
Proof.
  intros [Ha1 Ha2] [Hb1 Hb2]. unfold grid_of, well_formed in *. simpl.
  rewrite length_zip_with. split; [done|]. rewrite Ha1 in *. rewrite Hb1 in *. lia.
Qed.

Lemma zip_with_lor_binary (a b : ndarray Z) :
  binary a → binary b → binary (mk_ndarray (shape a) (zip_with Z.lor (data a) (data b))).
Proof.
  unfold binary. simpl. intros Ha Hb. apply Forall_lookup. intros i v.
  rewrite lookup_zip_with. intros Hv.
  destruct (data a !! i) as [x|] eqn:Ex; [|done]. simpl in Hv.
  destruct (data b !! i) as [y|] eqn:Ey; [|done]. simpl in Hv. injection Hv as <-.
  destruct (proj1 (Forall_lookup _ _) Ha _ _ Ex) as [-> | ->],
           (proj1 (Forall_lookup _ _) Hb _ _ Ey) as [-> | ->]; auto.
Qed.

(** A pick that returns leaves a well-formed field with the same flags,
    the same dimensions, and every cell revealed before still revealed,
    wherever it was aimed. *)
Lemma pick_square_frame (set_order : gset (Z * Z) → list (Z * Z)) (fuel : nat)
    (rs : random_source) (f f2 : Field) (row_idx col_idx : Z) (auto_reveal alive : bool) :
  fair_shuffle rs → wf_field f →
  pick_square set_order fuel rs f row_idx col_idx auto_reveal = Ok (alive, f2) →
  wf_field f2 ∧ initialized f2 = true ∧ rows f2 = rows f ∧ cols f2 = cols f ∧
  _flagged f2 = _flagged f ∧
  (initialized f = true → _mines f2 = _mines f ∧ _adjacency_matrix f2 = _adjacency_matrix f) ∧
  (∀ q, cell (_revealed f) q ≠ 0 → cell (_revealed f2) q ≠ 0).
Proof.
  intros Hfair Hwf H.
  apply pick_square_Ok in H
    as (f1 & adj & mines & upd & revealed & hit & H1 & Ha & Hm & Hrev & Hor & -> & _ & _).
  assert (wf_field f1 ∧ initialized f1 = true ∧ rows f1 = rows f ∧ cols f1 = cols f ∧
          _revealed f1 = _revealed f ∧ _flagged f1 = _flagged f ∧
          (initialized f = true → f1 = f)) as (Hwf1 & Hi1 & Hrows & Hcols & Hr1 & Hf1 & Hsame).
  { destruct (initialized f) eqn:Ei.
    - injection H1 as <-. by split_and!.
    - apply _initialize_wf in H1 as (? & ? & ? & ? & ? & ?); [|done..]. by split_and!. }
  destruct Hwf1 as (Hr & Hrb & Hf & Hfb & Hma).
  apply reveal_square_shape in Hrev as [Hug Hub]. rewrite (proj1 Hf) in Hug.
  apply np_zip_Ok in Hor as [Hsh ->].
  rewrite Hm, Ha in Hma. destruct Hma as (Hmg & Hmb & Hag).
  split_and!; [|done..| |].
  - unfold wf_field. simpl. rewrite Ha, Hm.
    split_and!; [by apply zip_with_grid|by apply zip_with_lor_binary|done..].
  - intros Hi. by rewrite (Hsame Hi).
  - intros q Hq. simpl. rewrite cell_zip_with; [|done..|].
    + rewrite Hr1. intros [E _]%Z.lor_eq_0_iff. done.
    + destruct Hr as [_ Hr], Hug as [_ Hug]. unfold well_formed in *.
      by rewrite Hr, Hug, Hsh.
Qed.

(** * Picking inside the grid *)

Lemma np_any_cell (sh : nat * nat) (a : ndarray Z) :
  grid_of sh a → (np_any a = true ↔ ∃ q, in_bounds sh q ∧ cell a q ≠ 0).
Proof.
  intros [Hsh Hwf]. unfold np_any. rewrite existsb_exists. split.
  - intros (x & Hx & Ht). apply list_elem_of_In, list_elem_of_lookup in Hx as [i Hi].
    destruct (flat_offset_surj sh i) as (q & Hq & Hoff).
    { apply lookup_lt_Some in Hi. unfold well_formed in Hwf. by rewrite Hwf, Hsh in Hi. }
    exists q. split; [done|]. unfold cell. rewrite Hsh, Hoff, Hi. simpl.
    by apply truthy_true.
  - intros (q & Hq & Hc). unfold cell in Hc.
    destruct (data a !! flat_offset (shape a) q) as [x|] eqn:E; [|done].
    exists x. split; [|by apply truthy_true].
    apply list_elem_of_In. by eapply list_elem_of_lookup_2.
Qed.

Lemma pick_square_in_bounds (set_order : gset (Z * Z) → list (Z * Z)) (fuel : nat)
    (rs : random_source) (f f2 : Field) (row_idx col_idx : Z) (auto_reveal alive : bool) :
  (∀ s, set_order s ≡ₚ elements s) → fair_shuffle rs → wf_field f →
  in_bounds (rows f, cols f) (row_idx, col_idx) →
  pick_square set_order fuel rs f row_idx col_idx auto_reveal = Ok (alive, f2) →
  ∃ f1 adj mines upd,
    (if initialized f then Ok f else _initialize fuel rs f row_idx col_idx) = Ok f1 ∧
    wf_field f1 ∧ rows f1 = rows f ∧ cols f1 = cols f ∧
    _revealed f1 = _revealed f ∧ _flagged f1 = _flagged f ∧
    _adjacency_matrix f1 = Some adj ∧ _mines f1 = Some mines ∧
    grid_of (rows f, cols f) mines ∧ grid_of (rows f, cols f) adj ∧
    reveal_square set_order list_pop (_flagged f) adj (_revealed f)
      fuel row_idx col_idx auto_reveal = Ok upd ∧
    marks (rows f, cols f) upd
      (flood (_flagged f) adj (_revealed f) (row_idx, col_idx) auto_reveal) ∧
    f2 = set_revealed f1
           (mk_ndarray (shape (_revealed f)) (zip_with Z.lor (data (_revealed f)) (data upd))) ∧
    alive = negb (np_any (mk_ndarray (shape mines)
                            (zip_with Z.mul (data mines)
                               (zip_with Z.lor (data (_revealed f)) (data upd))))).
Proof.
  intros Hso Hfair Hwf Hp H.
  apply pick_square_Ok in H
    as (f1 & adj & mines & upd & revealed & hit & H1 & Ha & Hm & Hrev & Hor & -> & Hmul & ->).
  assert (wf_field f1 ∧ rows f1 = rows f ∧ cols f1 = cols f ∧
          _revealed f1 = _revealed f ∧ _flagged f1 = _flagged f)
    as (Hwf1 & Hrows & Hcols & Hr1 & Hf1).
  { destruct (initialized f) eqn:Ei.
    - injection H1 as <-. by split_and!.
    - apply _initialize_wf in H1 as (? & ? & ? & ? & ? & ?); [|done..]. by split_and!. }
  pose proof Hwf1 as (Hr & Hrb & Hf & Hfb & Hma).
  rewrite Hm, Ha, Hrows, Hcols in Hma. destruct Hma as (Hmg & Hmb & Hag).
  rewrite Hrows, Hcols, ?Hr1, ?Hf1 in *.
  apply np_zip_Ok in Hor as [Hsh ->]. apply np_zip_Ok in Hmul as [Hsh' ->].
  exists f1, adj, mines, upd. split_and!; try done.
  apply (reveal_square_correct set_order Hso (_flagged f) adj (_revealed f) (rows f, cols f)
           Hf Hfb Hag Hr list_pop reverse list_pop_None list_pop_view
           reverse_Permutation (row_idx, col_idx) Hp fuel auto_reveal upd Hrev).
Qed.

Lemma pick_square_returns (set_order : gset (Z * Z) → list (Z * Z))
    (rs : random_source) (f : Field) (row_idx col_idx : Z) (auto_reveal : bool) :
  (∀ s, set_order s ≡ₚ elements s) → wf_field f → initialized f = true →
  in_bounds (rows f, cols f) (row_idx, col_idx) →
  ∃ fuel alive f2, ∀ fuel', (fuel ≤ fuel')%nat →
    pick_square set_order fuel' rs f row_idx col_idx auto_reveal = Ok (alive, f2).
Proof.
  intros Hso Hwf Hi Hp. pose proof Hwf as (Hr & Hrb & Hf & Hfb & Hma).
  unfold initialized in Hi. apply andb_true_iff in Hi as [Ha Hm].
  apply bool_decide_eq_true in Ha, Hm.
  destruct (_mines f) as [mines|] eqn:Em; [|done].
  destruct (_adjacency_matrix f) as [adj|] eqn:Ea; [|done].
  destruct Hma as (Hmg & Hmb & Hag).
  destruct (reveal_square_terminates set_order Hso (_flagged f) adj (_revealed f)
              (rows f, cols f) Hf Hfb Hag Hr list_pop reverse list_pop_view
              reverse_Permutation list_pop_leading (row_idx, col_idx) Hp auto_reveal)
    as (fuel & upd & Hrev).
  pose proof (reveal_square_shape _ _ _ _ _ _ _ _ _ _ Hrev) as [[Hu1 Hu2] _].
  eexists fuel, _, _. intros fuel' Hfuel.
  unfold pick_square, initialized. rewrite Em, Ea. simpl. rewrite Em, Ea.
  pose proof (reveal_square_more_fuel set_order (_flagged f) adj (_revealed f) (rows f, cols f)
                Hf Hag list_pop (row_idx, col_idx) Hp fuel fuel' auto_reveal upd Hfuel Hrev)
    as Hmore.
  simpl in Hmore. rewrite Hmore.
  simpl. unfold np_zip. rewrite bool_decide_eq_true_2 by (by rewrite Hu1, (proj1 Hr), (proj1 Hf)).
  simpl. rewrite bool_decide_eq_true_2 by (by rewrite (proj1 Hmg), (proj1 Hr)).
  reflexivity.
Qed.

(** What an in-bounds pick that returns has done: the update grid of the
    flood fill is OR-ed into [revealed], and the returned value tells
    whether a mined cell is revealed now. *)
Lemma pick_square_outcome (set_order : gset (Z * Z) → list (Z * Z)) (fuel : nat)
    (rs : random_source) (f f2 : Field) (row_idx col_idx : Z) (auto_reveal alive : bool) :
  (∀ s, set_order s ≡ₚ elements s) → fair_shuffle rs → wf_field f →
  in_bounds (rows f, cols f) (row_idx, col_idx) →
  pick_square set_order fuel rs f row_idx col_idx auto_reveal = Ok (alive, f2) →
  ∃ mines adj upd,
    _mines f2 = Some mines ∧ _adjacency_matrix f2 = Some adj ∧
    marks (rows f, cols f) upd
      (flood (_flagged f) adj (_revealed f) (row_idx, col_idx) auto_reveal) ∧
    (∀ q, cell (_revealed f2) q = Z.lor (cell (_revealed f) q) (cell upd q)) ∧
    (alive = false ↔
     ∃ q, in_bounds (rows f, cols f) q ∧ cell mines q ≠ 0 ∧ cell (_revealed f2) q ≠ 0).
Proof.
  intros Hso Hfair Hwf Hp H.
  apply pick_square_in_bounds in H
    as (f1 & adj & mines & upd & _ & Hwf1 & Hrows & Hcols & Hr1 & Hf1 & Ha & Hm & Hmg & Hag &
        _ & Hmarks & -> & ->); [|done..].
  destruct Hwf as (Hr & Hrb & _).
  set (rev2 := mk_ndarray (shape (_revealed f))
                 (zip_with Z.lor (data (_revealed f)) (data upd))).
  assert (grid_of (rows f, cols f) rev2) as Hg2.
  { apply zip_with_grid; [done|apply Hmarks]. }
  assert (∀ q, cell rev2 q = Z.lor (cell (_revealed f) q) (cell upd q)) as Hcell.
  { intros q. apply cell_zip_with; [done|..].
    - by rewrite (proj1 Hr), (proj1 (proj1 Hmarks)).
    - destruct Hr as [Hr1' Hr2'], Hmarks as [[Hu1 Hu2] _]. unfold well_formed in *.
      by rewrite Hr2', Hu2, Hr1', Hu1. }
  assert (∀ q, cell (mk_ndarray (shape mines) (zip_with Z.mul (data mines) (data rev2))) q
               = cell mines q * cell rev2 q) as Hhit.
  { intros q. apply (cell_zip_with Z.mul mines rev2); [done|..].
    - by rewrite (proj1 Hmg), (proj1 Hg2).
    - destruct Hmg as [Hm1 Hm2], Hg2 as [Hg1' Hg2']. unfold well_formed in *.
      by rewrite Hm2, Hg2', Hm1, Hg1'. }
  assert (negb (np_any (mk_ndarray (shape mines)
                          (zip_with Z.mul (data mines) (data rev2)))) = false ↔
          ∃ q, in_bounds (rows f, cols f) q ∧ cell mines q ≠ 0 ∧ cell rev2 q ≠ 0) as Hiff.
  { rewrite negb_false_iff, (np_any_cell (rows f, cols f)) by (by apply zip_with_grid).
    split; intros (q & Hq & Hc); exists q; (split; [done|]); rewrite Hhit in *; nia. }
  exists mines, adj, upd. simpl. by split_and!.
Qed.

(** C5. An in-bounds pick returns [False] exactly when, after the update
    set of the flood fill has been OR-ed into [revealed], some cell is
    both mined and revealed, and [True] otherwise; a mined cell in the
    update set is marked revealed like any other and makes the pick
    return [False].  On an initialized field the pick does return. *)
Theorem pick_square_false_iff_mine_revealed (set_order : gset (Z * Z) → list (Z * Z))
    (rs : random_source) (f : Field) (row_idx col_idx : Z) (auto_reveal : bool) :
  (∀ s, set_order s ≡ₚ elements s) → fair_shuffle rs → wf_field f →
  in_bounds (rows f, cols f) (row_idx, col_idx) →
  (∀ fuel alive f2,
     pick_square set_order fuel rs f row_idx col_idx auto_reveal = Ok (alive, f2) →
     ∃ mines adj upd,
       _mines f2 = Some mines ∧ _adjacency_matrix f2 = Some adj ∧
       marks (rows f, cols f) upd
         (flood (_flagged f) adj (_revealed f) (row_idx, col_idx) auto_reveal) ∧
       (∀ q, in_bounds (rows f, cols f) q →
             cell (_revealed f2) q = Z.lor (cell (_revealed f) q) (cell upd q)) ∧
       (alive = false ↔
        ∃ q, in_bounds (rows f, cols f) q ∧ cell mines q ≠ 0 ∧ cell (_revealed f2) q ≠ 0) ∧
       (∀ q, in_bounds (rows f, cols f) q → cell upd q = 1 → cell mines q ≠ 0 →
             cell (_revealed f2) q = 1 ∧ alive = false)) ∧
  (initialized f = true →
   ∃ fuel alive f2,
     pick_square set_order fuel rs f row_idx col_idx auto_reveal = Ok (alive, f2)).
Proof.
  intros Hso Hfair Hwf Hp. split.
  - intros fuel alive f2 H.
    destruct (pick_square_outcome _ _ _ _ _ _ _ _ _ Hso Hfair Hwf Hp H)
      as (mines & adj & upd & Hm & Ha & Hmarks & Hor & Hiff).
    exists mines, adj, upd. split_and!; [done..|auto|done|].
    intros q Hq Hu Hmine.
    assert (cell (_revealed f2) q = 1) as Hone.
    { rewrite Hor, Hu. destruct Hwf as (_ & Hrb & _).
      destruct (binary_cell (_revealed f) q Hrb) as [-> | ->]; done. }
    split; [done|]. apply Hiff. exists q. split_and!; [done..|lia].
  - intros Hi.
    destruct (pick_square_returns set_order rs f row_idx col_idx auto_reveal Hso Hwf Hi Hp)
      as (fuel & alive & f2 & H).
    exists fuel, alive, f2. by apply H.
Qed.

Lemma field_2x2_mined_wf : wf_field field_2x2_mined.
Proof.
  unfold wf_field, grid_of, well_formed, binary. simpl.
  split_and!; try done; repeat (apply Forall_cons_2; [lia|]); apply Forall_nil_2.
Qed.

Lemma pick_square_2x2_mine :
  pick_square elements 5 rs_reverse field_2x2_mined 0 1 false
  = Ok (false, set_revealed field_2x2_mined (mk_ndarray (2%nat, 2%nat) [0; 1; 0; 0])).
Proof. vm_compute. reflexivity. Qed.

Lemma pick_square_false_iff_mine_revealed_witness :
  ∃ mines adj upd,
    _mines field_2x2_mined = Some mines ∧ _adjacency_matrix field_2x2_mined = Some adj ∧
    marks (2%nat, 2%nat) upd (flood (np_zeros (2%nat, 2%nat)) adj (np_zeros (2%nat, 2%nat))
                                (0, 1) false) ∧
    (false = false ↔
     ∃ q, in_bounds (2%nat, 2%nat) q ∧ cell mines q ≠ 0 ∧
          cell (mk_ndarray (2%nat, 2%nat) [0; 1; 0; 0]) q ≠ 0).
Proof.
  destruct (proj1 (pick_square_false_iff_mine_revealed elements rs_reverse field_2x2_mined
                     0 1 false elements_order rs_reverse_fair field_2x2_mined_wf
                     (conj (conj (Z.le_refl 0) eq_refl) (conj (Z.le_0_1) eq_refl)))
             5%nat false _ pick_square_2x2_mine)
    as (mines & adj & upd & Hm & Ha & Hmarks & _ & Hiff & _).
  exists mines, adj, upd. by split_and!.
Defined.

(** * Picking twice *)

Lemma mark_mark (a : ndarray Z) (x : Z * Z) : mark (mark a x) x = mark a x.
Proof. unfold mark. simpl. by rewrite list_insert_insert_eq. Qed.

Lemma flood_seed (flagged adjacency_matrix revealed : ndarray Z) (seed : Z * Z)
    (auto_reveal : bool) :
  flood flagged adjacency_matrix revealed seed auto_reveal seed.
Proof.
  unfold flood. destruct (negb auto_reveal && truthy (cell adjacency_matrix seed));
    [done|constructor].
Qed.

(** After a flood fill has been OR-ed into [revealed], the same flood
    fill marks the seed alone, which is revealed already. *)
Lemma reveal_square_again (set_order : gset (Z * Z) → list (Z * Z))
    (flagged adjacency_matrix revealed upd : ndarray Z) (sh : nat * nat)
    (seed : Z * Z) (auto_reveal : bool) (fuel : nat) :
  (∀ s, set_order s ≡ₚ elements s) →
  grid_of sh flagged → binary flagged → grid_of sh adjacency_matrix →
  grid_of sh revealed → binary revealed → in_bounds sh seed →
  reveal_square set_order list_pop flagged adjacency_matrix revealed
    fuel seed.1 seed.2 auto_reveal = Ok upd →
  let revealed1 :=
    mk_ndarray (shape revealed) (zip_with Z.lor (data revealed) (data upd)) in
  reveal_square set_order list_pop flagged adjacency_matrix revealed1
    fuel seed.1 seed.2 auto_reveal = Ok (mark (np_zeros sh) seed) ∧
  mk_ndarray (shape revealed1)
    (zip_with Z.lor (data revealed1) (data (mark (np_zeros sh) seed))) = revealed1.
Proof.
  intros Hso Hf Hfb Ha Hr Hrb Hseed Hrev revealed1.
  pose proof (reveal_square_correct set_order Hso flagged adjacency_matrix revealed sh
                Hf Hfb Ha Hr list_pop reverse list_pop_None list_pop_view
                reverse_Permutation seed Hseed fuel auto_reveal upd Hrev)
    as (Hug & Hub & Hmarks).
  assert (grid_of sh revealed1) as Hr1 by (by apply zip_with_grid).
  assert (binary revealed1) as Hrb1 by (by apply zip_with_lor_binary).
  assert (∀ q, cell revealed1 q = Z.lor (cell revealed q) (cell upd q)) as Hcell.
  { intros q. apply cell_zip_with; [done|..].
    - by rewrite (proj1 Hr), (proj1 Hug).
    - destruct Hr as [Hr1' Hr2'], Hug as [Hu1 Hu2]. unfold well_formed in *.
      by rewrite Hr2', Hu2, Hr1', Hu1. }
  destruct (np_zeros_grid sh) as [Hzg Hzb].
  destruct (mark_grid sh (np_zeros sh) seed Hzg Hzb) as [Hmg Hmb].
  split.
  - rewrite (reveal_square_unfold set_order flagged adjacency_matrix revealed sh
               Hf Ha list_pop seed Hseed) in Hrev.
    rewrite (reveal_square_unfold set_order flagged adjacency_matrix revealed1 sh
               Hf Ha list_pop seed Hseed).
    unfold flood in Hmarks.
    destruct (negb auto_reveal && truthy (cell adjacency_matrix seed)); [done|].
    destruct fuel as [|fuel]; [discriminate|].
    rewrite (reveal_loop_step set_order Hso flagged adjacency_matrix revealed1 sh
               Hf Hfb Ha Hr1 list_pop fuel [seed] [] seed ∅ _ eq_refl Hseed Hmg).
    assert (next_work set_order flagged adjacency_matrix revealed1 ({[seed]} ∪ ∅) seed = [])
      as ->.
    { apply elem_of_nil_inv. intros q Hq.
      apply (elem_of_next_work set_order Hso flagged adjacency_matrix revealed1 sh Hf)
        in Hq as (Hgate & Hn & _ & [Hc1 Hc2]); [|done].
      pose proof (neighbourhood_in_bounds _ _ _ Hn) as Hqb.
      rewrite Hcell in Hc1. apply Z.lor_eq_0_iff in Hc1 as [Hc0 Hu0].
      assert (cell upd q = 1) as Hu1; [|lia].
      apply Hmarks; [done|].
      eapply reach_step; [constructor|done|by rewrite (proj1 Hf)|by split]. }
    rewrite mark_mark. by apply reveal_loop_done.
  - apply (ndarray_eq sh); [by apply zip_with_grid|done|].
    intros q Hq. rewrite cell_zip_with; [|done|..].
    + rewrite (cell_mark sh) by done. rewrite cell_zeros.
      destruct (decide (seed = q)) as [<-|Hne]; [|apply Z.lor_0_r].
      assert (cell upd seed = 1) as Hu by (apply Hmarks; [done|apply flood_seed]).
      rewrite Hcell, Hu.
      destruct (binary_cell revealed seed Hrb) as [-> | ->]; reflexivity.
    + by rewrite (proj1 Hr1), (proj1 Hmg).
    + destruct Hr1 as [H1 H2], Hmg as [H3 H4]. unfold well_formed in *.
      by rewrite H2, H4, H1, H3.
Qed.

(** C8. A pick repeated at once, with the same arguments, returns the
    same boolean as the first and leaves the field, and so the
    [revealed] grid, as the first pick left it. *)
Theorem pick_square_idempotent (set_order : gset (Z * Z) → list (Z * Z)) (fuel : nat)
    (rs rs' : random_source) (f f1 : Field) (row_idx col_idx : Z)
    (auto_reveal alive : bool) :
  (∀ s, set_order s ≡ₚ elements s) → fair_shuffle rs → wf_field f →
  in_bounds (rows f, cols f) (row_idx, col_idx) →
  pick_square set_order fuel rs f row_idx col_idx auto_reveal = Ok (alive, f1) →
  pick_square set_order fuel rs' f1 row_idx col_idx auto_reveal = Ok (alive, f1).
Proof.
  intros Hso Hfair Hwf Hp H.
  apply pick_square_in_bounds in H
    as (f0 & adj & mines & upd & _ & Hwf0 & Hrows & Hcols & Hr0 & Hf0 & Ha & Hm & Hmg & Hag &
        Hrev & Hmarks & -> & ->); [|done..].
  destruct Hwf as (Hr & Hrb & Hf & Hfb & _).
  destruct (reveal_square_again set_order (_flagged f) adj (_revealed f) upd (rows f, cols f)
              (row_idx, col_idx) auto_reveal fuel Hso Hf Hfb Hag Hr Hrb Hp Hrev)
    as [Hagain Hsame].
  simpl in Hagain, Hsame.
  unfold pick_square, initialized. simpl. rewrite Ha, Hm. simpl. rewrite Ha, Hm, Hf0.
  rewrite Hagain. simpl.
  injection Hsame as Hdata.
  unfold np_zip. simpl. rewrite bool_decide_eq_true_2 by (by rewrite (proj1 Hr)). simpl.
  rewrite bool_decide_eq_true_2 by (by rewrite (proj1 Hmg), (proj1 Hr)). simpl.
  by rewrite !Hdata.
Qed.

Lemma pick_square_idempotent_witness :
  pick_square elements 5 rs_reverse field_2x2 0 0 true
  = Ok (true, set_revealed
                (set_adjacency_matrix
                   (set_mines field_2x2 (Some (mk_ndarray (2%nat, 2%nat) [0; 0; 1; 1])))
                   (Some (mk_ndarray (2%nat, 2%nat) [2; 2; 2; 2])))
                (mk_ndarray (2%nat, 2%nat) [1; 0; 0; 0])) ∧
  pick_square elements 5 rs_rotate
    (set_revealed
       (set_adjacency_matrix
          (set_mines field_2x2 (Some (mk_ndarray (2%nat, 2%nat) [0; 0; 1; 1])))
          (Some (mk_ndarray (2%nat, 2%nat) [2; 2; 2; 2])))
       (mk_ndarray (2%nat, 2%nat) [1; 0; 0; 0])) 0 0 true
  = Ok (true, set_revealed
                (set_adjacency_matrix
                   (set_mines field_2x2 (Some (mk_ndarray (2%nat, 2%nat) [0; 0; 1; 1])))
                   (Some (mk_ndarray (2%nat, 2%nat) [2; 2; 2; 2])))
                (mk_ndarray (2%nat, 2%nat) [1; 0; 0; 0])).
Proof.
  assert (pick_square elements 5 rs_reverse field_2x2 0 0 true
          = Ok (true, set_revealed
                        (set_adjacency_matrix
                           (set_mines field_2x2
                              (Some (mk_ndarray (2%nat, 2%nat) [0; 0; 1; 1])))
                           (Some (mk_ndarray (2%nat, 2%nat) [2; 2; 2; 2])))
                        (mk_ndarray (2%nat, 2%nat) [1; 0; 0; 0]))) as H
    by (vm_compute; reflexivity).
  split; [exact H|].
  apply (pick_square_idempotent elements 5 rs_reverse rs_rotate field_2x2 _ 0 0 true true
           elements_order rs_reverse_fair field_2x2_wf
           (conj (conj (Z.le_refl 0) eq_refl) (conj (Z.le_refl 0) eq_refl)) H).
Defined.

(** * Flags on revealed cells *)

Lemma np_set_offset {A : Type} (a b : ndarray A) (p : Z * Z) (v : A) :
  np_set a p v = Ok b →
  ∃ k, np_offset (shape a) p = Some k ∧ b = mk_ndarray (shape a) (<[k:=v]> (data a)).
Proof.
  unfold np_set. destruct (np_offset (shape a) p) as [k|]; [|discriminate].
  case_bool_decide; [|discriminate]. intros [= <-]. eauto.
Qed.

(** A toggle that returns leaves a well-formed field, touches nothing
    but [flagged], and touches no cell that is revealed, wherever it was
    aimed. *)
Lemma toggle_flag_square_frame (f f' : Field) (row_idx col_idx : Z) :
  wf_field f →
  toggle_flag_square f row_idx col_idx = Ok f' →
  wf_field f' ∧ rows f' = rows f ∧ cols f' = cols f ∧
  _revealed f' = _revealed f ∧ _mines f' = _mines f ∧
  _adjacency_matrix f' = _adjacency_matrix f ∧
  (∀ q, cell (_revealed f) q ≠ 0 → cell (_flagged f') q = cell (_flagged f) q).
Proof.
  intros Hwf H. pose proof Hwf as (Hr & Hrb & Hf & Hfb & Hma).
  unfold toggle_flag_square in H. inv_bind H. rename x into r.
  destruct (truthy r) eqn:Er; simpl in H.
  - injection H as <-. by split_and!.
  - inv_bind H. injection H as <-. rename x into v.
    apply truthy_false in Er as ->.
    apply np_get_Ok in Hx as (k & Hk & Hrk).
    apply np_set_offset in Hx1 as (k' & Hk' & ->).
    rewrite (proj1 Hf), <- (proj1 Hr), Hk in Hk'. injection Hk' as <-.
    assert ((v + 1) `mod` 2 = 0 ∨ (v + 1) `mod` 2 = 1) as Hbit.
    { pose proof (Z.mod_pos_bound (v + 1) 2). lia. }
    split_and!; try done.
    + apply wf_field_set_flagged; [done|by apply grid_of_insert|by apply binary_insert].
    + intros q Hq. unfold cell in *. simpl.
      rewrite list_lookup_insert_ne; [done|].
      intros E. rewrite (proj1 Hf), <- (proj1 Hr) in E. rewrite <- E, Hrk in Hq. done.
Qed.

Lemma run_op_frame (set_order : gset (Z * Z) → list (Z * Z)) (o : op) (f f' : Field)
    (p : Z * Z) :
  wf_field f → fair_op o →
  cell (_revealed f) p ≠ 0 →
  run_op set_order o f = Ok f' →
  wf_field f' ∧ cell (_revealed f') p ≠ 0 ∧ cell (_flagged f') p = cell (_flagged f) p.
Proof.
  intros Hwf Hfair Hrev H. destruct o as [fuel rs row_idx col_idx auto_reveal|row_idx col_idx];
    simpl in *.
  - inv_bind H. destruct x as [alive f2]. injection H as <-.
    apply pick_square_frame in Hx as (Hwf2 & _ & _ & _ & Hfl & _ & Hmono); [|done..].
    split_and!; [done|by apply Hmono|by rewrite Hfl].
  - apply toggle_flag_square_frame in H as (Hwf' & _ & _ & Hr & _ & _ & Hfl); [|done].
    split_and!; [done|by rewrite Hr|by apply Hfl].
Qed.

Lemma run_ops_frame (set_order : gset (Z * Z) → list (Z * Z)) (os : list op) (f f' : Field)
    (p : Z * Z) :
  wf_field f → Forall fair_op os →
  cell (_revealed f) p ≠ 0 →
  run_ops set_order os f = Ok f' →
  wf_field f' ∧ cell (_revealed f') p ≠ 0 ∧ cell (_flagged f') p = cell (_flagged f) p.
Proof.
  intros Hwf Hfair. revert f Hwf.
  induction Hfair as [|o os Ho Hos IH]; intros f Hwf Hrev H; simpl in H.
  - by injection H as <-.
  - inv_bind H. rename x into f1.
    destruct (run_op_frame set_order o f f1 p Hwf Ho Hrev Hx) as (Hwf1 & Hrev1 & Hfl1).
    destruct (IH f1 Hwf1 Hrev1 H) as (Hwf' & Hrev' & Hfl').
    split_and!; [done..|congruence].
Qed.

(** C10. A pick on a flagged, unrevealed cell reveals it and leaves its
    flag in place; from then on the flag stays: whatever picks and
    toggles follow, the cell remains revealed and its flag keeps its
    value. *)
Theorem flag_on_revealed_cell_is_permanent (set_order : gset (Z * Z) → list (Z * Z))
    (f : Field) (row_idx col_idx : Z) :
  (∀ s, set_order s ≡ₚ elements s) → wf_field f →
  in_bounds (rows f, cols f) (row_idx, col_idx) →
  cell (_flagged f) (row_idx, col_idx) = 1 →
  (∀ fuel rs auto_reveal alive f2,
     fair_shuffle rs →
     pick_square set_order fuel rs f row_idx col_idx auto_reveal = Ok (alive, f2) →
     cell (_revealed f2) (row_idx, col_idx) = 1 ∧
     cell (_flagged f2) (row_idx, col_idx) = 1) ∧
  (initialized f = true →
   ∀ rs auto_reveal, ∃ fuel alive f2,
     pick_square set_order fuel rs f row_idx col_idx auto_reveal = Ok (alive, f2)) ∧
  (cell (_revealed f) (row_idx, col_idx) ≠ 0 →
   ∀ os f', Forall fair_op os → run_ops set_order os f = Ok f' →
     cell (_revealed f') (row_idx, col_idx) ≠ 0 ∧
     cell (_flagged f') (row_idx, col_idx) = 1).
Proof.
  intros Hso Hwf Hp Hflag. split_and!.
  - intros fuel rs auto_reveal alive f2 Hfair H.
    pose proof (pick_square_frame _ _ _ _ _ _ _ _ _ Hfair Hwf H)
      as (_ & _ & _ & _ & Hfl & _).
    destruct (pick_square_outcome _ _ _ _ _ _ _ _ _ Hso Hfair Hwf Hp H)
      as (mines & adj & upd & _ & _ & Hmarks & Hor & _).
    split; [|by rewrite Hfl].
    rewrite Hor.
    assert (cell upd (row_idx, col_idx) = 1) as ->.
    { apply Hmarks; [done|apply flood_seed]. }
    destruct Hwf as (_ & Hrb & _).
    destruct (binary_cell (_revealed f) (row_idx, col_idx) Hrb) as [-> | ->]; reflexivity.
  - intros Hi rs auto_reveal.
    destruct (pick_square_returns set_order rs f row_idx col_idx auto_reveal Hso Hwf Hi Hp)
      as (fuel & alive & f2 & H).
    exists fuel, alive, f2. by apply H.
  - intros Hrev os f' Hfair H.
    destruct (run_ops_frame set_order os f f' (row_idx, col_idx) Hwf Hfair Hrev H)
      as (_ & Hrev' & Hfl').
    split; [done|congruence].
Qed.

Lemma field_2x2_mined_flagged_wf : wf_field field_2x2_mined_flagged.
Proof.
  unfold wf_field, grid_of, well_formed, binary. simpl.
  split_and!; try done; repeat (apply Forall_cons_2; [lia|]); apply Forall_nil_2.
Qed.

Lemma flagged_cell_gets_revealed :
  run_ops elements [ToggleFlag 0 1; PickSquare 5 rs_reverse 0 1 false; ToggleFlag 0 1]
    field_2x2_mined
  = Ok (set_revealed field_2x2_mined_flagged (mk_ndarray (2%nat, 2%nat) [0; 1; 0; 0])).
Proof. vm_compute. reflexivity. Qed.

Lemma flag_on_revealed_cell_is_permanent_witness :
  (∀ fuel rs auto_reveal alive f2,
     fair_shuffle rs →
     pick_square elements fuel rs field_2x2_mined_flagged 0 1 auto_reveal = Ok (alive, f2) →
     cell (_revealed f2) (0, 1) = 1 ∧ cell (_flagged f2) (0, 1) = 1) ∧
  (initialized field_2x2_mined_flagged = true →
   ∀ rs auto_reveal, ∃ fuel alive f2,
     pick_square elements fuel rs field_2x2_mined_flagged 0 1 auto_reveal = Ok (alive, f2)) ∧
  (cell (_revealed field_2x2_mined_flagged) (0, 1) ≠ 0 →
   ∀ os f', Forall fair_op os → run_ops elements os field_2x2_mined_flagged = Ok f' →
     cell (_revealed f') (0, 1) ≠ 0 ∧ cell (_flagged f') (0, 1) = 1).
Proof.
  apply (flag_on_revealed_cell_is_permanent elements field_2x2_mined_flagged 0 1
           elements_order field_2x2_mined_flagged_wf).
  - unfold in_bounds. simpl. lia.
  - reflexivity.
Defined.

(** * The win condition *)

Lemma zip_with_eqb_all (l k : list bool) :
  length l = length k →
  (forallb id (zip_with eqb l k) = true ↔ l = k).
Proof.
  revert k. induction l as [|x l IH]; intros [|y k] Hlen; simpl in *; try done.
  injection Hlen as Hlen. rewrite andb_true_iff, (IH k Hlen). unfold id.
  rewrite eqb_true_iff. split; [by intros [-> ->]|by intros [= -> ->]].
Qed.

Lemma np_all_eqb (a b : ndarray bool) :
  shape a = shape b → length (data a) = length (data b) →
  (np_all (mk_ndarray (shape a) (zip_with eqb (data a) (data b))) = true ↔ a = b).
Proof.
  intros Hsh Hlen. unfold np_all. simpl. rewrite zip_with_eqb_all by done.
  destruct a as [sa da], b as [sb db]. simpl in *. subst sb.
  split; [by intros ->|by intros [= ->]].
Qed.

Lemma Field_init_wf (num_rows num_cols : Z) (ratio : float) (f : Field) :
  Field_init num_rows num_cols ratio = Ok f → wf_field f ∧ initialized f = false.
Proof.
  unfold Field_init. case_bool_decide; [|discriminate]. intros [= <-].
  destruct (np_zeros_grid (Z.to_nat num_rows, Z.to_nat num_cols)) as [Hg Hb].
  unfold wf_field. simpl. by split_and!.
Qed.

Lemma controller_inv_field (c : FieldController) (f : Field) :
  controller_inv c → wf_field f →
  (initialized (_field c) = true →
   initialized f = true ∧ _mines f = _mines (_field c) ∧
   _revealed f = _revealed (_field c)) →
  controller_inv (set_field c f).
Proof.
  intros [Hwf Hwon] Hwf' Hsame. split; [done|]. simpl. intros Hs.
  destruct (Hwon Hs) as [Hi (mines & Hm & Hg)].
  destruct (Hsame Hi) as (Hi' & Hm' & Hr').
  split; [done|]. exists mines. by rewrite Hm', Hr'.
Qed.

Lemma pick_square_keeps_win (set_order : gset (Z * Z) → list (Z * Z)) (fuel : nat)
    (rs : random_source) (f f2 : Field) (row_idx col_idx : Z) (auto_reveal : bool) :
  wf_field f → initialized f = true → win_grids f →
  pick_square set_order fuel rs f row_idx col_idx auto_reveal = Ok (true, f2) →
  win_grids f2.
Proof.
  intros Hwf Hi (mines & Hm & Hwin) H.
  apply pick_square_Ok in H
    as (f1 & adj & mines' & upd & revealed & hit & H1 & Ha & Hm' & Hrev & Hor & -> & Hmul &
        Halive).
  rewrite Hi in H1. injection H1 as <-.
  rewrite Hm in Hm'. injection Hm' as <-.
  destruct Hwf as (Hr & _ & Hf & _ & Hma). rewrite Hm, Ha in Hma.
  destruct Hma as (Hmg & _).
  apply reveal_square_shape in Hrev as [Hug _]. rewrite (proj1 Hf) in Hug.
  apply np_zip_Ok in Hor as [_ ->]. apply np_zip_Ok in Hmul as [_ ->].
  symmetry in Halive. apply negb_true_iff in Halive.
  exists mines. split; [done|]. simpl.
  unfold np_invert, astype_bool, np_map in *. simpl in *.
  injection Hwin as Hsh Hdata. f_equal; [done|].
  assert (length (data (_revealed f)) = length (data mines)) as Hlen1.
  { destruct Hr as [H1 H2], Hmg as [H3 H4]. unfold well_formed in *. by rewrite H2, H4, H1, H3. }
  assert (length (data upd) = length (data mines)) as Hlen2.
  { destruct Hug as [H1 H2], Hmg as [H3 H4]. unfold well_formed in *. by rewrite H2, H4, H1, H3. }
  apply list_eq. intros i.
  apply (f_equal (λ l, l !! i)) in Hdata.
  rewrite !list_lookup_fmap in Hdata. rewrite !list_lookup_fmap, lookup_zip_with.
  destruct (data mines !! i) as [m|] eqn:Em.
  - destruct (data (_revealed f) !! i) as [r|] eqn:Er;
      [|apply lookup_ge_None in Er; apply lookup_lt_Some in Em; lia].
    destruct (data upd !! i) as [u|] eqn:Eu;
      [|apply lookup_ge_None in Eu; apply lookup_lt_Some in Em; lia].
    simpl in *. injection Hdata as Hdata. f_equal.
    assert (truthy (m * Z.lor r u) = false) as Hhit.
    { unfold np_any in Halive. simpl in Halive.
      destruct (truthy (m * Z.lor r u)) eqn:E; [|done].
      assert (existsb truthy (zip_with Z.mul (data mines)
                                (zip_with Z.lor (data (_revealed f)) (data upd))) = true)
        as Hex; [|congruence].
      apply existsb_exists. exists (m * Z.lor r u). split; [|done].
      apply list_elem_of_In. apply (list_elem_of_lookup_2 _ i).
      by rewrite !lookup_zip_with, Em, Er, Eu. }
    apply truthy_false in Hhit.
    destruct (truthy m) eqn:Etm.
    + apply truthy_true in Etm. assert (Z.lor r u = 0) as -> by nia. reflexivity.
    + apply negb_false_iff, truthy_true in Hdata.
      apply negb_false_iff, truthy_true. intros [E _]%Z.lor_eq_0_iff. done.
  - destruct (data (_revealed f) !! i) as [r|] eqn:Er;
      [apply lookup_ge_None in Em; apply lookup_lt_Some in Er; lia|]. done.
Qed.

Lemma handle_action_inv (set_order : gset (Z * Z) → list (Z * Z)) (fuel : nat)
    (rs : random_source) (key : string) (c c' : FieldController) :
  fair_shuffle rs → controller_inv c →
  handle_action set_order fuel rs key c = Ok c' →
  controller_inv c'.
Proof.
  intros Hfair Hinv H. unfold handle_action in H.
  repeat case_bool_decide; try (injection H as <-; exact Hinv).
  - inv_bind H. injection H as <-. rename x into f.
    apply toggle_flag_square_frame in Hx as (Hwf & _ & _ & Hr & Hm & Ha & _); [|apply Hinv].
    apply controller_inv_field; [done..|].
    unfold initialized. by rewrite Hm, Ha.
  - inv_bind H. destruct x as [alive f]. injection H as <-.
    pose proof (pick_square_frame _ _ _ _ _ _ _ _ _ Hfair (proj1 Hinv) Hx)
      as (Hwf & Hi & _).
    destruct alive.
    + split; [done|]. simpl. intros Hs. split; [done|].
      destruct (proj2 Hinv Hs) as [Hi0 Hwin].
      by eapply pick_square_keeps_win; [apply Hinv|..].
    + split; [done|]. simpl. discriminate.
Qed.

Lemma evaluate_win_condition_spec (c : FieldController) :
  controller_inv c →
  ∃ c', evaluate_win_condition c = Ok c' ∧ controller_inv c' ∧
        (_status c' = Won ↔
         initialized (_field c) = true ∧ _status c ≠ Lost ∧ win_grids (_field c)).
Proof.
  intros Hinv. pose proof Hinv as [Hwf Hwon]. unfold evaluate_win_condition.
  case_bool_decide as Hlost.
  { exists c. split_and!; [done..|]. rewrite Hlost. split; [done|tauto]. }
  destruct (initialized (_field c)) eqn:Hi; simpl.
  2:{ exists c. split_and!; [done..|]. split; [|by intros [? _]].
      intros Hs. by destruct (Hwon Hs). }
  pose proof Hwf as (Hr & _ & _ & _ & Hma).
  unfold initialized in Hi. apply andb_true_iff in Hi as [Ha Hm].
  apply bool_decide_eq_true in Ha, Hm.
  destruct (_mines (_field c)) as [mines|] eqn:Em; [|done].
  destruct (_adjacency_matrix (_field c)) as [adj|] eqn:Ea; [|done].
  destruct Hma as (Hmg & _).
  assert (shape (astype_bool mines) = shape (np_invert (astype_bool (_revealed (_field c)))))
    as Hsh by (simpl; by rewrite (proj1 Hmg), (proj1 Hr)).
  assert (length (data (astype_bool mines))
          = length (data (np_invert (astype_bool (_revealed (_field c)))))) as Hlen.
  { simpl. rewrite !length_fmap. destruct Hr as [H1 H2], Hmg as [H3 H4].
    unfold well_formed in *. by rewrite H2, H4, H1, H3. }
  unfold np_zip. rewrite bool_decide_eq_true_2 by done. simpl.
  pose proof (np_all_eqb _ _ Hsh Hlen) as Hall.
  assert (win_grids (_field c) ↔
          astype_bool mines = np_invert (astype_bool (_revealed (_field c)))) as Hwin.
  { unfold win_grids. rewrite Em. split.
    - by intros (m & [= <-] & ->).
    - intros E. exists mines. by split. }
  assert (initialized (_field c) = true) as Hi.
  { unfold initialized. by rewrite Em, Ea. }
  destruct (np_all _) eqn:Eall.
  - exists (set_status c Won). split_and!; [done| |].
    + split; [done|]. intros _. simpl. split; [done|]. apply Hwin. by apply Hall.
    + simpl. split; [|done]. intros _. split_and!; [done..|]. apply Hwin. by apply Hall.
  - exists c. split_and!; [done..|]. split.
    + intros Hs. destruct (Hwon Hs) as [_ Hw]. apply Hwin, Hall in Hw. congruence.
    + intros (_ & _ & Hw). apply Hwin, Hall in Hw. congruence.
Qed.

Lemma dispatch_inv (set_order : gset (Z * Z) → list (Z * Z)) (e : event)
    (c c' : FieldController) :
  fair_event e → controller_inv c → dispatch set_order e c = Ok c' → controller_inv c'.
Proof.
  intros Hfair Hinv H. destruct e; simpl in *; try (injection H as <-; exact Hinv).
  - by eapply handle_action_inv.
  - destruct (evaluate_win_condition_spec c Hinv) as (c'' & Hc & Hinv' & _).
    rewrite Hc in H. by injection H as <-.
Qed.

Lemma reachable_inv (set_order : gset (Z * Z) → list (Z * Z)) (c : FieldController) :
  reachable set_order c → controller_inv c.
Proof.
  intros (rows & cols & ratio & c0 & es & Hc0 & Hfair & Hrun).
  assert (controller_inv c0) as Hinv0.
  { unfold create_app in Hc0. inv_bind Hc0. injection Hc0 as <-.
    apply Field_init_wf in Hx as [Hwf _]. split; [done|]. simpl. discriminate. }
  clear Hc0. revert c0 Hinv0 Hrun.
  induction Hfair as [|e es He Hes IH]; intros c0 Hinv0 Hrun; simpl in Hrun.
  - by injection Hrun as <-.
  - inv_bind Hrun. eapply IH; [|exact Hrun]. by eapply dispatch_inv.
Qed.

(** The grids of a won game, cell by cell: a cell is mined exactly when
    it is not revealed. *)
Lemma win_grids_cells (f : Field) (mines : ndarray Z) :
  wf_field f → _mines f = Some mines →
  (win_grids f ↔
   ∀ q, in_bounds (rows f, cols f) q → (cell mines q ≠ 0 ↔ cell (_revealed f) q = 0)).
Proof.
  intros (Hr & _ & _ & _ & Hma) Hm. rewrite Hm in Hma.
  destruct (_adjacency_matrix f); [|done]. destruct Hma as ([Hm1 Hm2] & _).
  destruct Hr as [Hr1 Hr2]. unfold well_formed in *.
  unfold win_grids. rewrite Hm. split.
  - intros (m & [= <-] & Heq) q Hq.
    unfold np_invert, astype_bool, np_map in Heq. simpl in Heq. injection Heq as _ Hdata.
    apply (f_equal (λ l, l !! flat_offset (rows f, cols f) q)) in Hdata.
    rewrite !list_lookup_fmap in Hdata. unfold cell. rewrite Hm1, Hr1.
    pose proof (flat_offset_lt _ _ Hq) as Hlt.
    destruct (data mines !! flat_offset (rows f, cols f) q) as [m|] eqn:Em;
      [|apply lookup_ge_None in Em; rewrite Hm2, Hm1 in Em; lia].
    destruct (data (_revealed f) !! flat_offset (rows f, cols f) q) as [r|] eqn:Er;
      [|apply lookup_ge_None in Er; rewrite Hr2, Hr1 in Er; lia].
    simpl in *. injection Hdata as Hdata.
    rewrite <- truthy_true, <- truthy_false, <- Hdata. by destruct (truthy r).
  - intros Hcells. exists mines. split; [done|].
    unfold np_invert, astype_bool, np_map. simpl. f_equal; [congruence|].
    apply list_eq. intros i. rewrite !list_lookup_fmap.
    destruct (decide (i < size_of (rows f, cols f))%nat) as [Hi|Hi].
    + destruct (flat_offset_surj _ i Hi) as (q & Hq & <-).
      specialize (Hcells q Hq). unfold cell in Hcells. rewrite Hm1, Hr1 in Hcells.
      destruct (data mines !! flat_offset (rows f, cols f) q) as [m|] eqn:Em;
        [|apply lookup_ge_None in Em; rewrite Hm2, Hm1 in Em; lia].
      destruct (data (_revealed f) !! flat_offset (rows f, cols f) q) as [r|] eqn:Er;
        [|apply lookup_ge_None in Er; rewrite Hr2, Hr1 in Er; lia].
      simpl in *. f_equal.
      rewrite <- truthy_true, <- truthy_false in Hcells.
      destruct (truthy r), (truthy m); simpl; intuition congruence.
    + rewrite !(proj2 (lookup_ge_None _ _)); [done|rewrite Hm2, Hm1; lia|rewrite Hr2, Hr1; lia].
Qed.

(** C6. In every state the application can reach, re-evaluating the win
    condition declares the game won exactly when the field is
    initialized, the game is not lost, and the negation of [revealed] is
    the mine grid, that is, the mined cells are exactly the unrevealed
    ones; with a mine cell revealed the game is never declared won. *)
Theorem win_condition_iff (set_order : gset (Z * Z) → list (Z * Z)) (c : FieldController) :
  reachable set_order c →
  ∃ c', evaluate_win_condition c = Ok c' ∧
    (_status c' = Won ↔
     initialized (_field c) = true ∧ _status c ≠ Lost ∧ win_grids (_field c)) ∧
    (∀ mines, _mines (_field c) = Some mines →
       (win_grids (_field c) ↔
        ∀ q, in_bounds (rows (_field c), cols (_field c)) q →
             (cell mines q ≠ 0 ↔ cell (_revealed (_field c)) q = 0))) ∧
    (∀ mines q, _mines (_field c) = Some mines →
       in_bounds (rows (_field c), cols (_field c)) q →
       cell mines q ≠ 0 → cell (_revealed (_field c)) q ≠ 0 →
       _status c' ≠ Won).
Proof.
  intros Hreach. pose proof (reachable_inv set_order c Hreach) as Hinv.
  destruct (evaluate_win_condition_spec c Hinv) as (c' & Hc & _ & Hiff).
  exists c'. split_and!; [done..| |].
  - intros mines Hm. by apply win_grids_cells; [apply Hinv|].
  - intros mines q Hm Hq Hmine Hrev Hwon.
    apply Hiff in Hwon as (_ & _ & Hwin).
    pose proof (proj1 (win_grids_cells _ mines (proj1 Hinv) Hm) Hwin q Hq) as Hcell.
    apply Hcell in Hmine. done.
Qed.

Lemma game_2x2_reachable :
  ∃ c, game_2x2 = Ok c ∧ reachable elements c ∧ _status c = Playing ∧
       win_grids (_field c).
Proof.
  eexists. split; [vm_compute; reflexivity|]. split.
  - eexists 2, 2, 0.5%float, _, game_2x2_events. split_and!.
    + reflexivity.
    + unfold game_2x2_events. repeat constructor; apply rs_reverse_fair.
    + vm_compute. reflexivity.
  - split; [reflexivity|]. eexists. split; reflexivity.
Defined.

Lemma win_condition_iff_witness :
  ∃ c c', game_2x2 = Ok c ∧ evaluate_win_condition c = Ok c' ∧
    (_status c' = Won ↔
     initialized (_field c) = true ∧ _status c ≠ Lost ∧ win_grids (_field c)).
Proof.
  destruct game_2x2_reachable as (c & Hc & Hreach & _).
  destruct (win_condition_iff elements c Hreach) as (c' & Hev & Hiff & _).
  exists c, c'. by split_and!.
Defined.

Lemma game_2x2_is_won :
  (c ← game_2x2; c ← evaluate_win_condition c; Ok (_status c)) = Ok Won.
Proof. vm_compute. reflexivity. Qed.

(** * The adjacency grid, cell by cell *)

Lemma cell_tabulate (sh : nat * nat) (f : Z * Z → Z) (p : Z * Z) :
  in_bounds sh p → cell (np_tabulate sh f) p = f p.
Proof.
  intros Hp.
  assert (np_get (np_tabulate sh f) p = Ok (cell (np_tabulate sh f) p)) as H.
  { apply np_get_in_bounds; [|done].
    unfold well_formed, np_tabulate. simpl. by rewrite length_fmap, length_seq. }
  rewrite np_get_tabulate in H by done. congruence.
Qed.

Lemma generate_adjacency_matrix_cell (mines : ndarray Z) (p : Z * Z) :
  binary mines → in_bounds (shape mines) p →
  cell (generate_adjacency_matrix mines) p = Z.of_nat (count_around mines p).
Proof.
  intros Hb Hp. unfold generate_adjacency_matrix, ndimage_convolve.
  rewrite cell_tabulate by assumption.
  change (Z.of_nat (shape (np_ones (3%nat, 3%nat))).1 / 2) with 1.
  change (Z.of_nat (shape (np_ones (3%nat, 3%nat))).2 / 2) with 1.
  change (shape (np_ones (3%nat, 3%nat))) with (3%nat, 3%nat).
  cbn [fst snd].
  rewrite (convolve_ones_block mines p).
  rewrite (py_sum_perm _ (padded 0 mines <$> cprod (seqZ (p.1 - 1) 3) (seqZ (p.2 - 1) 3))).
  - by rewrite sum_padded_count.
  - apply fmap_Permutation. apply reverse_Permutation.
Qed.

Lemma neighbourhood_length (sh : nat * nat) (p : Z * Z) :
  (length (neighbourhood sh p) ≤ 9)%nat.
Proof.
  unfold neighbourhood. etrans; [apply length_filter|].
  by rewrite !seqZ_3.
Qed.

Lemma neighbourhood_centre (sh : nat * nat) (p : Z * Z) :
  in_bounds sh p → p ∈ neighbourhood sh p.
Proof. intros Hp. apply elem_of_neighbourhood. split; [done|lia]. Qed.

Lemma count_around_le (a : ndarray Z) (p : Z * Z) : (count_around a p ≤ 9)%nat.
Proof.
  unfold count_around. etrans; [apply length_filter|]. apply neighbourhood_length.
Qed.

Lemma count_around_0 (a : ndarray Z) (p : Z * Z) :
  count_around a p = 0%nat ↔ ∀ q, q ∈ neighbourhood (shape a) p → cell a q = 0.
Proof.
  unfold count_around. rewrite length_zero_iff_nil. split.
  - intros H q Hq. destruct (decide (cell a q = 0)) as [|Hn]; [done|].
    assert (q ∈ filter (λ q, cell a q ≠ 0) (neighbourhood (shape a) p)) as Hin
      by (by apply list_elem_of_filter).
    rewrite H in Hin. by apply elem_of_nil in Hin.
  - intros H. apply elem_of_nil_inv. intros q [Hq1 Hq2]%list_elem_of_filter.
    by apply Hq1, H.
Qed.

(** X1. On a boolean mine grid every adjacency value lies between 0 and
    9; a mined cell counts itself, so its value is at least 1; and the
    value is 0 exactly when neither the cell nor any neighbour inside
    the grid is mined. *)
Theorem adjacency_range (mines : ndarray Z) (p : Z * Z) :
  binary mines → in_bounds (shape mines) p →
  ∃ a, np_get (generate_adjacency_matrix mines) p = Ok a ∧
       0 ≤ a ≤ 9 ∧
       (cell mines p ≠ 0 → 1 ≤ a) ∧
       (a = 0 ↔ ∀ q, q ∈ neighbourhood (shape mines) p → cell mines q = 0).
Proof.
  intros Hb Hp. exists (Z.of_nat (count_around mines p)).
  pose proof (generate_adjacency_matrix_grid mines) as [Hs Hw].
  split_and!.
  - rewrite np_get_in_bounds by (by rewrite ?Hs).
    by rewrite generate_adjacency_matrix_cell.
  - lia.
  - pose proof (count_around_le mines p). lia.
  - intros Hm. destruct (decide (count_around mines p = 0%nat)) as [H0|]; [|lia].
    exfalso. apply Hm. apply (proj1 (count_around_0 mines p) H0).
    by apply neighbourhood_centre.
  - rewrite <- count_around_0. lia.
Qed.

Lemma adjacency_range_witness :
  ∃ a, np_get (generate_adjacency_matrix mines_3x4) (0, 1) = Ok a ∧
       0 ≤ a ≤ 9 ∧
       (cell mines_3x4 (0, 1) ≠ 0 → 1 ≤ a) ∧
       (a = 0 ↔ ∀ q, q ∈ neighbourhood (shape mines_3x4) (0, 1) → cell mines_3x4 q = 0).
Proof.
  apply adjacency_range.
  - unfold binary. simpl. repeat (apply Forall_cons_2; [lia|]). apply Forall_nil_2.
  - vm_compute. intuition discriminate.
Defined.

(** * Arguments out of range *)




Lemma np_index_None (n : nat) (i : Z) :
  ¬ (- Z.of_nat n ≤ i < Z.of_nat n) → np_index n i = None.
Proof.
  intros H. unfold np_index. rewrite !bool_decide_eq_false_2; [done|lia|lia].
Qed.

Lemma np_offset_None (sh : nat * nat) (p : Z * Z) :
  ¬ (- Z.of_nat sh.1 ≤ p.1 < Z.of_nat sh.1 ∧ - Z.of_nat sh.2 ≤ p.2 < Z.of_nat sh.2) →
  np_offset sh p = None.
Proof.
  intros H. unfold np_offset.
  destruct (decide (- Z.of_nat sh.1 ≤ p.1 < Z.of_nat sh.1)) as [H1|H1].
  - rewrite (np_index_None sh.2 p.2) by tauto. by destruct (np_index sh.1 p.1).
  - by rewrite (np_index_None sh.1 p.1).
Qed.

(** X3. An index outside [-rows, rows) x [-cols, cols) is refused:
    [toggle_flag_square] raises [IndexError], and so does [pick_square]
    on an initialized field, whatever the chord setting. *)
Theorem index_out_of_range_raises (f : Field) (row_idx col_idx : Z) :
  wf_field f →
  ¬ (- Z.of_nat (rows f) ≤ row_idx < Z.of_nat (rows f) ∧
     - Z.of_nat (cols f) ≤ col_idx < Z.of_nat (cols f)) →
  toggle_flag_square f row_idx col_idx = Raise IndexError ∧
  (initialized f = true →
   ∀ set_order fuel rs auto_reveal,
     pick_square set_order fuel rs f row_idx col_idx auto_reveal = Raise IndexError).
Proof.
  intros ([Hr _] & _ & [Hf _] & _ & Hm) Hout. split.
  - unfold toggle_flag_square, np_get. rewrite Hr.
    by rewrite (np_offset_None (rows f, cols f) (row_idx, col_idx)) by exact Hout.
  - intros Hinit set_order fuel rs auto_reveal. unfold pick_square. rewrite Hinit.
    unfold initialized in Hinit. simpl.
    destruct (_adjacency_matrix f) as [adj|], (_mines f) as [mines|]; try done.
    unfold reveal_square, np_set. simpl. rewrite Hf.
    by rewrite (np_offset_None (rows f, cols f) (row_idx, col_idx)) by exact Hout.
Qed.

Lemma index_out_of_range_raises_witness :
  toggle_flag_square field_2x2_mined 2 0 = Raise IndexError ∧
  (initialized field_2x2_mined = true →
   ∀ set_order fuel rs auto_reveal,
     pick_square set_order fuel rs field_2x2_mined 2 0 auto_reveal = Raise IndexError).
Proof.
  apply index_out_of_range_raises.
  - apply field_2x2_mined_wf.
  - simpl. lia.
Defined.

Lemma np_index_wrap (n : nat) (i : Z) :
  - Z.of_nat n ≤ i < Z.of_nat n → np_index n i = np_index n (i `mod` Z.of_nat n).
Proof.
  intros H. destruct (decide (0 ≤ i)) as [Hi|Hi].
  - by rewrite Z.mod_small by lia.
  - assert (i `mod` Z.of_nat n = i + Z.of_nat n) as ->.
    { symmetry. apply (Z.mod_unique_pos _ _ (-1)); lia. }
    unfold np_index.
    rewrite (bool_decide_eq_false_2 (0 ≤ i < _)) by lia.
    rewrite (bool_decide_eq_true_2 (- _ ≤ i < 0)) by lia.
    by rewrite (bool_decide_eq_true_2 (0 ≤ i + _ < _)) by lia.
Qed.

(** X4. [toggle_flag_square] does not check its indices: a negative index
    inside [-rows, rows) x [-cols, cols) counts from the far edge, so the
    call acts as the one with the indices taken modulo the dimensions. *)
Theorem toggle_flag_square_negative_index (f : Field) (row_idx col_idx : Z) :
  wf_field f →
  - Z.of_nat (rows f) ≤ row_idx < Z.of_nat (rows f) →
  - Z.of_nat (cols f) ≤ col_idx < Z.of_nat (cols f) →
  toggle_flag_square f row_idx col_idx
  = toggle_flag_square f (row_idx `mod` Z.of_nat (rows f)) (col_idx `mod` Z.of_nat (cols f)).
Proof.
  intros ([Hr _] & _ & [Hf _] & _ & _) H1 H2.
  assert (∀ sh, sh = (rows f, cols f) →
            np_offset sh (row_idx, col_idx)
            = np_offset sh (row_idx `mod` Z.of_nat (rows f), col_idx `mod` Z.of_nat (cols f)))
    as Hoff.
  { intros sh ->. unfold np_offset. simpl.
    by rewrite <- (np_index_wrap (rows f)), <- (np_index_wrap (cols f)). }
  unfold toggle_flag_square, np_get, np_set.
  by rewrite !(Hoff _ Hr), !(Hoff _ Hf).
Qed.

Lemma toggle_flag_square_negative_index_witness :
  toggle_flag_square field_2x2 (-1) (-2)
  = toggle_flag_square field_2x2 ((-1) `mod` Z.of_nat (rows field_2x2))
      ((-2) `mod` Z.of_nat (cols field_2x2)).
Proof.
  apply toggle_flag_square_negative_index.
  - apply field_2x2_wf.
  - simpl. lia.
  - simpl. lia.
Defined.

(** * Sequences of picks and toggles *)

Lemma pick_square_steps (set_order : gset (Z * Z) → list (Z * Z)) (fuel : nat)
    (rs : random_source) (f f2 : Field) (row_idx col_idx : Z) (auto_reveal alive : bool) :
  fair_shuffle rs →
  pick_square set_order fuel rs f row_idx col_idx auto_reveal = Ok (alive, f2) →
  ∃ f1 revealed,
    f2 = set_revealed f1 revealed ∧
    if initialized f then f1 = f
    else ∃ mines, f1 = set_adjacency_matrix (set_mines f (Some mines))
                         (Some (generate_adjacency_matrix mines)) ∧
                  layout_of f mines ∧ np_get mines (row_idx, col_idx) = Ok 0.
Proof.
  intros Hfair H.
  apply pick_square_Ok in H
    as (f1 & adj & mines & upd & revealed & hit & H1 & _ & _ & _ & _ & -> & _ & _).
  exists f1, revealed. split; [done|].
  destruct (initialized f).
  - by injection H1 as <-.
  - by apply _initialize_Ok in H1.
Qed.

Lemma toggle_flag_square_steps (f f' : Field) (row_idx col_idx : Z) :
  toggle_flag_square f row_idx col_idx = Ok f' →
  f' = f ∨ ∃ flagged, f' = set_flagged f flagged.
Proof.
  intros H. unfold toggle_flag_square in H. inv_bind H.
  destruct (truthy x); simpl in H.
  - left. by injection H as <-.
  - inv_bind H. injection H as <-. right. by eexists.
Qed.

Lemma run_op_keeps (set_order : gset (Z * Z) → list (Z * Z)) (o : op) (f f' : Field) :
  wf_field f → fair_op o → run_op set_order o f = Ok f' →
  wf_field f' ∧ rows f' = rows f ∧ cols f' = cols f ∧
  (∀ q, cell (_revealed f) q ≠ 0 → cell (_revealed f') q ≠ 0) ∧
  (initialized f = true →
   initialized f' = true ∧ _mines f' = _mines f ∧
   _adjacency_matrix f' = _adjacency_matrix f).
Proof.
  intros Hwf Hfair H.
  destruct o as [fuel rs row_idx col_idx auto_reveal|row_idx col_idx]; simpl in *.
  - inv_bind H. destruct x as [alive f2]. injection H as <-.
    apply pick_square_frame in Hx as (? & ? & ? & ? & ? & Hsame & ?); [|done..].
    split_and!; try done. intros Hi. destruct (Hsame Hi). by split_and!.
  - apply toggle_flag_square_frame in H as (? & ? & ? & Hr & Hm & Ha & _); [|done].
    split_and!; try done.
    + by rewrite Hr.
    + unfold initialized. by rewrite Hm, Ha.
Qed.

(** X5. Whatever picks and toggles are made on a well-formed field and
    return, the field stays well formed with the same dimensions, a
    revealed cell stays revealed, and once the field is initialized its
    mines and its adjacency grid never change. *)
Theorem run_ops_keeps (set_order : gset (Z * Z) → list (Z * Z)) (os : list op)
    (f f' : Field) :
  wf_field f → Forall fair_op os → run_ops set_order os f = Ok f' →
  wf_field f' ∧ rows f' = rows f ∧ cols f' = cols f ∧
  (∀ q, cell (_revealed f) q ≠ 0 → cell (_revealed f') q ≠ 0) ∧
  (initialized f = true →
   initialized f' = true ∧ _mines f' = _mines f ∧
   _adjacency_matrix f' = _adjacency_matrix f).
Proof.
  intros Hwf Hfair. revert f Hwf.
  induction Hfair as [|o os Ho Hos IH]; intros f Hwf H; simpl in H.
  - injection H as <-. by split_and!.
  - inv_bind H. rename x into f1.
    destruct (run_op_keeps set_order o f f1 Hwf Ho Hx) as (Hwf1 & Hr1 & Hc1 & Hm1 & Hi1).
    destruct (IH f1 Hwf1 H) as (Hwf' & Hr' & Hc' & Hm' & Hi').
    split_and!; [done|congruence|congruence|auto|].
    intros Hi. destruct (Hi1 Hi) as (Hi1' & Hmi & Had).
    destruct (Hi' Hi1') as (? & ? & ?). split_and!; [done|congruence..].
Qed.

Lemma run_ops_keeps_witness :
  wf_field field_2x2_mined ∧
  ∃ f', run_ops elements ops_2x2 field_2x2_mined = Ok f' ∧
        wf_field f' ∧ rows f' = rows field_2x2_mined ∧ cols f' = cols field_2x2_mined ∧
        (∀ q, cell (_revealed field_2x2_mined) q ≠ 0 → cell (_revealed f') q ≠ 0) ∧
        (initialized field_2x2_mined = true →
         initialized f' = true ∧ _mines f' = _mines field_2x2_mined ∧
         _adjacency_matrix f' = _adjacency_matrix field_2x2_mined).
Proof.
  split; [apply field_2x2_mined_wf|].
  eexists. split; [vm_compute; reflexivity|].
  apply (run_ops_keeps elements ops_2x2 field_2x2_mined).
  - apply field_2x2_mined_wf.
  - unfold ops_2x2. repeat (apply Forall_cons_2; [try exact I; apply rs_reverse_fair|]).
    apply Forall_nil_2.
  - vm_compute. reflexivity.
Defined.

Lemma consistent_run_op (set_order : gset (Z * Z) → list (Z * Z)) (o : op)
    (f0 f f' : Field) :
  fair_op o → consistent f0 f → run_op set_order o f = Ok f' → consistent f0 f'.
Proof.
  intros Hfair (Hr & Hc & Hq & Hm) H.
  destruct o as [fuel rs row_idx col_idx auto_reveal|row_idx col_idx]; simpl in *.
  - inv_bind H. destruct x as [alive f2]. injection H as <-.
    apply pick_square_steps in Hx as (f1 & revealed & -> & H1); [|done].
    unfold initialized in H1.
    destruct (_mines f) as [mines|] eqn:Em, (_adjacency_matrix f) as [adj|] eqn:Ea;
      try done; simpl in H1.
    + subst f1. unfold consistent. simpl. by rewrite Em, Ea.
    + destruct H1 as (mines & -> & Hlay & _). unfold consistent. simpl.
      split_and!; try done.
      unfold layout_of in *. by rewrite <- Hr, <- Hc, <- Hq.
  - apply toggle_flag_square_steps in H as [->|[flagged ->]]; [done|].
    unfold consistent. simpl. by split_and!.
Qed.

(** X6. Every field reached from [Field(rows, cols, ratio)] by picks and
    toggles is consistent: before the first pick nothing is revealed;
    afterwards the mine grid is a boolean grid of the field's shape with
    [round(rows * cols * ratio)] mines and the adjacency grid is the one
    generated from it. *)
Theorem fresh_field_stays_consistent (set_order : gset (Z * Z) → list (Z * Z))
    (num_rows num_cols : Z) (ratio : float) (os : list op) (f0 f : Field) :
  Field_init num_rows num_cols ratio = Ok f0 →
  Forall fair_op os →
  run_ops set_order os f0 = Ok f →
  consistent f0 f.
Proof.
  intros H0 Hfair H.
  assert (consistent f0 f0) as Hc.
  { unfold Field_init in H0. case_bool_decide; [|done]. injection H0 as <-.
    unfold consistent. simpl. split_and!; try done. intros q. apply cell_zeros. }
  clear H0. revert H Hc. generalize f0 at 1 3 as g.
  induction Hfair as [|o os Ho Hos IH]; intros g H Hc; simpl in H.
  - by injection H as <-.
  - inv_bind H. eapply IH; [done|]. by eapply consistent_run_op.
Qed.

Lemma fresh_field_stays_consistent_witness :
  ∃ f, run_ops elements ops_2x2 field_2x2 = Ok f ∧ consistent field_2x2 f.
Proof.
  eexists. split; [vm_compute; reflexivity|].
  apply (fresh_field_stays_consistent elements 2 2 0.5%float ops_2x2).
  - reflexivity.
  - unfold ops_2x2. repeat (apply Forall_cons_2; [try exact I; apply rs_reverse_fair|]).
    apply Forall_nil_2.
  - vm_compute. reflexivity.
Defined.

(** * What a pick reveals *)

Lemma reach_cases (flagged adjacency_matrix revealed : ndarray Z) (seed q : Z * Z) :
  reach flagged adjacency_matrix revealed seed q →
  q = seed ∨
  (coverable flagged revealed q ∧
   ∃ p, reach flagged adjacency_matrix revealed seed p ∧
        gate_open flagged adjacency_matrix p ∧ q ∈ neighbourhood (shape flagged) p).
Proof. intros [|p q' Hp Hg Hq Hc]; [by left|right]. split; [done|]. by exists p. Qed.

Lemma flood_reach (flagged adjacency_matrix revealed : ndarray Z) (seed q : Z * Z)
    (auto_reveal : bool) :
  flood flagged adjacency_matrix revealed seed auto_reveal q →
  reach flagged adjacency_matrix revealed seed q.
Proof.
  unfold flood. destruct (negb auto_reveal && truthy (cell adjacency_matrix seed)).
  - intros ->. constructor.
  - done.
Qed.

Lemma reach_gate_closed (flagged adjacency_matrix revealed : ndarray Z) (seed q : Z * Z) :
  ¬ gate_open flagged adjacency_matrix seed →
  reach flagged adjacency_matrix revealed seed q → q = seed.
Proof.
  intros Hg H. induction H as [|p q Hp IH Hgp Hq Hc]; [done|].
  subst p. done.
Qed.

Lemma marks_cell (sh : nat * nat) (upd : ndarray Z) (S : Z * Z → Prop) (q : Z * Z) :
  marks sh upd S → in_bounds sh q → ¬ S q → cell upd q = 0.
Proof.
  intros (_ & Hb & Hiff) Hq Hn.
  destruct (binary_cell upd q Hb) as [|E]; [done|]. by apply Hiff in E.
Qed.

(** X7. A pick never reveals a flagged cell other than the picked one:
    the revealed value of every other flagged cell is what it was. *)
Theorem pick_square_spares_flagged (set_order : gset (Z * Z) → list (Z * Z))
    (fuel : nat) (rs : random_source) (f f2 : Field) (row_idx col_idx : Z)
    (auto_reveal alive : bool) (q : Z * Z) :
  (∀ s, set_order s ≡ₚ elements s) → fair_shuffle rs → wf_field f →
  in_bounds (rows f, cols f) (row_idx, col_idx) →
  pick_square set_order fuel rs f row_idx col_idx auto_reveal = Ok (alive, f2) →
  in_bounds (rows f, cols f) q → q ≠ (row_idx, col_idx) →
  cell (_flagged f) q ≠ 0 →
  cell (_revealed f2) q = cell (_revealed f) q.
Proof.
  intros Hso Hfair Hwf Hp H Hq Hne Hfl.
  apply pick_square_outcome in H as (mines & adj & upd & _ & _ & Hmarks & Hrev & _);
    [|done..].
  rewrite Hrev, (marks_cell _ _ _ q Hmarks Hq); [apply Z.lor_0_r|].
  intros [|[[_ Hc] _]]%flood_reach%reach_cases; done.
Qed.

Lemma pick_square_spares_flagged_witness :
  ∃ alive f2,
    pick_square elements 5 rs_reverse field_2x2_mined_flagged 0 0 true = Ok (alive, f2) ∧
    cell (_revealed f2) (0, 1) = cell (_revealed field_2x2_mined_flagged) (0, 1).
Proof.
  eexists _, _. split; [vm_compute; reflexivity|].
  apply (pick_square_spares_flagged elements 5 rs_reverse field_2x2_mined_flagged _ 0 0
           true true (0, 1)).
  - apply elements_order.
  - apply rs_reverse_fair.
  - apply field_2x2_mined_flagged_wf.
  - vm_compute. intuition discriminate.
  - vm_compute. reflexivity.
  - vm_compute. intuition discriminate.
  - discriminate.
  - vm_compute. discriminate.
Defined.

(** X8. On an initialized field, a pick on a cell with fewer flags
    around it than its adjacency value reveals that cell and nothing
    else, with or without the chord setting. *)
Theorem pick_square_gate_closed (set_order : gset (Z * Z) → list (Z * Z))
    (fuel : nat) (rs : random_source) (f f2 : Field) (adj : ndarray Z)
    (row_idx col_idx : Z) (auto_reveal alive : bool) :
  (∀ s, set_order s ≡ₚ elements s) → fair_shuffle rs → wf_field f →
  initialized f = true → _adjacency_matrix f = Some adj →
  in_bounds (rows f, cols f) (row_idx, col_idx) →
  Z.of_nat (count_around (_flagged f) (row_idx, col_idx)) < cell adj (row_idx, col_idx) →
  pick_square set_order fuel rs f row_idx col_idx auto_reveal = Ok (alive, f2) →
  ∀ q, in_bounds (rows f, cols f) q →
       cell (_revealed f2) q
       = if decide (q = (row_idx, col_idx)) then 1 else cell (_revealed f) q.
Proof.
  intros Hso Hfair Hwf Hi Ha Hp Hgate H q Hq.
  pose proof H as H'.
  apply pick_square_frame in H' as (_ & _ & _ & _ & _ & Hsame & _); [|done..].
  destruct (Hsame Hi) as [_ Ha2].
  apply pick_square_outcome in H as (mines & adj' & upd & _ & Ha' & Hmarks & Hrev & _);
    [|done..].
  assert (adj' = adj) as -> by congruence.
  rewrite Hrev. destruct (decide (q = (row_idx, col_idx))) as [->|Hne].
  - assert (cell upd (row_idx, col_idx) = 1) as ->.
    { apply Hmarks; [done|]. apply flood_seed. }
    destruct Hwf as (_ & Hb & _).
    by destruct (binary_cell _ (row_idx, col_idx) Hb) as [-> | ->].
  - rewrite (marks_cell _ _ _ q Hmarks Hq); [apply Z.lor_0_r|].
    intros Hfl%flood_reach. apply Hne.
    eapply reach_gate_closed; [|done]. unfold gate_open. lia.
Qed.

Lemma pick_square_gate_closed_witness :
  ∃ alive f2,
    pick_square elements 5 rs_reverse field_2x2_mined_flagged 0 0 true = Ok (alive, f2) ∧
    ∀ q, in_bounds (rows field_2x2_mined_flagged, cols field_2x2_mined_flagged) q →
         cell (_revealed f2) q
         = if decide (q = (0, 0)) then 1 else cell (_revealed field_2x2_mined_flagged) q.
Proof.
  eexists _, _. split; [vm_compute; reflexivity|].
  apply (pick_square_gate_closed elements 5 rs_reverse field_2x2_mined_flagged _
           (mk_ndarray (2%nat, 2%nat) [2; 2; 2; 2]) 0 0 true true).
  - apply elements_order.
  - apply rs_reverse_fair.
  - apply field_2x2_mined_flagged_wf.
  - reflexivity.
  - reflexivity.
  - vm_compute. intuition discriminate.
  - vm_compute. reflexivity.
  - vm_compute. reflexivity.
Defined.

Lemma filter_length_mono {A : Type} (P Q : A → Prop)
    `{!∀ x, Decision (P x)} `{!∀ x, Decision (Q x)} (l : list A) :
  (∀ x, x ∈ l → P x → Q x) → (length (filter P l) ≤ length (filter Q l))%nat.
Proof.
  induction l as [|a l IH]; intros Hsub; [done|].
  assert (length (filter P l) ≤ length (filter Q l))%nat as IH'.
  { apply IH. intros x Hx. apply Hsub. by right. }
  rewrite !filter_cons.
  destruct (decide (P a)) as [Hp|Hp], (decide (Q a)) as [Hq|Hq]; simpl; try lia.
  exfalso. apply Hq, Hsub; [left|done].
Qed.

Lemma filter_length_full {A : Type} (P Q : A → Prop)
    `{!∀ x, Decision (P x)} `{!∀ x, Decision (Q x)} (l : list A) :
  (∀ x, x ∈ l → P x → Q x) →
  (length (filter Q l) ≤ length (filter P l))%nat →
  ∀ x, x ∈ l → Q x → P x.
Proof.
  induction l as [|a l IH]; intros Hsub Hlen x Hx HQ; [by apply elem_of_nil in Hx|].
  assert (∀ x, x ∈ l → P x → Q x) as Hsub' by (intros y Hy; apply Hsub; by right).
  pose proof (filter_length_mono P Q l Hsub') as Hmono.
  rewrite !filter_cons in Hlen.
  destruct (decide (P a)) as [Hp|Hp], (decide (Q a)) as [Hq|Hq]; simpl in Hlen.
  - apply elem_of_cons in Hx as [->|Hx]; [done|]. apply IH; [done|lia|done..].
  - exfalso. apply Hq, Hsub; [left|done].
  - lia.
  - apply elem_of_cons in Hx as [->|Hx]; [done|]. by apply IH.
Qed.

(** X9. When the adjacency grid is the one generated from the mines,
    every flag sits on a mine, no mine is revealed and the picked cell is
    not mined, the pick returns [True] and reveals no mine: chording is
    safe as long as the flags are right. *)
Theorem pick_square_safe_when_flags_right (set_order : gset (Z * Z) → list (Z * Z))
    (fuel : nat) (rs : random_source) (f f2 : Field) (mines : ndarray Z)
    (row_idx col_idx : Z) (auto_reveal alive : bool) :
  (∀ s, set_order s ≡ₚ elements s) → fair_shuffle rs → wf_field f →
  _mines f = Some mines →
  _adjacency_matrix f = Some (generate_adjacency_matrix mines) →
  in_bounds (rows f, cols f) (row_idx, col_idx) →
  (∀ q, in_bounds (rows f, cols f) q → cell (_flagged f) q ≠ 0 → cell mines q ≠ 0) →
  (∀ q, in_bounds (rows f, cols f) q → cell (_revealed f) q ≠ 0 → cell mines q = 0) →
  cell mines (row_idx, col_idx) = 0 →
  pick_square set_order fuel rs f row_idx col_idx auto_reveal = Ok (alive, f2) →
  alive = true ∧
  ∀ q, in_bounds (rows f, cols f) q → cell (_revealed f2) q ≠ 0 → cell mines q = 0.
Proof.
  intros Hso Hfair Hwf Hm Ha Hp Hflags Hclean Hseed H.
  assert (initialized f = true) as Hi by (unfold initialized; by rewrite Hm, Ha).
  pose proof H as H'.
  apply pick_square_frame in H' as (_ & _ & _ & _ & _ & Hsame & _); [|done..].
  destruct (Hsame Hi) as [Hm2 Ha2].
  apply pick_square_outcome in H as (mines' & adj' & upd & Hm' & Ha' & Hmarks & Hrev & Hal);
    [|done..].
  assert (mines' = mines) as -> by congruence.
  assert (adj' = generate_adjacency_matrix mines) as -> by congruence.
  pose proof Hwf as (_ & _ & [Hfs Hfw] & Hfb & Hma). rewrite Hm, Ha in Hma.
  destruct Hma as ([Hms Hmw] & Hmb & _).
  assert (∀ q, in_bounds (rows f, cols f) q → cell (_revealed f2) q ≠ 0 → cell mines q = 0)
    as Hsafe.
  { intros q Hq. rewrite Hrev. intros Hlor.
    destruct (decide (cell (_revealed f) q = 0)) as [E|E]; [|by apply Hclean].
    rewrite E, Z.lor_0_l in Hlor.
    destruct (decide (cell upd q = 1)) as [E1|E1].
    2:{ destruct Hmarks as (_ & Hb & _). destruct (binary_cell upd q Hb); done. }
    apply Hmarks in E1; [|done].
    apply flood_reach, reach_cases in E1 as [->|[[_ Hc] (p & Hrp & Hg & Hqp)]]; [done|].
    assert (in_bounds (rows f, cols f) p) as Hpb.
    { exact (reach_in_bounds _ _ _ (rows f, cols f) (conj Hfs Hfw) _ Hp p Hrp). }
    unfold gate_open in Hg.
    rewrite generate_adjacency_matrix_cell in Hg by (by rewrite ?Hms).
    apply Nat2Z.inj_le in Hg. unfold count_around in Hg. rewrite Hfs, Hms in Hg.
    rewrite Hfs in Hqp.
    destruct (decide (cell mines q = 0)) as [|Hmq]; [done|]. exfalso.
    apply (filter_length_full (λ q, cell (_flagged f) q ≠ 0) (λ q, cell mines q ≠ 0)
             (neighbourhood (rows f, cols f) p)) in Hmq; [done| |done..].
    intros x Hx. apply Hflags. by eapply neighbourhood_in_bounds. }
  split; [|done].
  destruct alive; [done|]. destruct (proj1 Hal eq_refl) as (q & Hq & Hmq & Hrq).
  by apply Hsafe in Hrq.
Qed.

Lemma pick_square_safe_when_flags_right_witness :
  ∃ alive f2,
    pick_square elements 40 rs_reverse field_3x3_flagged 1 1 true = Ok (alive, f2) ∧
    alive = true ∧
    ∀ q, in_bounds (rows field_3x3_flagged, cols field_3x3_flagged) q →
         cell (_revealed f2) q ≠ 0 → cell mines_3x3 q = 0.
Proof.
  assert (∀ (P : Z * Z → Prop),
            P (0, 0) → P (0, 1) → P (0, 2) → P (1, 0) → P (1, 1) → P (1, 2) →
            P (2, 0) → P (2, 1) → P (2, 2) →
            ∀ q, in_bounds (3%nat, 3%nat) q → P q) as Hall.
  { intros P ? ? ? ? ? ? ? ? ? [r c] [Hr Hc]. simpl in Hr, Hc.
    assert (r = 0 ∨ r = 1 ∨ r = 2) as [->|[->| ->]] by lia;
      assert (c = 0 ∨ c = 1 ∨ c = 2) as [->|[->| ->]] by lia; done. }
  eexists _, _. split; [vm_compute; reflexivity|].
  apply (pick_square_safe_when_flags_right elements 40 rs_reverse field_3x3_flagged _
           mines_3x3 1 1 true true).
  - apply elements_order.
  - apply rs_reverse_fair.
  - unfold wf_field, grid_of, well_formed, binary. simpl.
    split_and!; try reflexivity; unfold blank_3x3; simpl;
      repeat (apply Forall_cons_2; [lia|]); try apply Forall_nil_2.
  - reflexivity.
  - reflexivity.
  - vm_compute. intuition discriminate.
  - apply (Hall (λ q, cell (_flagged field_3x3_flagged) q ≠ 0 → cell mines_3x3 q ≠ 0));
      vm_compute; congruence.
  - apply (Hall (λ q, cell (_revealed field_3x3_flagged) q ≠ 0 → cell mines_3x3 q = 0));
      vm_compute; congruence.
  - reflexivity.
  - vm_compute. reflexivity.
Defined.

(** * The controller: status and cursor *)

Lemma handle_action_status (set_order : gset (Z * Z) → list (Z * Z)) (fuel : nat)
    (rs : random_source) (key : string) (c c' : FieldController) :
  handle_action set_order fuel rs key c = Ok c' →
  _status c' = _status c ∨ _status c' = Lost.
Proof.
  intros H. unfold handle_action in H.
  repeat case_bool_decide.
  - inv_bind H. injection H as <-. by left.
  - inv_bind H. destruct x as [[] f]; injection H as <-; [by left|by right].
  - injection H as <-. by left.
  - injection H as <-. by left.
  - injection H as <-. by left.
  - injection H as <-. by left.
  - injection H as <-. by left.
  - injection H as <-. by left.
Qed.

Lemma dispatch_lost (set_order : gset (Z * Z) → list (Z * Z)) (e : event)
    (c c' : FieldController) :
  _status c = Lost → dispatch set_order e c = Ok c' → _status c' = Lost.
Proof.
  intros Hl H. destruct e; simpl in H; try (injection H as <-; exact Hl).
  - apply handle_action_status in H as [->| ->]; done.
  - unfold evaluate_win_condition in H. rewrite bool_decide_eq_true_2 in H by done.
    by injection H as <-.
Qed.

(** X10. [Lost] is final: no key and no redraw changes the status of a
    lost game. *)
Theorem lost_is_final (set_order : gset (Z * Z) → list (Z * Z)) (es : list event)
    (c c' : FieldController) :
  _status c = Lost → run_events set_order es c = Ok c' → _status c' = Lost.
Proof.
  revert c. induction es as [|e es IH]; intros c Hl H; simpl in H.
  - by injection H as <-.
  - inv_bind H. eapply IH; [|done]. by eapply dispatch_lost.
Qed.

Lemma lost_is_final_witness :
  ∃ c', run_events elements more_events lost_2x2 = Ok c' ∧ _status c' = Lost.
Proof.
  eexists. split; [vm_compute; reflexivity|].
  apply (lost_is_final elements more_events lost_2x2).
  - reflexivity.
  - vm_compute. reflexivity.
Defined.

Lemma pick_square_dims (set_order : gset (Z * Z) → list (Z * Z)) (fuel : nat)
    (rs : random_source) (f f2 : Field) (row_idx col_idx : Z) (auto_reveal alive : bool) :
  pick_square set_order fuel rs f row_idx col_idx auto_reveal = Ok (alive, f2) →
  rows f2 = rows f ∧ cols f2 = cols f.
Proof.
  intros H.
  apply pick_square_Ok in H
    as (f1 & adj & mines & upd & revealed & hit & H1 & _ & _ & _ & _ & -> & _ & _).
  simpl. destruct (initialized f).
  - by injection H1 as <-.
  - unfold _initialize in H1. inv_bind H1. by injection H1 as <-.
Qed.

Lemma toggle_flag_square_dims (f f' : Field) (row_idx col_idx : Z) :
  toggle_flag_square f row_idx col_idx = Ok f' → rows f' = rows f ∧ cols f' = cols f.
Proof. by intros [->|[flagged ->]]%toggle_flag_square_steps. Qed.

Lemma evaluate_win_condition_steps (c c' : FieldController) :
  evaluate_win_condition c = Ok c' → c' = c ∨ c' = set_status c Won.
Proof.
  intros H. unfold evaluate_win_condition in H.
  case_bool_decide; [left; by injection H as <-|].
  destruct (initialized (_field c)); simpl in H; [|left; by injection H as <-].
  destruct (_mines (_field c)); [|done]. inv_bind H.
  destruct (np_all x); injection H as <-; [by right|by left].
Qed.

Lemma dispatch_cursor (set_order : gset (Z * Z) → list (Z * Z)) (e : event)
    (c c' : FieldController) :
  cursor_in_bounds c → dispatch set_order e c = Ok c' → cursor_in_bounds c'.
Proof.
  unfold cursor_in_bounds, in_bounds. simpl. intros Hc H.
  destruct e; simpl in H; try (injection H as <-; simpl; lia).
  - unfold handle_action in H. repeat case_bool_decide.
    + inv_bind H. injection H as <-. simpl.
      apply toggle_flag_square_dims in Hx as [-> ->]. done.
    + inv_bind H. destruct x as [alive f]. apply pick_square_dims in Hx as [Hr Hk].
      destruct alive; injection H as <-; simpl; by rewrite Hr, Hk.
    + injection H as <-. simpl. lia.
    + injection H as <-. simpl. lia.
    + injection H as <-. simpl. lia.
    + injection H as <-. simpl. lia.
    + by injection H as <-.
    + by injection H as <-.
  - by apply evaluate_win_condition_steps in H as [->| ->].
Qed.

Lemma run_events_cursor (set_order : gset (Z * Z) → list (Z * Z)) (es : list event)
    (c c' : FieldController) :
  cursor_in_bounds c → run_events set_order es c = Ok c' → cursor_in_bounds c'.
Proof.
  revert c. induction es as [|e es IH]; intros c Hc H; simpl in H.
  - by injection H as <-.
  - inv_bind H. eapply IH; [|done]. by eapply dispatch_cursor.
Qed.

Lemma run_events_inv (set_order : gset (Z * Z) → list (Z * Z)) (es : list event)
    (c c' : FieldController) :
  Forall fair_event es → controller_inv c →
  run_events set_order es c = Ok c' → controller_inv c'.
Proof.
  intros Hfair. revert c. induction Hfair as [|e es He Hes IH]; intros c Hc H; simpl in H.
  - by injection H as <-.
  - inv_bind H. eapply IH; [|done]. by eapply dispatch_inv.
Qed.

(** X11. In a game started by [create_app] with at least one row and one
    column the cursor stays on a cell of the field whatever keys are
    pressed, and so the [f] key never raises. *)
Theorem cursor_stays_on_the_field (set_order : gset (Z * Z) → list (Z * Z))
    (num_rows num_cols : Z) (ratio : float) (es : list event) (c0 c : FieldController) :
  0 < num_rows → 0 < num_cols →
  create_app num_rows num_cols ratio = Ok c0 →
  Forall fair_event es →
  run_events set_order es c0 = Ok c →
  cursor_in_bounds c ∧
  ∀ fuel rs, ∃ c', handle_action set_order fuel rs "f" c = Ok c'.
Proof.
  intros Hr Hc H0 Hfair H.
  assert (cursor_in_bounds c0 ∧ controller_inv c0) as [Hcur0 Hinv0].
  { unfold create_app in H0. inv_bind H0. injection H0 as <-.
    destruct (Field_init_wf _ _ _ _ Hx) as [Hwf Hi].
    unfold Field_init in Hx. case_bool_decide; [|done]. injection Hx as <-.
    split.
    - unfold cursor_in_bounds, in_bounds. simpl. lia.
    - split; [done|]. done. }
  pose proof (run_events_cursor _ _ _ _ Hcur0 H) as Hcur.
  pose proof (run_events_inv _ _ _ _ Hfair Hinv0 H) as [Hwf _].
  split; [done|]. intros fuel rs. unfold handle_action.
  rewrite bool_decide_eq_true_2 by done.
  destruct (decide (cell (_revealed (_field c)) (_cursor_row c, _cursor_col c) = 0)).
  - rewrite toggle_flag_square_unrevealed by done. by eexists.
  - rewrite toggle_flag_square_revealed by done. by eexists.
Qed.

Lemma cursor_stays_on_the_field_witness :
  ∃ c0 c,
    create_app 2 2 0.5%float = Ok c0 ∧
    run_events elements more_events c0 = Ok c ∧
    cursor_in_bounds c ∧
    ∀ fuel rs, ∃ c', handle_action elements fuel rs "f" c = Ok c'.
Proof.
  eexists _, _. split; [reflexivity|]. split; [vm_compute; reflexivity|].
  eapply (cursor_stays_on_the_field elements 2 2 0.5%float more_events).
  - lia.
  - lia.
  - reflexivity.
  - unfold more_events.
    repeat (apply Forall_cons_2; [try exact I; apply rs_reverse_fair|]).
    apply Forall_nil_2.
  - vm_compute. reflexivity.
Defined.

(** X12. Pressing [x] with the cursor on a mined cell of an initialized
    field loses the game, whatever the status, the chord setting and the
    flags are: neither a flag on the cell nor a game already won stops
    the pick. *)
Theorem picking_a_mine_loses (set_order : gset (Z * Z) → list (Z * Z))
    (rs : random_source) (c : FieldController) (mines : ndarray Z) :
  (∀ s, set_order s ≡ₚ elements s) → fair_shuffle rs →
  wf_field (_field c) → initialized (_field c) = true →
  _mines (_field c) = Some mines →
  cursor_in_bounds c →
  cell mines (_cursor_row c, _cursor_col c) ≠ 0 →
  ∃ fuel, ∀ fuel', (fuel ≤ fuel')%nat →
    ∃ c', handle_action set_order fuel' rs "x" c = Ok c' ∧ _status c' = Lost.
Proof.
  intros Hso Hfair Hwf Hi Hm Hcur Hmine.
  destruct (pick_square_returns set_order rs (_field c) (_cursor_row c) (_cursor_col c)
              (_auto_reveal c) Hso Hwf Hi Hcur) as (fuel & alive & f2 & Hpick).
  exists fuel. intros fuel' Hle. specialize (Hpick fuel' Hle).
  unfold handle_action. rewrite bool_decide_eq_false_2 by done.
  rewrite bool_decide_eq_true_2 by done. rewrite Hpick. simpl.
  assert (alive = false) as ->; [|by eexists].
  pose proof Hpick as H'.
  apply pick_square_frame in H' as (_ & _ & _ & _ & _ & Hsame & _); [|done..].
  destruct (Hsame Hi) as [Hm2 _].
  apply pick_square_outcome in Hpick
    as (mines' & adj & upd & Hm' & _ & Hmarks & Hrev & Hal); [|done..].
  assert (mines' = mines) as -> by congruence.
  apply Hal. exists (_cursor_row c, _cursor_col c). split_and!; [done..|].
  rewrite Hrev.
  assert (cell upd (_cursor_row c, _cursor_col c) = 1) as ->.
  { apply Hmarks; [done|]. apply flood_seed. }
  intros [_ ?]%Z.lor_eq_0_iff. done.
Qed.

Lemma picking_a_mine_loses_witness :
  _status won_2x2 = Won ∧ cell (_flagged (_field won_2x2)) (1, 0) = 0 ∧
  ∃ fuel, ∀ fuel', (fuel ≤ fuel')%nat →
    ∃ c', handle_action elements fuel' rs_reverse "x" won_2x2 = Ok c' ∧ _status c' = Lost.
Proof.
  split; [reflexivity|]. split; [reflexivity|].
  apply (picking_a_mine_loses elements rs_reverse won_2x2 mines_2x2).
  - apply elements_order.
  - apply rs_reverse_fair.
  - unfold wf_field, grid_of, well_formed, binary. simpl.
    split_and!; try reflexivity;
      repeat (apply Forall_cons_2; [lia|]); apply Forall_nil_2.
  - reflexivity.
  - reflexivity.
  - vm_compute. intuition discriminate.
  - vm_compute. discriminate.
Defined.

(** * Losing *)

Lemma pick_square_alive (set_order : gset (Z * Z) → list (Z * Z)) (fuel : nat)
    (rs : random_source) (f f2 : Field) (row_idx col_idx : Z) (auto_reveal alive : bool) :
  fair_shuffle rs → wf_field f →
  pick_square set_order fuel rs f row_idx col_idx auto_reveal = Ok (alive, f2) →
  wf_field f2 ∧ (alive = false ↔ mine_revealed f2) ∧ (mine_revealed f → mine_revealed f2).
Proof.
  intros Hfair Hwf H. pose proof H as H'.
  apply pick_square_frame in H' as (Hwf2 & _ & Hrows & Hcols & _ & Hsame & Hmono);
    [|done..].
  apply pick_square_Ok in H
    as (f1 & adj & mines & upd & revealed & hit & _ & Ha & Hm & _ & _ & -> & Hhit & ->).
  split; [done|]. simpl in *.
  pose proof Hwf2 as (Hr & _ & _ & _ & Hma). simpl in Hr, Hma. rewrite Hm, Ha in Hma.
  destruct Hma as (Hmg & _ & _).
  apply np_zip_Ok in Hhit as [Hsh ->].
  assert (∀ q, cell (mk_ndarray (shape mines) (zip_with Z.mul (data mines) (data revealed))) q
               = cell mines q * cell revealed q) as Hcell.
  { intros q. apply (cell_zip_with Z.mul mines revealed); [done..|].
    destruct Hmg as [Hm1 Hm2], Hr as [Hr1 Hr2]. unfold well_formed in *.
    by rewrite Hm2, Hr2, Hm1, Hr1. }
  split.
  - rewrite negb_false_iff, (np_any_cell (rows f1, cols f1)) by (by apply zip_with_grid).
    unfold mine_revealed. simpl. rewrite Hm. split.
    + intros (q & Hq & Hc). rewrite Hcell in Hc. exists mines, q. split_and!; [done..|nia|nia].
    + intros (mines' & q & [= <-] & Hq & Hc1 & Hc2). exists q. split; [done|].
      rewrite Hcell. nia.
  - intros (mines' & q & Hm' & Hq & Hc1 & Hc2).
    assert (initialized f = true) as Hi.
    { destruct Hwf as (_ & _ & _ & _ & Hma). unfold initialized. rewrite Hm' in *.
      by destruct (_adjacency_matrix f). }
    destruct (Hsame Hi) as [Hm2 _]. simpl in Hm2.
    exists mines', q. simpl. split_and!; [congruence|by rewrite Hrows, Hcols|done|].
    by apply Hmono.
Qed.

(** What holds of the status in every reachable controller state. *)
Lemma dispatch_lost_iff (set_order : gset (Z * Z) → list (Z * Z)) (e : event)
    (c c' : FieldController) :
  fair_event e →
  wf_field (_field c) ∧ (_status c = Lost ↔ mine_revealed (_field c)) →
  dispatch set_order e c = Ok c' →
  wf_field (_field c') ∧ (_status c' = Lost ↔ mine_revealed (_field c')).
Proof.
  intros Hfair [Hwf Hiff] H.
  destruct e; simpl in H; try (injection H as <-; by split).
  - unfold handle_action in H. repeat case_bool_decide.
    + inv_bind H. injection H as <-. simpl.
      apply toggle_flag_square_frame in Hx as (Hwf' & Hr & Hk & Hrev & Hm & _); [|done].
      split; [done|]. rewrite Hiff. unfold mine_revealed. by rewrite Hr, Hk, Hrev, Hm.
    + inv_bind H. destruct x as [alive f2].
      apply pick_square_alive in Hx as (Hwf2 & Hal & Hkeep); [|done..].
      destruct alive; injection H as <-; simpl.
      * split; [done|]. split.
        -- intros Hl. by apply Hkeep, Hiff.
        -- intros Hmr. by apply Hal in Hmr.
      * split; [done|]. split; [intros _; by apply Hal|done].
    + injection H as <-. by split.
    + injection H as <-. by split.
    + injection H as <-. by split.
    + injection H as <-. by split.
    + injection H as <-. by split.
    + injection H as <-. by split.
  - pose proof H as H'. apply evaluate_win_condition_steps in H' as [->| ->]; [by split|].
    simpl. split; [done|]. rewrite <- Hiff. split; [done|]. intros Hl.
    unfold evaluate_win_condition in H. rewrite bool_decide_eq_true_2 in H by done.
    injection H as H. apply (f_equal _status) in H. simpl in H. congruence.
Qed.

(** X13. In every state of a running game the status is [Lost] exactly
    when some mined cell is revealed. *)
Theorem lost_iff_mine_revealed (set_order : gset (Z * Z) → list (Z * Z))
    (c : FieldController) :
  reachable set_order c →
  (_status c = Lost ↔ mine_revealed (_field c)).
Proof.
  intros (rows & cols & ratio & c0 & es & Hc0 & Hfair & Hrun).
  assert (wf_field (_field c0) ∧ (_status c0 = Lost ↔ mine_revealed (_field c0))) as Hinv0.
  { unfold create_app in Hc0. inv_bind Hc0. injection Hc0 as <-.
    pose proof Hx as Hx'. apply Field_init_wf in Hx' as [Hwf _]. split; [done|]. simpl.
    unfold Field_init in Hx. case_bool_decide; [|done]. injection Hx as <-.
    split; [done|]. by intros (mines & q & [=] & _). }
  clear Hc0. cut (wf_field (_field c) ∧ (_status c = Lost ↔ mine_revealed (_field c)));
    [tauto|].
  revert c0 Hinv0 Hrun.
  induction Hfair as [|e es He Hes IH]; intros c0 Hinv0 Hrun; simpl in Hrun.
  - by injection Hrun as <-.
  - inv_bind Hrun. eapply IH; [|exact Hrun]. by eapply dispatch_lost_iff.
Qed.

Lemma lost_iff_mine_revealed_witness :
  ∃ c, game_2x2 = Ok c ∧ (_status c = Lost ↔ mine_revealed (_field c)).
Proof.
  eexists. split; [vm_compute; reflexivity|].
  apply (lost_iff_mine_revealed elements).
  exists 2, 2, 0.5%float. eexists. exists game_2x2_events. split_and!.
  - reflexivity.
  - unfold game_2x2_events.
    repeat (apply Forall_cons_2; [try exact I; apply rs_reverse_fair|]).
    apply Forall_nil_2.
  - vm_compute. reflexivity.
Defined.

(** * Finished games *)

Lemma dispatch_finished (set_order : gset (Z * Z) → list (Z * Z)) (e : event)
    (c c' : FieldController) :
  _status c ≠ Playing → dispatch set_order e c = Ok c' → _status c' ≠ Playing.
Proof.
  intros Hf H. destruct e; simpl in H; try (injection H as <-; exact Hf).
  - apply handle_action_status in H as [->| ->]; done.
  - by apply evaluate_win_condition_steps in H as [->| ->].
Qed.

(** X14. A finished game never resumes: once the status is [Won] or
    [Lost] no key and no redraw brings it back to [Playing]. *)
Theorem finished_game_never_resumes (set_order : gset (Z * Z) → list (Z * Z))
    (es : list event) (c c' : FieldController) :
  _status c ≠ Playing → run_events set_order es c = Ok c' → _status c' ≠ Playing.
Proof.
  revert c. induction es as [|e es IH]; intros c Hf H; simpl in H.
  - by injection H as <-.
  - inv_bind H. eapply IH; [|done]. by eapply dispatch_finished.
Qed.

Lemma finished_game_never_resumes_witness :
  ∃ c', run_events elements more_events won_2x2 = Ok c' ∧ _status c' ≠ Playing.
Proof.
  eexists. split; [vm_compute; reflexivity|].
  apply (finished_game_never_resumes elements more_events won_2x2).
  - discriminate.
  - vm_compute. reflexivity.
Defined.

(** X15. Evaluating the win condition twice is evaluating it once: the
    state a redraw leaves is not changed by the next redraw. *)
Theorem evaluate_win_condition_idempotent (c c' : FieldController) :
  evaluate_win_condition c = Ok c' → evaluate_win_condition c' = Ok c'.
Proof.
  intros H. pose proof H as [->| ->]%evaluate_win_condition_steps; [done|].
  unfold evaluate_win_condition. simpl.
  destruct (initialized (_field c)) eqn:Ei; simpl; [|done].
  unfold evaluate_win_condition in H. rewrite Ei in H. simpl in H.
  case_bool_decide as Hl; [|destruct (_mines (_field c))].
  - injection H as H. apply (f_equal _status) in H. simpl in H. congruence.
  - inv_bind H. rewrite Hx. simpl. by destruct (np_all x).
  - done.
Qed.

Lemma evaluate_win_condition_idempotent_witness :
  evaluate_win_condition (set_status won_2x2 Playing) = Ok won_2x2 ∧
  evaluate_win_condition won_2x2 = Ok won_2x2.
Proof.
  split; [vm_compute; reflexivity|].
  apply (evaluate_win_condition_idempotent (set_status won_2x2 Playing) won_2x2).
  vm_compute. reflexivity.
Defined.

(** * Rendering *)

Lemma omapM_Ok {A B : Type} (f : A → outcome B) (l : list A) :
  (∀ x, x ∈ l → ∃ y, f x = Ok y) →
  ∃ ys, omapM f l = Ok ys ∧ Forall2 (λ x y, f x = Ok y) l ys.
Proof.
  induction l as [|x l IH]; intros H.
  - exists []. by split.
  - destruct (H x) as [y Hy]; [by left|].
    destruct IH as (ys & Hys & HF); [intros z Hz; apply H; by right|].
    exists (y :: ys). simpl. rewrite Hy. simpl. rewrite Hys. simpl. split; [done|].
    by constructor.
Qed.

Lemma run_ops_wf (set_order : gset (Z * Z) → list (Z * Z)) (os : list op) (f f' : Field) :
  wf_field f → Forall fair_op os → run_ops set_order os f = Ok f' → wf_field f'.
Proof.
  intros Hwf Hfair. revert f Hwf.
  induction Hfair as [|o os Ho Hos IH]; intros f Hwf H; simpl in H.
  - by injection H as <-.
  - inv_bind H. eapply IH; [|done]. by eapply run_op_keeps.
Qed.

Lemma run_ops_consistent (set_order : gset (Z * Z) → list (Z * Z)) (os : list op)
    (f0 f f' : Field) :
  consistent f0 f → Forall fair_op os → run_ops set_order os f = Ok f' → consistent f0 f'.
Proof.
  intros Hc Hfair. revert f Hc.
  induction Hfair as [|o os Ho Hos IH]; intros f Hc H; simpl in H.
  - by injection H as <-.
  - inv_bind H. eapply IH; [|done]. by eapply consistent_run_op.
Qed.

Lemma Field_init_consistent (num_rows num_cols : Z) (ratio : float) (f0 : Field) :
  Field_init num_rows num_cols ratio = Ok f0 → consistent f0 f0.
Proof.
  intros H0. unfold Field_init in H0. case_bool_decide; [|done]. injection H0 as <-.
  unfold consistent. simpl. split_and!; try done. intros q. apply cell_zeros.
Qed.

Lemma render_square_Ok (FLAG UNKNOWN MINE BLANK : list N) (f : Field) (p : Z * Z) :
  wf_field f → (initialized f = false → ∀ q, cell (_revealed f) q = 0) →
  in_bounds (rows f, cols f) p →
  ∃ s, render_square FLAG UNKNOWN MINE BLANK f p = Ok s ∧
       (cell (_revealed f) p = 0 →
        s = if decide (cell (_flagged f) p = 0) then UNKNOWN else FLAG).
Proof.
  intros ([Hrs Hrw] & _ & [Hfs Hfw] & _ & Hma) Hun Hp. unfold render_square.
  rewrite (np_get_in_bounds (_revealed f) p) by (by rewrite ?Hrs). simpl.
  destruct (truthy (cell (_revealed f) p)) eqn:Er; simpl.
  - apply truthy_true in Er.
    unfold initialized in Hun.
    destruct (_mines f) as [mines|], (_adjacency_matrix f) as [adj|]; try done.
    2:{ exfalso. apply Er. by apply Hun. }
    destruct Hma as ([Hms Hmw] & _ & [Has Haw]).
    rewrite (np_get_in_bounds mines p) by (by rewrite ?Hms). simpl.
    destruct (truthy (cell mines p)); [by eexists|].
    rewrite (np_get_in_bounds adj p) by (by rewrite ?Has). simpl.
    destruct (bool_decide (cell adj p = 0)); by eexists.
  - apply truthy_false in Er.
    rewrite (np_get_in_bounds (_flagged f) p) by (by rewrite ?Hfs). simpl.
    eexists. split; [done|]. intros _.
    destruct (decide (cell (_flagged f) p = 0)) as [E|E].
    + by rewrite (proj2 (truthy_false _) E).
    + by rewrite (proj2 (truthy_true _) E).
Qed.

(** X16. On every field reached from [Field(rows, cols, ratio)] by picks
    and toggles [render_field] returns, also before the first pick when
    there are no mines to index: a list of [rows] rows; its entry for a
    cell of the field exists, and for a covered cell it is the flag icon
    if the cell is flagged and the unknown icon otherwise. *)
Theorem render_field_returns (FLAG UNKNOWN MINE BLANK : list N)
    (set_order : gset (Z * Z) → list (Z * Z)) (num_rows num_cols : Z) (ratio : float) (os : list op) (f0 f : Field) :
  Field_init num_rows num_cols ratio = Ok f0 →
  Forall fair_op os →
  run_ops set_order os f0 = Ok f →
  ∃ rep, render_field FLAG UNKNOWN MINE BLANK f = Ok rep ∧
         length rep = rows f ∧
         ∀ r c, (r < rows f)%nat → (c < cols f)%nat →
           ∃ s, rep !! r ≫= (.!! c) = Some s ∧
                (cell (_revealed f) (Z.of_nat r, Z.of_nat c) = 0 →
                 s = if decide (cell (_flagged f) (Z.of_nat r, Z.of_nat c) = 0)
                     then UNKNOWN else FLAG).
Proof.
  intros H0 Hfair H.
  assert (wf_field f) as Hwf.
  { apply Field_init_wf in H0 as [Hwf0 _]. by eapply run_ops_wf. }
  assert (initialized f = false → ∀ q, cell (_revealed f) q = 0) as Hun.
  { apply Field_init_consistent in H0.
    destruct (run_ops_consistent _ _ _ _ _ H0 Hfair H) as (_ & _ & _ & Hc).
    unfold initialized.
    destruct (_mines f), (_adjacency_matrix f); try done. }
  unfold render_field.
  destruct (omapM_Ok
              (λ row_idx,
                 omapM (λ col_idx, render_square FLAG UNKNOWN MINE BLANK f (row_idx, col_idx))
                   (seqZ 0 (Z.of_nat (cols f))))
              (seqZ 0 (Z.of_nat (rows f)))) as (rep & Hrep & HF).
  { intros r Hr%elem_of_seqZ.
    destruct (omapM_Ok (λ col_idx, render_square FLAG UNKNOWN MINE BLANK f (r, col_idx))
                (seqZ 0 (Z.of_nat (cols f)))) as (row & Hrow & _); [|by exists row].
    intros c Hc%elem_of_seqZ.
    destruct (render_square_Ok FLAG UNKNOWN MINE BLANK f (r, c) Hwf Hun) as (s & Hs & _); [|by exists s].
    unfold in_bounds. simpl. lia. }
  exists rep. split; [done|]. split.
  { apply Forall2_length in HF. rewrite length_seqZ in HF. lia. }
  intros r c Hr Hc.
  assert (seqZ 0 (Z.of_nat (rows f)) !! r = Some (Z.of_nat r)) as Hlr.
  { apply lookup_seqZ. lia. }
  destruct (Forall2_lookup_l _ _ _ _ _ HF Hlr) as (row & Hrow & Hrow').
  destruct (omapM_Ok (λ col_idx, render_square FLAG UNKNOWN MINE BLANK f (Z.of_nat r, col_idx))
              (seqZ 0 (Z.of_nat (cols f)))) as (row2 & Hrow2 & HF2).
  { intros c' Hc'%elem_of_seqZ.
    destruct (render_square_Ok FLAG UNKNOWN MINE BLANK f (Z.of_nat r, c') Hwf Hun) as (s & Hs & _); [|by exists s].
    unfold in_bounds. simpl. lia. }
  rewrite Hrow2 in Hrow'. injection Hrow' as ->.
  assert (seqZ 0 (Z.of_nat (cols f)) !! c = Some (Z.of_nat c)) as Hlc.
  { apply lookup_seqZ. lia. }
  destruct (Forall2_lookup_l _ _ _ _ _ HF2 Hlc) as (s & Hs & Hs').
  exists s. rewrite Hrow. simpl. split; [done|].
  destruct (render_square_Ok FLAG UNKNOWN MINE BLANK f (Z.of_nat r, Z.of_nat c) Hwf Hun) as (s' & Hs'' & Hcov).
  { unfold in_bounds. simpl. lia. }
  rewrite Hs' in Hs''. injection Hs'' as <-. done.
Qed.
Lemma render_field_returns_witness :
  ∃ f, run_ops elements ops_2x2 field_2x2 = Ok f ∧
  ∃ rep, render_field (py_lit "F") (py_lit "?") (py_lit "*") (py_lit " ") f = Ok rep ∧
         length rep = rows f ∧
         ∀ r c, (r < rows f)%nat → (c < cols f)%nat →
           ∃ s, rep !! r ≫= (.!! c) = Some s ∧
                (cell (_revealed f) (Z.of_nat r, Z.of_nat c) = 0 →
                 s = if decide (cell (_flagged f) (Z.of_nat r, Z.of_nat c) = 0)
                     then py_lit "?" else py_lit "F").
Proof.
  eexists. split; [vm_compute; reflexivity|].
  apply (render_field_returns (py_lit "F") (py_lit "?") (py_lit "*") (py_lit " ")
           elements 2 2 0.5%float ops_2x2 field_2x2).
  - reflexivity.
  - unfold ops_2x2. repeat (apply Forall_cons_2; [try exact I; apply rs_reverse_fair|]).
    apply Forall_nil_2.
  - vm_compute. reflexivity.
Defined.

(** * The older flood fill, [update_revelation_matrix] *)

Lemma list_pop_app {A : Type} (l : list A) (x : A) : list_pop (l ++ [x]) = Some (x, l).
Proof. unfold list_pop. rewrite reverse_app. simpl. by rewrite reverse_involutive. Qed.

Lemma list_pop_Some {A : Type} (l r : list A) (x : A) :
  list_pop l = Some (x, r) → l = r ++ [x].
Proof.
  unfold list_pop. destruct (reverse l) as [|y t] eqn:E; [done|].
  intros [= -> <-]. rewrite <- (reverse_involutive l), E.
  by rewrite reverse_cons.
Qed.

Lemma elem_of_block (p q : Z * Z) :
  q ∈ block p ↔ p.1 - 1 ≤ q.1 ≤ p.1 + 1 ∧ p.2 - 1 ≤ q.2 ≤ p.2 + 1.
Proof.
  unfold block. destruct q as [r c]. rewrite list_elem_of_cprod. simpl.
  rewrite !elem_of_seqZ. lia.
Qed.

Lemma block_length (p : Z * Z) : length (block p) = 9%nat.
Proof. unfold block. by rewrite !seqZ_3. Qed.

Lemma block_universe (sh : nat * nat) (seed p q : Z * Z) :
  in_bounds sh p → q ∈ block p → q ∈ universe sh seed.
Proof.
  intros [H1 H2] Hq%elem_of_block. unfold universe. apply elem_of_union. right.
  apply elem_of_list_to_set. destruct q as [r c]. apply list_elem_of_cprod. simpl in *.
  rewrite !elem_of_seqZ. lia.
Qed.

Ltac in_grid G := solve [exact (proj2 G) | rewrite (proj1 G); assumption].

Section update_facts.
Variables mines flagged adjacency_matrix revealed : ndarray Z.
Variable sh : nat * nat.
Hypothesis mines_grid : grid_of sh mines.
Hypothesis flagged_grid : grid_of sh flagged.
Hypothesis adjacency_grid : grid_of sh adjacency_matrix.
Hypothesis revealed_grid : grid_of sh revealed.

Lemma checked_insert_old (checked : gset (Z + Z * Z)) (x : Z * Z) :
  inr x ∈ checked → {[inr x]} ∪ checked = checked.
Proof. intros Hx. apply subseteq_union_1_L. by apply singleton_subseteq_l. Qed.

Lemma unchecked_insert_new (U : gset (Z * Z)) (checked : gset (Z + Z * Z)) (x : Z * Z) :
  x ∈ U → inr x ∉ checked →
  (size (unchecked U ({[inr x]} ∪ checked)) < size (unchecked U checked))%nat.
Proof.
  intros HU Hx. apply subset_size. split.
  - intros q [Hq1 Hq2]%elem_of_filter. apply elem_of_filter. split; [|done].
    intros Hc. apply Hq1. apply elem_of_union. by right.
  - intros Hsub. assert (x ∈ unchecked U ({[inr x]} ∪ checked)) as [Hn _]%elem_of_filter.
    { apply Hsub. by apply elem_of_filter. }
    apply Hn. apply elem_of_union. left. by apply elem_of_singleton.
Qed.

Lemma top_checked_le (to_test : list (Z * Z)) (checked : gset (Z + Z * Z)) :
  (top_checked to_test checked ≤ 10)%nat.
Proof.
  unfold top_checked. destruct (list_pop to_test) as [[x r]|]; [|lia].
  destruct (decide (inr x ∈ checked)); lia.
Qed.

Lemma top_checked_new (to_test new : list (Z * Z)) (checked : gset (Z + Z * Z)) :
  new ≠ [] → (∀ y, y ∈ new → inr y ∉ checked) →
  top_checked (to_test ++ new) checked = 0%nat.
Proof.
  intros Hne Hnew. destruct (decide (new = [])) as [|_]; [done|].
  assert (∃ l y, new = l ++ [y]) as (l & y & ->).
  { destruct (reverse new) as [|y l] eqn:E.
    - apply (f_equal reverse) in E. rewrite reverse_involutive in E. done.
    - exists (reverse l), y. rewrite <- (reverse_involutive new), E.
      by rewrite reverse_cons. }
  unfold top_checked. rewrite app_assoc, list_pop_app.
  rewrite decide_False; [done|]. apply Hnew. apply elem_of_app. right. by left.
Qed.

Lemma update_loop_returns (seed : Z * Z) (fuel : nat) (to_test : list (Z * Z))
    (checked : gset (Z + Z * Z)) (upd : ndarray Z) :
  grid_of sh upd →
  (∀ x, x ∈ to_test → x ∈ universe sh seed) →
  (update_measure (universe sh seed) to_test checked < fuel)%nat →
  ∃ r, update_loop mines flagged adjacency_matrix revealed fuel to_test checked upd = Ok r.
Proof.
  revert to_test checked upd.
  induction fuel as [|fuel IH]; intros to_test checked upd Hg HU Hlt; [lia|].
  simpl. destruct (list_pop to_test) as [[item rest]|] eqn:Epop; [|by eexists].
  apply list_pop_Some in Epop as ->.
  assert (item ∈ universe sh seed) as Hitem_U.
  { apply HU. apply elem_of_app. right. by left. }
  assert (∀ x, x ∈ rest → x ∈ universe sh seed) as HU'.
  { intros x Hx. apply HU. apply elem_of_app. by left. }
  unfold update_measure in Hlt. unfold top_checked in Hlt at 1.
  rewrite list_pop_app, length_app in Hlt. simpl in Hlt.
  (* what one iteration that appends [new] leaves to be done *)
  assert (∀ new upd',
            grid_of sh upd' →
            (∀ y, y ∈ new → (inr y ∉ checked) ∧ y ∈ universe sh seed) →
            (length new ≤ 9)%nat →
            ∃ r, update_loop mines flagged adjacency_matrix revealed fuel (rest ++ new)
                   ({[inr item]} ∪ checked) upd' = Ok r) as Hnext.
  { intros new upd' Hg' Hnew Hlen. apply IH; [done| |].
    - intros x [Hx|Hx]%elem_of_app; [by apply HU'|by apply Hnew].
    - unfold update_measure. rewrite length_app.
      destruct (decide (inr item ∈ checked)) as [Hc|Hc].
      + rewrite checked_insert_old by done.
        destruct (decide (new = [])) as [->|Hne].
        * rewrite app_nil_r. simpl. pose proof (top_checked_le rest checked). lia.
        * rewrite top_checked_new; [lia|done|]. intros y Hy. by apply Hnew.
      + pose proof (unchecked_insert_new (universe sh seed) checked item Hitem_U Hc).
        pose proof (top_checked_le (rest ++ new) ({[inr item]} ∪ checked)). lia. }
  assert (∀ upd', grid_of sh upd' →
            ∃ r, update_loop mines flagged adjacency_matrix revealed fuel rest
                   ({[inr item]} ∪ checked) upd' = Ok r) as Hskip.
  { intros upd' Hg'. destruct (Hnext [] upd' Hg') as [r Hr].
    - intros y Hy. by apply elem_of_nil in Hy.
    - simpl. lia.
    - rewrite app_nil_r in Hr. by exists r. }
  rewrite (proj1 adjacency_grid).
  case_bool_decide as Hb; [by apply Hskip|].
  assert (in_bounds sh item) as Hitem by (unfold in_bounds; lia).
  rewrite (np_get_in_bounds revealed item) by in_grid revealed_grid.
  simpl. destruct (truthy (cell revealed item)); [by apply Hskip|].
  rewrite (np_get_in_bounds adjacency_matrix item) by in_grid adjacency_grid.
  simpl.
  assert (∃ upd', np_set upd item 1 = Ok upd' ∧ grid_of sh upd') as (upd' & Hs & Hg').
  { eexists. split.
    - apply np_set_in_bounds; in_grid Hg.
    - by apply grid_of_insert. }
  case_bool_decide as Ha.
  - rewrite Hs. simpl. apply Hnext; [done| |].
    + intros y [Hy1 Hy2]%list_elem_of_filter. split; [done|].
      by eapply block_universe.
    + etrans; [apply length_filter|]. by rewrite block_length.
  - rewrite (np_get_in_bounds mines item) by in_grid mines_grid.
    simpl. destruct (truthy (cell mines item)); simpl; [by apply Hskip|].
    rewrite (np_get_in_bounds flagged item) by in_grid flagged_grid.
    simpl. destruct (truthy (cell flagged item)); simpl; [by apply Hskip|].
    rewrite Hs. simpl. by apply Hskip.
Qed.
End update_facts.

Lemma update_revelation_matrix_exists (mines flagged adjacency_matrix revealed : ndarray Z)
    (sh : nat * nat) (row_idx col_idx : Z) :
  grid_of sh mines → grid_of sh flagged → grid_of sh adjacency_matrix →
  grid_of sh revealed →
  ∃ fuel r, update_revelation_matrix mines flagged adjacency_matrix revealed
              fuel row_idx col_idx = Ok r.
Proof.
  intros Hm Hf Ha Hr.
  exists (S (update_measure (universe sh (row_idx, col_idx)) (block (row_idx, col_idx))
               {[inl row_idx; inl col_idx]})).
  apply (update_loop_returns mines flagged adjacency_matrix revealed sh Hm Hf Ha Hr
           (row_idx, col_idx)).
  - rewrite (proj1 Hr). apply np_zeros_grid.
  - intros x Hx. unfold universe. apply elem_of_union. left. by apply elem_of_list_to_set.
  - lia.
Qed.

(** X17. [update_revelation_matrix] returns an update grid for every
    position, inside the grid or not: it checks the bounds itself, never
    raises and its loop terminates. *)
Theorem update_revelation_matrix_returns (mines flagged adjacency_matrix revealed : ndarray Z)
    (sh : nat * nat) (row_idx col_idx : Z) :
  grid_of sh mines → grid_of sh flagged → grid_of sh adjacency_matrix →
  grid_of sh revealed →
  ∃ fuel, ∀ fuel', (fuel ≤ fuel')%nat →
    ∃ r, update_revelation_matrix mines flagged adjacency_matrix revealed
           fuel' row_idx col_idx = Ok r.
Proof.
  intros Hm Hf Ha Hr.
  exists (S (update_measure (universe sh (row_idx, col_idx)) (block (row_idx, col_idx))
               {[inl row_idx; inl col_idx]})).
  intros fuel' Hle. unfold update_revelation_matrix.
  apply (update_loop_returns mines flagged adjacency_matrix revealed sh Hm Hf Ha Hr
           (row_idx, col_idx)).
  - rewrite (proj1 Hr). apply np_zeros_grid.
  - intros x Hx. unfold universe. apply elem_of_union. left. by apply elem_of_list_to_set.
  - lia.
Qed.

Lemma update_revelation_matrix_returns_witness :
  ∃ fuel, ∀ fuel', (fuel ≤ fuel')%nat →
    ∃ r, update_revelation_matrix mines_3x3 blank_3x3 adjacency_3x3 blank_3x3
           fuel' (-5) 7 = Ok r.
Proof.
  apply (update_revelation_matrix_returns mines_3x3 blank_3x3 adjacency_3x3 blank_3x3
           (3%nat, 3%nat) (-5) 7).
  - split; reflexivity.
  - split; reflexivity.
  - split; reflexivity.
  - split; reflexivity.
Defined.

Section sweep_facts.
Variables mines flagged adjacency_matrix revealed : ndarray Z.
Variable sh : nat * nat.
Hypothesis mines_grid : grid_of sh mines.
Hypothesis flagged_grid : grid_of sh flagged.
Hypothesis adjacency_grid : grid_of sh adjacency_matrix.
Hypothesis revealed_grid : grid_of sh revealed.

(** One iteration of the loop. *)
Lemma update_loop_step (fuel : nat) (to_test rest : list (Z * Z)) (item : Z * Z)
    (checked : gset (Z + Z * Z)) (upd : ndarray Z) :
  list_pop to_test = Some (item, rest) → grid_of sh upd →
  update_loop mines flagged adjacency_matrix revealed (S fuel) to_test checked upd
  = update_loop mines flagged adjacency_matrix revealed fuel
      (rest ++ sweep_work adjacency_matrix revealed sh checked item)
      ({[inr item]} ∪ checked)
      (if decide (sweep_marks mines flagged adjacency_matrix revealed sh item)
       then mark upd item else upd).
Proof.
  intros Hpop Hg. simpl. rewrite Hpop. rewrite (proj1 adjacency_grid).
  unfold sweep_work, sweep_marks, spreads, markable.
  case_bool_decide as Hb.
  { rewrite !decide_False, app_nil_r; [done|..]; unfold in_bounds; lia. }
  assert (in_bounds sh item) as Hitem by (unfold in_bounds; lia).
  rewrite (np_get_in_bounds revealed item) by in_grid revealed_grid. simpl.
  destruct (truthy (cell revealed item)) eqn:Er.
  { apply truthy_true in Er. rewrite !decide_False, app_nil_r; [done|tauto..]. }
  apply truthy_false in Er.
  rewrite (np_get_in_bounds adjacency_matrix item) by in_grid adjacency_grid. simpl.
  assert (np_set upd item 1 = Ok (mark upd item)) as Hs.
  { unfold mark. apply np_set_in_bounds; in_grid Hg. }
  case_bool_decide as Ha.
  - rewrite Hs. simpl. by rewrite !decide_True by tauto.
  - rewrite (decide_False (P := _ ∧ _ ∧ _)), app_nil_r by tauto.
    rewrite (np_get_in_bounds mines item) by in_grid mines_grid. simpl.
    destruct (truthy (cell mines item)) eqn:Em; simpl.
    { apply truthy_true in Em. rewrite decide_False; [done|tauto]. }
    apply truthy_false in Em.
    rewrite (np_get_in_bounds flagged item) by in_grid flagged_grid. simpl.
    destruct (truthy (cell flagged item)) eqn:Ef; simpl.
    { apply truthy_true in Ef. rewrite decide_False; [done|tauto]. }
    apply truthy_false in Ef. rewrite Hs. simpl. by rewrite decide_True by tauto.
Qed.

Variable seed : Z * Z.

Lemma sweep_inv_init :
  sweep_inv sh mines flagged adjacency_matrix revealed seed (block seed)
    {[inl seed.1; inl seed.2]} (np_zeros sh).
Proof.
  assert (∀ q : Z * Z, inr q ∉ ({[inl seed.1; inl seed.2]} : gset (Z + Z * Z))) as Hno.
  { intros q [H|H]%elem_of_union; apply elem_of_singleton in H; discriminate. }
  split.
  - apply np_zeros_grid.
  - apply np_zeros_grid.
  - intros q Hq. by constructor.
  - intros q Hq. by apply Hno in Hq.
  - intros q Hq. rewrite cell_zeros. split; [done|]. intros [Hc _]. by apply Hno in Hc.
  - intros p q Hp. by apply Hno in Hp.
  - intros q Hq. by right.
Qed.

Lemma sweep_inv_step (to_test rest : list (Z * Z)) (item : Z * Z)
    (checked : gset (Z + Z * Z)) (upd : ndarray Z) :
  sweep_inv sh mines flagged adjacency_matrix revealed seed to_test checked upd →
  to_test = rest ++ [item] →
  sweep_inv sh mines flagged adjacency_matrix revealed seed
    (rest ++ sweep_work adjacency_matrix revealed sh checked item)
    ({[inr item]} ∪ checked)
    (if decide (sweep_marks mines flagged adjacency_matrix revealed sh item)
     then mark upd item else upd).
Proof.
  intros [Hg Hb Hwork Hchecked Hmarked Hclosed Hstart] ->.
  assert (visited adjacency_matrix revealed sh seed item) as Hitem.
  { apply Hwork. apply elem_of_app. right. by left. }
  assert (∀ q, inr q ∈ ({[inr item]} ∪ checked : gset (Z + Z * Z)) ↔ q = item ∨ inr q ∈ checked)
    as Hin.
  { intros q. rewrite elem_of_union, elem_of_singleton. split.
    - intros [[= ->]|]; auto.
    - intros [->|]; auto. }
  assert (∀ q, q ∈ sweep_work adjacency_matrix revealed sh checked item ↔
               spreads adjacency_matrix revealed sh item ∧ (inr q ∉ checked) ∧ q ∈ block item)
    as Hnew.
  { intros q. unfold sweep_work. destruct (decide (spreads _ _ _ item)).
    - rewrite list_elem_of_filter. tauto.
    - rewrite elem_of_nil. tauto. }
  assert (∀ q, inr q ∈ checked ∨ q ∈ rest ++ [item] →
               inr q ∈ ({[inr item]} ∪ checked : gset (Z + Z * Z)) ∨
               q ∈ rest ++ sweep_work adjacency_matrix revealed sh checked item) as Hkeep.
  { intros q [Hq|[Hq|Hq]%elem_of_app].
    - left. apply Hin. by right.
    - right. apply elem_of_app. by left.
    - apply list_elem_of_singleton in Hq as ->. left. apply Hin. by left. }
  split.
  - destruct (decide (sweep_marks _ _ _ _ _ item)); [|done].
    exact (proj1 (mark_grid sh upd item Hg Hb)).
  - destruct (decide (sweep_marks _ _ _ _ _ item)); [|done].
    exact (proj2 (mark_grid sh upd item Hg Hb)).
  - intros q [Hq|Hq]%elem_of_app.
    + apply Hwork. apply elem_of_app. by left.
    + apply Hnew in Hq as (Hsp & _ & Hq). by eapply visited_step.
  - intros q [->|Hq]%Hin; auto.
  - intros q Hq. rewrite Hin.
    destruct (decide (sweep_marks _ _ _ _ _ item)) as [[Hib Hm]|Hn].
    + rewrite (cell_mark sh) by done. destruct (decide (item = q)) as [<-|Hne]; [tauto|].
      rewrite Hmarked by done. intuition congruence.
    + rewrite Hmarked by done. split; [tauto|]. intros [[->|Hc] Hm]; [|done].
      exfalso. apply Hn. by split.
  - intros p q [->|Hp]%Hin Hsp Hq.
    + destruct (decide (inr q ∈ checked)) as [|Hnc].
      * left. apply Hin. by right.
      * right. apply elem_of_app. right. by apply Hnew.
    + apply Hkeep. by eapply Hclosed.
  - intros q Hq. by apply Hkeep, Hstart.
Qed.

Lemma sweep_inv_final (checked : gset (Z + Z * Z)) (upd : ndarray Z) :
  sweep_inv sh mines flagged adjacency_matrix revealed seed [] checked upd →
  marks sh upd (sweep mines flagged adjacency_matrix revealed sh seed).
Proof.
  intros [Hg Hb Hwork Hchecked Hmarked Hclosed Hstart].
  assert (∀ q, visited adjacency_matrix revealed sh seed q → inr q ∈ checked) as Hall.
  { induction 1 as [q Hq|p q _ IH Hsp Hq].
    - destruct (Hstart q Hq) as [|Hn]; [done|]. by apply elem_of_nil in Hn.
    - destruct (Hclosed p q IH Hsp Hq) as [|Hn]; [done|]. by apply elem_of_nil in Hn. }
  split_and!; [done..|]. intros q Hq. rewrite Hmarked by done. unfold sweep.
  split; intros [? ?]; auto.
Qed.

Lemma update_loop_correct (fuel : nat) (to_test : list (Z * Z))
    (checked : gset (Z + Z * Z)) (upd r : ndarray Z) :
  sweep_inv sh mines flagged adjacency_matrix revealed seed to_test checked upd →
  update_loop mines flagged adjacency_matrix revealed fuel to_test checked upd = Ok r →
  marks sh r (sweep mines flagged adjacency_matrix revealed sh seed).
Proof.
  revert to_test checked upd.
  induction fuel as [|fuel IH]; intros to_test checked upd Hinv H.
  - simpl in H. destruct (list_pop to_test) as [[item rest]|] eqn:Epop; [done|].
    injection H as <-. apply list_pop_None in Epop as ->. by eapply sweep_inv_final.
  - destruct (list_pop to_test) as [[item rest]|] eqn:Epop.
    + pose proof (sweep_grid _ _ _ _ _ _ _ _ _ Hinv) as Hg.
      rewrite (update_loop_step fuel to_test rest item checked upd Epop Hg) in H.
      eapply IH; [|exact H]. eapply sweep_inv_step; [exact Hinv|]. by apply list_pop_Some.
    + simpl in H. rewrite Epop in H. injection H as <-.
      apply list_pop_None in Epop as ->. by eapply sweep_inv_final.
Qed.
End sweep_facts.

Lemma update_revelation_matrix_correct (mines flagged adjacency_matrix revealed r : ndarray Z)
    (sh : nat * nat) (fuel : nat) (row_idx col_idx : Z) :
  grid_of sh mines → grid_of sh flagged → grid_of sh adjacency_matrix →
  grid_of sh revealed →
  update_revelation_matrix mines flagged adjacency_matrix revealed fuel row_idx col_idx
  = Ok r →
  marks sh r (sweep mines flagged adjacency_matrix revealed sh (row_idx, col_idx)).
Proof.
  intros Hm Hf Ha Hr H. unfold update_revelation_matrix in H.
  eapply update_loop_correct; [done..| |exact H].
  rewrite (proj1 Hr). by apply (sweep_inv_init _ _ _ _ _ (row_idx, col_idx)).
Qed.

(** X18. [update_revelation_matrix] returns the grid that marks exactly
    the markable cells it visits: the cells that are not revealed, have
    no mine around them or are neither mined nor flagged, and lie in the
    block around the picked position or around a covered cell with no
    mine around it that is visited itself. *)
Theorem update_revelation_matrix_marks_sweep
    (mines flagged adjacency_matrix revealed : ndarray Z) (sh : nat * nat)
    (row_idx col_idx : Z) :
  grid_of sh mines → grid_of sh flagged → grid_of sh adjacency_matrix →
  grid_of sh revealed →
  ∃ fuel r,
    update_revelation_matrix mines flagged adjacency_matrix revealed fuel row_idx col_idx
    = Ok r ∧
    marks sh r (sweep mines flagged adjacency_matrix revealed sh (row_idx, col_idx)).
Proof.
  intros Hm Hf Ha Hr.
  destruct (update_revelation_matrix_exists mines flagged adjacency_matrix revealed sh
              row_idx col_idx Hm Hf Ha Hr) as (fuel & r & H).
  exists fuel, r. split; [done|]. by eapply update_revelation_matrix_correct.
Qed.

Lemma update_revelation_matrix_marks_sweep_witness :
  ∃ fuel r,
    update_revelation_matrix mines_3x3 blank_3x3 adjacency_3x3 revealed_3x3 fuel 1 1
    = Ok r ∧
    marks (3%nat, 3%nat) r (sweep mines_3x3 blank_3x3 adjacency_3x3 revealed_3x3
                              (3%nat, 3%nat) (1, 1)).
Proof.
  apply (update_revelation_matrix_marks_sweep mines_3x3 blank_3x3 adjacency_3x3
           revealed_3x3 (3%nat, 3%nat) 1 1).
  - split; reflexivity.
  - split; reflexivity.
  - split; reflexivity.
  - split; reflexivity.
Defined.

Lemma marks_ext (sh : nat * nat) (r : ndarray Z) (S S' : Z * Z → Prop) :
  (∀ q, in_bounds sh q → S q ↔ S' q) → marks sh r S → marks sh r S'.
Proof.
  intros Heq (Hg & Hb & Hiff). split_and!; [done..|].
  intros q Hq. by rewrite Hiff, Heq.
Qed.

Lemma marks_nonzero (sh : nat * nat) (r : ndarray Z) (S : Z * Z → Prop) (q : Z * Z) :
  marks sh r S → in_bounds sh q → cell r q ≠ 0 → S q.
Proof.
  intros (_ & Hb & Hiff) Hq Hc. apply Hiff; [done|].
  destruct (binary_cell r q Hb); [done|done].
Qed.

(** X19. With the adjacency grid generated from the mines,
    [update_revelation_matrix] never marks a mine, never marks a revealed
    cell, and marks a flagged cell only if no mine is around it. *)
Theorem update_revelation_matrix_spares_mines (mines flagged revealed r : ndarray Z)
    (sh : nat * nat) (fuel : nat) (row_idx col_idx : Z) :
  grid_of sh mines → binary mines → grid_of sh flagged → grid_of sh revealed →
  update_revelation_matrix mines flagged (generate_adjacency_matrix mines) revealed
    fuel row_idx col_idx = Ok r →
  grid_of sh r ∧
  ∀ q, in_bounds sh q → cell r q ≠ 0 →
       cell mines q = 0 ∧ cell revealed q = 0 ∧
       (cell flagged q = 0 ∨ cell (generate_adjacency_matrix mines) q = 0).
Proof.
  intros Hm Hmb Hf Hr H.
  assert (grid_of sh (generate_adjacency_matrix mines)) as Ha.
  { rewrite <- (proj1 Hm). apply generate_adjacency_matrix_grid. }
  apply (update_revelation_matrix_correct _ _ _ _ _ sh) in H; [|done..].
  split; [apply H|]. intros q Hq Hc.
  destruct (marks_nonzero _ _ _ q H Hq Hc) as [_ [Hrev Hcase]].
  assert (cell (generate_adjacency_matrix mines) q = 0 → cell mines q = 0) as Hzero.
  { rewrite generate_adjacency_matrix_cell by (by rewrite ?(proj1 Hm)).
    intros E. apply (count_around_0 mines q); [lia|].
    apply neighbourhood_centre. by rewrite (proj1 Hm). }
  destruct Hcase as [E|[E1 E2]]; split_and!; auto.
Qed.

Lemma update_revelation_matrix_spares_mines_witness :
  ∃ r, update_revelation_matrix mines_3x3 blank_3x3 (generate_adjacency_matrix mines_3x3)
         blank_3x3 60 0 0 = Ok r ∧
       grid_of (3%nat, 3%nat) r ∧
       ∀ q, in_bounds (3%nat, 3%nat) q → cell r q ≠ 0 →
            cell mines_3x3 q = 0 ∧ cell blank_3x3 q = 0 ∧
            (cell blank_3x3 q = 0 ∨ cell (generate_adjacency_matrix mines_3x3) q = 0).
Proof.
  eexists. split; [vm_compute; reflexivity|].
  apply (update_revelation_matrix_spares_mines mines_3x3 blank_3x3 blank_3x3 _
           (3%nat, 3%nat) 60 0 0).
  - split; reflexivity.
  - unfold binary. simpl. repeat (apply Forall_cons_2; [lia|]). apply Forall_nil_2.
  - split; reflexivity.
  - split; reflexivity.
  - vm_compute. reflexivity.
Defined.

Lemma count_around_zeros (sh : nat * nat) (p : Z * Z) : count_around (np_zeros sh) p = 0%nat.
Proof. apply count_around_0. intros q _. apply cell_zeros. Qed.

Lemma block_neighbourhood (sh : nat * nat) (p q : Z * Z) :
  q ∈ neighbourhood sh p ↔ in_bounds sh q ∧ q ∈ block p.
Proof. rewrite elem_of_neighbourhood, elem_of_block. tauto. Qed.

Section agreement.
Variables mines revealed : ndarray Z.
Variable sh : nat * nat.
Hypothesis mines_grid : grid_of sh mines.
Hypothesis mines_binary : binary mines.
Hypothesis revealed_grid : grid_of sh revealed.
Variable seed : Z * Z.
Hypothesis seed_in_bounds : in_bounds sh seed.
Hypothesis seed_covered : cell revealed seed = 0.
Hypothesis seed_blank : cell (generate_adjacency_matrix mines) seed = 0.

Lemma blank_gate (p : Z * Z) :
  in_bounds sh p →
  (gate_open (np_zeros sh) (generate_adjacency_matrix mines) p ↔
   cell (generate_adjacency_matrix mines) p = 0).
Proof.
  intros Hp. unfold gate_open. rewrite count_around_zeros.
  rewrite generate_adjacency_matrix_cell by (by rewrite ?(proj1 mines_grid)). lia.
Qed.

Lemma blank_no_mine (p q : Z * Z) :
  in_bounds sh p → cell (generate_adjacency_matrix mines) p = 0 →
  q ∈ block p → in_bounds sh q → cell mines q = 0.
Proof.
  intros Hp Ha Hq Hqb.
  rewrite generate_adjacency_matrix_cell in Ha by (by rewrite ?(proj1 mines_grid)).
  apply (count_around_0 mines p); [lia|].
  rewrite (proj1 mines_grid). by apply block_neighbourhood.
Qed.

Lemma reach_sweep (q : Z * Z) :
  reach (np_zeros sh) (generate_adjacency_matrix mines) revealed seed q →
  in_bounds sh q ∧
  sweep mines (np_zeros sh) (generate_adjacency_matrix mines) revealed sh seed q.
Proof.
  induction 1 as [|p q Hp [Hpb [Hpv [Hpr _]]] Hg Hq [Hqr Hqf]].
  - split; [done|]. split.
    + apply visited_block. apply elem_of_block. lia.
    + split; [done|by left].
  - simpl in Hq. apply block_neighbourhood in Hq as [Hqb Hq].
    apply blank_gate in Hg; [|done].
    split; [done|]. split.
    + eapply visited_step; [exact Hpv| |done]. by split_and!.
    + split; [done|]. right. split; [|done].
      exact (blank_no_mine p q Hpb Hg Hq Hqb).
Qed.

Lemma visited_reach (q : Z * Z) :
  visited (generate_adjacency_matrix mines) revealed sh seed q →
  in_bounds sh q → cell revealed q = 0 →
  reach (np_zeros sh) (generate_adjacency_matrix mines) revealed seed q.
Proof.
  intros Hv Hqb Hqr.
  assert (coverable (np_zeros sh) revealed q) as Hc.
  { split; [done|apply cell_zeros]. }
  destruct Hv as [q Hq|p q Hp (Hpb & Hpr & Hpa) Hq].
  - eapply (reach_step _ _ _ _ seed q); [constructor|by apply blank_gate| |done].
    simpl. by apply block_neighbourhood.
  - eapply (reach_step _ _ _ _ p q); [|by apply blank_gate| |done].
    + clear q Hqb Hqr Hc Hq.
      induction Hp as [p Hp|p' p Hp' IH (Hpb' & Hpr' & Hpa') Hp].
      * eapply (reach_step _ _ _ _ seed p); [constructor|by apply blank_gate| |].
        -- simpl. by apply block_neighbourhood.
        -- split; [done|apply cell_zeros].
      * eapply (reach_step _ _ _ _ p' p); [by apply IH|by apply blank_gate| |].
        -- simpl. by apply block_neighbourhood.
        -- split; [done|apply cell_zeros].
    + simpl. by apply block_neighbourhood.
Qed.

Lemma sweep_flood (auto_reveal : bool) (q : Z * Z) :
  in_bounds sh q →
  (flood (np_zeros sh) (generate_adjacency_matrix mines) revealed seed auto_reveal q ↔
   sweep mines (np_zeros sh) (generate_adjacency_matrix mines) revealed sh seed q).
Proof.
  intros Hq. unfold flood. rewrite seed_blank. simpl. rewrite andb_false_r. split.
  - by intros [_ ?]%reach_sweep.
  - intros [Hv [Hr _]]. by apply visited_reach.
Qed.
End agreement.

(** X20. On a board without flags, picked at a covered cell with no mine
    around it, [update_revelation_matrix] and [reveal_square] return the
    same update grid. *)
Theorem update_revelation_matrix_agrees (set_order : gset (Z * Z) → list (Z * Z))
    (mines revealed : ndarray Z) (sh : nat * nat) (row_idx col_idx : Z)
    (auto_reveal : bool) :
  (∀ s, set_order s ≡ₚ elements s) →
  grid_of sh mines → binary mines → grid_of sh revealed →
  in_bounds sh (row_idx, col_idx) →
  cell revealed (row_idx, col_idx) = 0 →
  cell (generate_adjacency_matrix mines) (row_idx, col_idx) = 0 →
  ∃ r,
    (∃ fuel, reveal_square set_order list_pop (np_zeros sh) (generate_adjacency_matrix mines)
               revealed fuel row_idx col_idx auto_reveal = Ok r) ∧
    (∃ fuel, update_revelation_matrix mines (np_zeros sh) (generate_adjacency_matrix mines)
               revealed fuel row_idx col_idx = Ok r).
Proof.
  intros Hso Hm Hmb Hr Hseed Hcov Hblank.
  assert (grid_of sh (generate_adjacency_matrix mines)) as Ha.
  { rewrite <- (proj1 Hm). apply generate_adjacency_matrix_grid. }
  destruct (np_zeros_grid sh) as [Hz Hzb].
  destruct (reveal_square_terminates set_order Hso (np_zeros sh)
              (generate_adjacency_matrix mines) revealed sh Hz Hzb Ha Hr
              list_pop reverse list_pop_view reverse_Permutation list_pop_leading
              (row_idx, col_idx) Hseed auto_reveal) as (fuel1 & r1 & H1).
  destruct (update_revelation_matrix_exists mines (np_zeros sh)
              (generate_adjacency_matrix mines) revealed sh row_idx col_idx Hm Hz Ha Hr)
    as (fuel2 & r2 & H2).
  pose proof H1 as H1'. pose proof H2 as H2'.
  apply (reveal_square_correct set_order Hso _ _ _ sh Hz Hzb Ha Hr list_pop reverse
           list_pop_None list_pop_view reverse_Permutation (row_idx, col_idx) Hseed) in H1'.
  apply (update_revelation_matrix_correct _ _ _ _ _ sh) in H2'; [|done..].
  assert (r2 = r1) as ->.
  { eapply marks_unique; [exact H2'|]. eapply marks_ext; [|exact H1'].
    intros q Hq. by apply sweep_flood. }
  exists r1. split; by eexists.
Qed.

Lemma update_revelation_matrix_agrees_witness :
  ∃ r,
    (∃ fuel, reveal_square elements list_pop (np_zeros (3%nat, 3%nat))
               (generate_adjacency_matrix mines_3x3) revealed_3x3 fuel 0 2 true = Ok r) ∧
    (∃ fuel, update_revelation_matrix mines_3x3 (np_zeros (3%nat, 3%nat))
               (generate_adjacency_matrix mines_3x3) revealed_3x3 fuel 0 2 = Ok r).
Proof.
  apply (update_revelation_matrix_agrees elements mines_3x3 revealed_3x3 (3%nat, 3%nat)
           0 2 true).
  - apply elements_order.
  - split; reflexivity.
  - unfold binary. simpl. repeat (apply Forall_cons_2; [lia|]). apply Forall_nil_2.
  - split; reflexivity.
  - vm_compute. intuition discriminate.
  - reflexivity.
  - vm_compute. reflexivity.
Defined.

(** * Drawing the screen *)

Lemma py_getitem_Ok {A : Type} (l : list A) (i : Z) (v : A) :
  py_getitem l i = Ok v →
  ∃ k, np_index (length l) i = Some k ∧ l !! k = Some v.
Proof.
  unfold py_getitem. destruct (np_index (length l) i) as [k|]; [|done].
  destruct (l !! k) eqn:E; [|done]. intros [= ->]. by exists k.
Qed.

Lemma py_getitem_in_range {A : Type} (l : list A) (i : Z) :
  0 ≤ i < Z.of_nat (length l) →
  ∃ v, py_getitem l i = Ok v ∧ l !! Z.to_nat i = Some v.
Proof.
  intros Hi. unfold py_getitem. rewrite np_index_in_range by done.
  destruct (lookup_lt_is_Some_2 l (Z.to_nat i)) as [v Hv]; [lia|].
  exists v. by rewrite Hv.
Qed.

Lemma np_index_Some (n : nat) (i : Z) (k : nat) :
  np_index n i = Some k →
  (k < n)%nat ∧ (Z.of_nat k = i ∨ Z.of_nat k = Z.of_nat n + i ∧ i < 0).
Proof.
  unfold np_index. repeat case_bool_decide; intros [= <-]; lia.
Qed.

(** Cutting a line at an even index, as [_highlight_cursor_location]
    does, loses nothing. *)
Lemma py_slice_cut {A : Type} (l : list A) (c : Z) (k : nat) (x : A) :
  np_index (length l) (c * 2) = Some k → l !! k = Some x →
  py_slice_to l (c * 2) ++ [x] ++ py_slice_from l (c * 2 + 1) = l.
Proof.
  intros Hk Hx. apply np_index_Some in Hk as [Hlt Hk].
  unfold py_slice_to, py_slice_from, py_slice_bound.
  assert (take k l ++ [x] ++ drop (S k) l = l) as Hcut.
  { rewrite <- (take_drop_middle l k x Hx) at 3. done. }
  destruct Hk as [Hk|[Hk Hneg]].
  - rewrite !bool_decide_eq_true_2 by lia.
    replace (Z.to_nat (c * 2) `min` length l)%nat with k by lia.
    by replace (Z.to_nat (c * 2 + 1) `min` length l)%nat with (S k) by lia.
  - rewrite !bool_decide_eq_false_2 by lia.
    replace (Z.to_nat (Z.of_nat (length l) + c * 2)) with k by lia.
    by replace (Z.to_nat (Z.of_nat (length l) + (c * 2 + 1))) with (S k) by lia.
Qed.

(** X21. [_highlight_cursor_location] changes the style and never the
    text: when it returns, only the line of the cursor was replaced, by
    three fragments whose texts put together are the line as it was. *)
Theorem highlight_keeps_the_text (cursor_row cursor_col : Z) (cursor_style : string)
    (prerendered : list (list N)) (rendered rendered' : list (list (string * list N))) :
  length rendered = length prerendered →
  _highlight_cursor_location cursor_row cursor_col cursor_style prerendered rendered
  = Ok rendered' →
  ∃ k line head c tail,
    np_index (length prerendered) cursor_row = Some k ∧
    prerendered !! k = Some line ∧
    rendered' = <[k := [(""%string, head); (cursor_style, [c]); (""%string, tail)]]> rendered ∧
    head ++ [c] ++ tail = line.
Proof.
  intros Hlen H. unfold _highlight_cursor_location in H. inv_bind H.
  apply py_getitem_Ok in Hx as (k & Hk & Hline).
  apply py_getitem_Ok in Hx0 as (j & Hj & Hc).
  unfold py_setitem in H. rewrite Hlen, Hk in H. injection H as <-.
  exists k, x, (py_slice_to x (cursor_col * 2)), x0, (py_slice_from x (cursor_col * 2 + 1)).
  split_and!; [done..|]. by eapply py_slice_cut.
Qed.

Lemma highlight_keeps_the_text_witness :
  ∃ rendered' k line head c tail,
    _highlight_cursor_location (-1) 1 "red" [py_lit "a b c"; py_lit "d e f"]
      [[(""%string, py_lit "a b c")]; [(""%string, py_lit "d e f")]] = Ok rendered' ∧
    np_index (length [py_lit "a b c"; py_lit "d e f"]) (-1) = Some k ∧
    [py_lit "a b c"; py_lit "d e f"] !! k = Some line ∧
    rendered' = <[k := [(""%string, head); ("red"%string, [c]); (""%string, tail)]]>
                  [[(""%string, py_lit "a b c")]; [(""%string, py_lit "d e f")]] ∧
    head ++ [c] ++ tail = line.
Proof.
  eexists.
  refine (let H := highlight_keeps_the_text (-1) 1 "red" [py_lit "a b c"; py_lit "d e f"]
                     [[(""%string, py_lit "a b c")]; [(""%string, py_lit "d e f")]] _
                     eq_refl eq_refl in _).
  destruct H as (k & line & head & c & tail & H). exists k, line, head, c, tail.
  split; [reflexivity|exact H].
Defined.

Lemma dispatch_field (set_order : gset (Z * Z) → list (Z * Z)) (e : event)
    (c c' : FieldController) :
  fair_event e → dispatch set_order e c = Ok c' →
  _field c' = _field c ∨ ∃ o, fair_op o ∧ run_op set_order o (_field c) = Ok (_field c').
Proof.
  intros Hfair H. destruct e; simpl in H; try (injection H as <-; by left).
  - unfold handle_action in H. repeat case_bool_decide.
    + inv_bind H. injection H as <-. right.
      exists (ToggleFlag (_cursor_row c) (_cursor_col c)). by split.
    + inv_bind H. destruct x as [alive f]. right.
      exists (PickSquare fuel rs (_cursor_row c) (_cursor_col c) (_auto_reveal c)).
      split; [done|]. simpl. rewrite Hx. simpl. by destruct alive; injection H as <-.
    + injection H as <-. by left.
    + injection H as <-. by left.
    + injection H as <-. by left.
    + injection H as <-. by left.
    + injection H as <-. by left.
    + injection H as <-. by left.
  - left. by apply evaluate_win_condition_steps in H as [->| ->].
Qed.

(** What holds in every state of a game on a field with at least one row
    and one column. *)
Lemma run_events_game (set_order : gset (Z * Z) → list (Z * Z))
    (num_rows num_cols : Z) (ratio : float) (es : list event) (c0 c : FieldController) :
  0 < num_rows → 0 < num_cols →
  create_app num_rows num_cols ratio = Ok c0 →
  Forall fair_event es →
  run_events set_order es c0 = Ok c →
  controller_inv c ∧ consistent (_field c0) (_field c) ∧ cursor_in_bounds c ∧
  (_status c = Lost ↔ mine_revealed (_field c)) ∧
  (0 < rows (_field c))%nat ∧ (0 < cols (_field c))%nat.
Proof.
  intros Hr Hc H0 Hfair H.
  unfold create_app in H0. inv_bind H0. injection H0 as <-. rename x into f0.
  pose proof (Field_init_wf _ _ _ _ Hx) as [Hwf0 Hi0].
  pose proof (Field_init_consistent _ _ _ _ Hx) as Hcons0.
  assert (rows f0 = Z.to_nat num_rows ∧ cols f0 = Z.to_nat num_cols) as [Hrows0 Hcols0].
  { unfold Field_init in Hx. case_bool_decide; [|done]. by injection Hx as <-. }
  simpl.
  cut (controller_inv c ∧ consistent f0 (_field c) ∧ cursor_in_bounds c ∧
       (wf_field (_field c) ∧ (_status c = Lost ↔ mine_revealed (_field c)))).
  { intros (? & Hcons & ? & _ & ?). split_and!; try done.
    - destruct Hcons as (-> & _). lia.
    - destruct Hcons as (_ & -> & _). lia. }
  assert (controller_inv (FieldController_init f0) ∧
          consistent f0 (_field (FieldController_init f0)) ∧
          cursor_in_bounds (FieldController_init f0) ∧
          (wf_field (_field (FieldController_init f0)) ∧
           (_status (FieldController_init f0) = Lost ↔
            mine_revealed (_field (FieldController_init f0))))) as Hinit.
  { split; [|split; [|split; [|split]]]; simpl; try done.
    - unfold cursor_in_bounds, in_bounds. simpl. lia.
    - split; [done|]. intros (mines & q & Hm & _). unfold initialized in Hi0.
      rewrite Hm in Hi0. destruct Hwf0 as (_ & _ & _ & _ & Hma). rewrite Hm in Hma.
      by destruct (_adjacency_matrix f0). }
  clear Hx Hi0 Hwf0 Hcons0. revert H Hinit. generalize (FieldController_init f0) as c1.
  induction Hfair as [|e es He Hes IH]; intros c1 H (Hinv & Hcons & Hcur & Hlost);
    simpl in H.
  - injection H as <-. by destruct Hlost; split_and!.
  - inv_bind H. apply (IH x H). split; [|split; [|split]].
    + by eapply dispatch_inv.
    + destruct (dispatch_field _ _ _ _ He Hx) as [->|(o & Ho & Hop)]; [done|].
      by eapply consistent_run_op.
    + by eapply dispatch_cursor.
    + by eapply dispatch_lost_iff.
Qed.

Lemma omapM_Forall2 {A B : Type} (f : A → outcome B) (l : list A) (ys : list B) :
  omapM f l = Ok ys → Forall2 (λ x y, f x = Ok y) l ys.
Proof.
  revert ys. induction l as [|x l IH]; intros ys H; simpl in H.
  - injection H as <-. constructor.
  - inv_bind H. injection H as <-. constructor; [done|by apply IH].
Qed.

Lemma omapM_total {A B : Type} (f : A → outcome B) (P : B → Prop) (l : list A) :
  (∀ x, x ∈ l → ∃ y, f x = Ok y ∧ P y) →
  ∃ ys, omapM f l = Ok ys ∧ length ys = length l ∧ Forall P ys.
Proof.
  induction l as [|x l IH]; intros H.
  - exists []. by split_and!.
  - destruct (H x) as (y & Hy & HP); [by left|].
    destruct IH as (ys & Hys & Hlen & HF); [intros z Hz; apply H; by right|].
    exists (y :: ys). simpl. rewrite Hy. simpl. rewrite Hys. simpl.
    split_and!; [done|by rewrite Hlen|by constructor].
Qed.

Lemma concat_sep_length (sep : list N) (parts : list (list N)) :
  Forall (λ s, s ≠ []) parts →
  (length parts * (length sep + 1) ≤ length (concat ((λ y, sep ++ y) <$> parts)))%nat.
Proof.
  induction 1 as [|x parts Hx _ IH]; [simpl; lia|].
  rewrite fmap_cons, concat_cons, !length_app. destruct x; [done|].
  cbn [length]. lia.
Qed.

Lemma py_join_length (sep : list N) (parts : list (list N)) :
  length sep = 1%nat →
  Forall (λ s, s ≠ []) parts →
  (2 * length parts - 1 ≤ length (py_join sep parts))%nat.
Proof.
  intros Hsep H. destruct H as [|x parts Hx Hparts]; [simpl; lia|].
  unfold py_join. rewrite length_app.
  pose proof (concat_sep_length sep parts Hparts) as Hc. rewrite Hsep in Hc.
  destruct x; [done|]. cbn [length]. lia.
Qed.

Lemma highlight_Ok (cursor_row cursor_col : Z) (cursor_style : string)
    (prerendered : list (list N)) (rendered : list (list (string * list N)))
    (cols : nat) :
  length rendered = length prerendered →
  0 ≤ cursor_row < Z.of_nat (length prerendered) →
  0 ≤ cursor_col < Z.of_nat cols →
  Forall (λ line, (2 * cols - 1 ≤ length line)%nat) prerendered →
  ∃ rendered',
    _highlight_cursor_location cursor_row cursor_col cursor_style prerendered rendered
    = Ok rendered' ∧ length rendered' = length rendered.
Proof.
  intros Hlen Hrow Hcol Hlines. unfold _highlight_cursor_location.
  destruct (py_getitem_in_range prerendered cursor_row Hrow) as (line & -> & Hline).
  simpl.
  assert (2 * cols - 1 ≤ length line)%nat as Hl.
  { eapply (proj1 (Forall_forall _ _) Hlines). by eapply list_elem_of_lookup_2. }
  destruct (py_getitem_in_range line (cursor_col * 2)) as (ch & -> & _); [lia|].
  simpl. unfold py_setitem. rewrite np_index_in_range by lia.
  eexists. split; [done|]. by rewrite length_insert.
Qed.

Lemma convert_Ok (raw : list (list (list N))) (cursor_row cursor_col : Z) (auto : bool)
    (cols : nat) :
  0 ≤ cursor_row < Z.of_nat (length raw) →
  0 ≤ cursor_col < Z.of_nat cols →
  Forall (λ row, length row = cols ∧ Forall (λ s, s ≠ []) row) raw →
  ∃ full, _convert_to_ptkit_representation raw cursor_row cursor_col auto = Ok full ∧
          length full = (8 + length raw)%nat.
Proof.
  intros Hrow Hcol Hraw. unfold _convert_to_ptkit_representation.
  destruct (highlight_Ok cursor_row cursor_col "fg:ansiblack bg:ansigreen"
              (py_join (py_lit " ") <$> raw)
              ((λ line, [(""%string, line)]) <$> (py_join (py_lit " ") <$> raw)) cols)
    as (ren & -> & Hlen).
  - by rewrite !length_fmap.
  - by rewrite length_fmap.
  - done.
  - apply Forall_fmap. eapply Forall_impl; [exact Hraw|]. simpl.
    intros row [<- Hne]. by apply py_join_length.
  - simpl. eexists. split; [done|]. simpl. by rewrite Hlen, !length_fmap.
Qed.

Lemma np_rows_grid (m : ndarray Z) (sh : nat * nat) :
  grid_of sh m → binary m →
  length (np_rows m) = sh.1 ∧
  Forall (λ row, length row = sh.2 ∧ Forall (λ v, v = 0 ∨ v = 1) row) (np_rows m).
Proof.
  intros [Hs Hw] Hb. unfold np_rows. rewrite Hs. split.
  - by rewrite length_fmap, length_seq.
  - apply Forall_fmap, Forall_forall. intros i [_ Hi]%elem_of_seq. simpl. split.
    + rewrite length_take, length_drop. unfold well_formed, size_of in Hw.
      rewrite Hw, Hs. simpl in *. nia.
    + by apply Forall_take, Forall_drop.
Qed.

Lemma death_Ok (MINE : list N) (m : ndarray Z) (sh : nat * nat)
    (cursor_row cursor_col : Z) (auto : bool) :
  MINE ≠ [] → grid_of sh m → binary m → in_bounds sh (cursor_row, cursor_col) →
  ∃ death, render_death_screen MINE (Some m) cursor_row cursor_col auto = Ok death ∧
           length death = (8 + sh.1 + 2)%nat.
Proof.
  intros HM Hg Hb [Hr Hc]. simpl in Hr, Hc. unfold render_death_screen.
  destruct (np_rows_grid m sh Hg Hb) as [Hlen Hrows].
  destruct (omapM_total
              (λ row,
                 chars ← omapM (λ flag, ch ← py_getitem (py_lit " " ++ MINE) flag; Ok [ch])
                           row;
                 Ok (py_join (py_lit " ") chars))
              (λ line, (2 * sh.2 - 1 ≤ length line)%nat) (np_rows m))
    as (pre & -> & Hprelen & Hpre).
  { intros row Hrow. apply (proj1 (Forall_forall _ _) Hrows) in Hrow as [Hrl Hrb].
    destruct (omapM_total (λ flag, ch ← py_getitem (py_lit " " ++ MINE) flag; Ok [ch])
                (λ s, s ≠ []) row) as (chars & -> & Hcl & Hcn).
    { intros flag Hflag. apply (proj1 (Forall_forall _ _) Hrb) in Hflag.
      destruct (py_getitem_in_range (py_lit " " ++ MINE) flag) as (ch & -> & _).
      - rewrite length_app. change (length (py_lit " ")) with 1%nat.
        destruct MINE; [done|]. simpl. lia.
      - simpl. by eexists. }
    simpl. eexists. split; [done|]. rewrite <- Hrl, <- Hcl. by apply py_join_length. }
  simpl.
  destruct (highlight_Ok cursor_row cursor_col "fg:ansiwhite bg:ansired" pre
              ((λ line, [(""%string, line)]) <$> pre) sh.2) as (ren & -> & Hrl).
  - by rewrite length_fmap.
  - lia.
  - done.
  - done.
  - simpl. eexists. split; [done|]. simpl.
    rewrite length_app, Hrl, length_fmap. simpl. lia.
Qed.

Lemma digit_single (a : Z) : 0 ≤ a ≤ 9 → length (py_lit (pretty a)) = 1%nat.
Proof.
  intros Ha.
  assert (a = 0 ∨ a = 1 ∨ a = 2 ∨ a = 3 ∨ a = 4 ∨ a = 5 ∨ a = 6 ∨ a = 7 ∨ a = 8 ∨ a = 9)
    as Hcases by lia.
  repeat (destruct Hcases as [->|Hcases]; [by vm_compute|]). subst. by vm_compute.
Qed.

Lemma render_square_icon (P : list N → Prop) (FLAG UNKNOWN MINE BLANK : list N)
    (f0 f : Field) (p : Z * Z) (s : list N) :
  P FLAG → P UNKNOWN → P MINE → P BLANK →
  (∀ a, 0 ≤ a ≤ 9 → P (py_lit (pretty a))) →
  consistent f0 f → in_bounds (rows f, cols f) p →
  render_square FLAG UNKNOWN MINE BLANK f p = Ok s → P s.
Proof.
  intros HF HU HM HB HD (Hr & Hc & _ & Hcons) Hp H. unfold render_square in H.
  inv_bind H. destruct (truthy x); simpl in H.
  - inv_bind H. destruct (truthy x0); [by injection H as <-|].
    inv_bind H. case_bool_decide as Ha; [by injection H as <-|].
    inv_bind H. injection H as <-.
    destruct (_mines f) as [mines|], (_adjacency_matrix f) as [adj|]; try done.
    destruct Hcons as ((Hms & Hmw & Hmb & _) & ->).
    rewrite Hx2 in Hx1. injection Hx1 as ->.
    rewrite <- Hr, <- Hc in Hms.
    rewrite np_get_in_bounds in Hx2.
    + injection Hx2 as <-. apply HD.
      rewrite generate_adjacency_matrix_cell by (by rewrite ?Hms).
      pose proof (count_around_le mines p). lia.
    + apply generate_adjacency_matrix_grid.
    + by rewrite (proj1 (generate_adjacency_matrix_grid mines)), Hms.
  - inv_bind H. injection H as <-. by destruct (truthy x0).
Qed.

Lemma render_field_Ok (FLAG UNKNOWN MINE BLANK : list N) (f0 f : Field) :
  FLAG ≠ [] → UNKNOWN ≠ [] → MINE ≠ [] → BLANK ≠ [] →
  wf_field f → consistent f0 f →
  ∃ rep, render_field FLAG UNKNOWN MINE BLANK f = Ok rep ∧ length rep = rows f ∧
         Forall (λ row, length row = cols f ∧ Forall (λ s, s ≠ []) row) rep.
Proof.
  intros HF HU HM HB Hwf Hcons.
  assert (initialized f = false → ∀ q, cell (_revealed f) q = 0) as Hun.
  { destruct Hcons as (_ & _ & _ & Hc). unfold initialized.
    destruct (_mines f), (_adjacency_matrix f); try done. }
  unfold render_field.
  destruct (omapM_total
              (λ row_idx,
                 omapM (λ col_idx, render_square FLAG UNKNOWN MINE BLANK f (row_idx, col_idx))
                   (seqZ 0 (Z.of_nat (cols f))))
              (λ row, length row = cols f ∧ Forall (λ s, s ≠ []) row)
              (seqZ 0 (Z.of_nat (rows f)))) as (rep & -> & Hlen & Hrep).
  { intros r Hr%elem_of_seqZ.
    destruct (omapM_total
                (λ col_idx, render_square FLAG UNKNOWN MINE BLANK f (r, col_idx))
                (λ s, s ≠ []) (seqZ 0 (Z.of_nat (cols f)))) as (row & -> & Hrl & Hrow).
    { intros c Hc%elem_of_seqZ.
      assert (in_bounds (rows f, cols f) (r, c)) as Hp by (unfold in_bounds; simpl; lia).
      destruct (render_square_Ok FLAG UNKNOWN MINE BLANK f (r, c) Hwf Hun Hp)
        as (s & Hs & _).
      exists s. split; [done|].
      apply (render_square_icon (λ s, s ≠ []) FLAG UNKNOWN MINE BLANK f0 f (r, c) s
               HF HU HM HB); [|done..].
      intros a Ha. pose proof (digit_single a Ha). by destruct (py_lit (pretty a)). }
    eexists. split; [done|]. split; [|done]. rewrite Hrl, length_seqZ. lia. }
  eexists. split; [done|]. split; [|done]. rewrite Hlen, length_seqZ. lia.
Qed.

(** X22. Drawing never raises during a game: with icons that are not
    empty, in every state of a game on a field with at least one row and
    one column [create_content] returns, its state being the one
    [evaluate_win_condition] leaves; the screen has the eight lines of
    the instructions and one line per row, two more on the death screen,
    and one line in all for a won game. *)
Theorem create_content_returns (FLAG UNKNOWN MINE BLANK : list N)
    (set_order : gset (Z * Z) → list (Z * Z))
    (num_rows num_cols : Z) (ratio : float) (es : list event) (c0 c : FieldController) :
  FLAG ≠ [] → UNKNOWN ≠ [] → MINE ≠ [] → BLANK ≠ [] →
  0 < num_rows → 0 < num_cols →
  create_app num_rows num_cols ratio = Ok c0 →
  Forall fair_event es →
  run_events set_order es c0 = Ok c →
  ∃ c' screen,
    create_content FLAG UNKNOWN MINE BLANK c = Ok (c', screen) ∧
    evaluate_win_condition c = Ok c' ∧
    length screen = screen_lines c'.
Proof.
  intros HF HU HM HB Hr Hc H0 Hfair H.
  destruct (run_events_game set_order num_rows num_cols ratio es c0 c Hr Hc H0 Hfair H)
    as (Hinv & Hcons & Hcur & Hlost & Hrows & Hcols).
  destruct (evaluate_win_condition_spec c Hinv) as (c' & Hev & _ & _).
  exists c'. unfold create_content. rewrite Hev. simpl.
  assert (_field c' = _field c ∧ _cursor_row c' = _cursor_row c ∧
          _cursor_col c' = _cursor_col c ∧ (_status c' = Lost → _status c = Lost))
    as (Hf & Hcr & Hcc & Hst).
  { by apply evaluate_win_condition_steps in Hev as [->| ->]. }
  unfold screen_lines. rewrite Hf, Hcr, Hcc.
  destruct Hinv as [Hwf _]. destruct Hcur as [Hcur1 Hcur2]. simpl in Hcur1, Hcur2.
  destruct (_status c') eqn:Est.
  - destruct (render_field_Ok FLAG UNKNOWN MINE BLANK (_field c0) (_field c)
                HF HU HM HB Hwf Hcons) as (rep & -> & Hlen & Hrep).
    simpl.
    destruct (convert_Ok rep (_cursor_row c) (_cursor_col c) (_auto_reveal c')
                (cols (_field c))) as (full & -> & Hfl); [lia|lia|done|].
    simpl. eexists. split_and!; [done..|]. by rewrite Hfl, Hlen.
  - destruct (proj1 Hlost (Hst eq_refl)) as (mines & q & Hm & _).
    rewrite Hm. pose proof Hwf as (_ & _ & _ & _ & Hma). rewrite Hm in Hma.
    destruct (_adjacency_matrix (_field c)); [|done]. destruct Hma as (Hmg & Hmb & _).
    destruct (death_Ok MINE mines (rows (_field c), cols (_field c)) (_cursor_row c)
                (_cursor_col c) (_auto_reveal c') HM Hmg Hmb) as (death & -> & Hdl).
    { by split. }
    simpl. eexists. by split_and!.
  - eexists. by split_and!.
Qed.

Lemma create_content_returns_witness :
  ∃ c, (create_app 2 2 0.5%float ≫= run_events elements more_events) = Ok c ∧
  ∃ c' screen,
    create_content (py_lit "F") (py_lit "?") (py_lit "*") (py_lit " ") c = Ok (c', screen) ∧
    evaluate_win_condition c = Ok c' ∧
    length screen = screen_lines c'.
Proof.
  eexists. split; [vm_compute; reflexivity|].
  eapply (create_content_returns (py_lit "F") (py_lit "?") (py_lit "*") (py_lit " ")
            elements 2 2 0.5%float more_events).
  - discriminate.
  - discriminate.
  - discriminate.
  - discriminate.
  - lia.
  - lia.
  - reflexivity.
  - unfold more_events.
    repeat (apply Forall_cons_2; [try exact I; apply rs_reverse_fair|]).
    apply Forall_nil_2.
  - vm_compute. reflexivity.
Defined.

Lemma concat_sep_lookup (sep : list N) (parts : list (list N)) (c : nat) (icon : list N) :
  length sep = 1%nat → Forall (λ s, length s = 1%nat) parts →
  parts !! c = Some icon →
  ∃ ch, icon = [ch] ∧ concat ((λ y, sep ++ y) <$> parts) !! (2 * c + 1)%nat = Some ch.
Proof.
  intros Hsep Hparts. revert c.
  induction Hparts as [|x parts Hx _ IH]; intros c Hc; [done|].
  destruct sep as [|s [|? ?]]; try done.
  destruct x as [|ch [|? ?]]; try done.
  destruct c as [|c]; simpl in Hc.
  - injection Hc as <-. by exists ch.
  - destruct (IH c Hc) as (ch' & -> & Hl). exists ch'. split; [done|].
    rewrite fmap_cons, concat_cons. simpl.
    replace (c + S (c + 0) + 1)%nat with (S (2 * c + 1)) by lia. simpl.
    by replace (c + (c + 0) + 1)%nat with (2 * c + 1)%nat by lia.
Qed.

Lemma py_join_lookup (sep : list N) (parts : list (list N)) (c : nat) (icon : list N) :
  length sep = 1%nat → Forall (λ s, length s = 1%nat) parts →
  parts !! c = Some icon →
  ∃ ch, icon = [ch] ∧ py_join sep parts !! (2 * c)%nat = Some ch.
Proof.
  intros Hsep Hparts Hc. destruct Hparts as [|x parts Hx Hparts]; [done|].
  destruct x as [|ch [|? ?]]; try done.
  destruct c as [|c]; simpl in Hc.
  - injection Hc as <-. by exists ch.
  - destruct (concat_sep_lookup sep parts c icon Hsep Hparts Hc) as (ch' & -> & Hl).
    exists ch'. split; [done|]. unfold py_join. simpl.
    by replace (c + S (c + 0))%nat with (2 * c + 1)%nat by lia.
Qed.

(** X23. With icons of one character each, the highlight sits on the
    cell of the cursor: while the game is on, line [8 + cursor_row] of
    the screen is made of three fragments, the middle one in the cursor's
    style holding the icon [render_field] gives the cell at the cursor,
    after [2 * cursor_col] characters. *)
Theorem cursor_highlight_on_its_cell (FLAG UNKNOWN MINE BLANK : list N)
    (set_order : gset (Z * Z) → list (Z * Z))
    (num_rows num_cols : Z) (ratio : float) (es : list event) (c0 c c' : FieldController)
    (screen : list (list (string * list N))) :
  length FLAG = 1%nat → length UNKNOWN = 1%nat → length MINE = 1%nat →
  length BLANK = 1%nat →
  0 < num_rows → 0 < num_cols →
  create_app num_rows num_cols ratio = Ok c0 →
  Forall fair_event es →
  run_events set_order es c0 = Ok c →
  create_content FLAG UNKNOWN MINE BLANK c = Ok (c', screen) →
  _status c' = Playing →
  ∃ head icon tail,
    screen !! (8 + Z.to_nat (_cursor_row c))%nat
    = Some [(""%string, head); ("fg:ansiblack bg:ansigreen"%string, icon); (""%string, tail)] ∧
    render_square FLAG UNKNOWN MINE BLANK (_field c) (_cursor_row c, _cursor_col c) = Ok icon ∧
    length head = (2 * Z.to_nat (_cursor_col c))%nat.
Proof.
  intros HF HU HM HB Hr Hc H0 Hfair H Hcc Hst.
  destruct (run_events_game set_order num_rows num_cols ratio es c0 c Hr Hc H0 Hfair H)
    as (Hinv & Hcons & [Hcur1 Hcur2] & _ & Hrows & Hcols).
  simpl in Hcur1, Hcur2.
  unfold create_content in Hcc. inv_bind Hcc. rename x into c1.
  assert (_field c1 = _field c ∧ _cursor_row c1 = _cursor_row c ∧
          _cursor_col c1 = _cursor_col c) as (Hf & Hcr & Hcl).
  { by apply evaluate_win_condition_steps in Hx as [->| ->]. }
  destruct (_status c1) eqn:Est.
  2:{ inv_bind Hcc. injection Hcc as <- _. congruence. }
  2:{ injection Hcc as <- _. congruence. }
  inv_bind Hcc. injection Hcc as <- <-. rename x into rep. rename x0 into full.
  rewrite Hf in Hx0. rewrite Hcr, Hcl in Hx1.
  (* the icons of the cursor's row *)
  apply omapM_Forall2 in Hx0 as Hrep.
  assert (seqZ 0 (Z.of_nat (rows (_field c))) !! Z.to_nat (_cursor_row c)
          = Some (_cursor_row c)) as Hlr.
  { apply lookup_seqZ. lia. }
  destruct (Forall2_lookup_l _ _ _ _ _ Hrep Hlr) as (row & Hrow & Hrow').
  apply omapM_Forall2 in Hrow' as Hicons.
  assert (seqZ 0 (Z.of_nat (cols (_field c))) !! Z.to_nat (_cursor_col c)
          = Some (_cursor_col c)) as Hlc.
  { apply lookup_seqZ. lia. }
  destruct (Forall2_lookup_l _ _ _ _ _ Hicons Hlc) as (icon & Hicon & Hicon').
  assert (Forall (λ s, length s = 1%nat) row) as Hsingle.
  { apply Forall_forall. intros s Hs.
    apply list_elem_of_lookup in Hs as [j Hj].
    destruct (Forall2_lookup_r _ _ _ _ _ Hicons Hj) as (cj & Hcj & Hsj).
    apply lookup_seqZ in Hcj as [-> Hjc].
    apply (render_square_icon (λ s, length s = 1%nat) FLAG UNKNOWN MINE BLANK
             (_field c0) (_field c) (_cursor_row c, 0 + Z.of_nat j) s
             HF HU HM HB digit_single Hcons); [|done].
    unfold in_bounds. simpl. lia. }
  destruct (py_join_lookup (py_lit " ") row (Z.to_nat (_cursor_col c)) icon eq_refl
              Hsingle Hicon) as (ch & -> & Hch).
  (* what the highlight does to that row *)
  unfold _convert_to_ptkit_representation in Hx1. inv_bind Hx1. injection Hx1 as <-.
  unfold _highlight_cursor_location in Hx2. inv_bind Hx2.
  apply py_getitem_Ok in Hx1 as (k & Hk & Hline).
  apply py_getitem_Ok in Hx3 as (j & Hj & Hc').
  unfold py_setitem in Hx2. rewrite !length_fmap in Hx2. rewrite length_fmap in Hk.
  rewrite Hk in Hx2. injection Hx2 as <-.
  assert (length rep = rows (_field c)) as Hreplen.
  { apply Forall2_length in Hrep. rewrite length_seqZ in Hrep. lia. }
  rewrite np_index_in_range in Hk by lia. injection Hk as <-.
  rewrite list_lookup_fmap, Hrow in Hline. injection Hline as <-.
  assert (length row = cols (_field c)) as Hrowlen.
  { apply Forall2_length in Hicons. rewrite length_seqZ in Hicons. lia. }
  assert (2 * cols (_field c) - 1 ≤ length (py_join (py_lit " ") row))%nat as Hjl.
  { rewrite <- Hrowlen. apply py_join_length; [done|].
    eapply Forall_impl; [exact Hsingle|]. simpl. by intros [|? ?]. }
  rewrite np_index_in_range in Hj by lia. injection Hj as <-.
  replace (Z.to_nat (_cursor_col c * 2)) with (2 * Z.to_nat (_cursor_col c))%nat in Hc'
    by lia.
  rewrite Hch in Hc'. injection Hc' as <-.
  eexists _, [ch], _. split_and!.
  - simpl. apply list_lookup_insert_eq. rewrite !length_fmap. lia.
  - done.
  - unfold py_slice_to, py_slice_bound. rewrite bool_decide_eq_true_2 by lia.
    rewrite length_take. lia.
Qed.

Lemma cursor_highlight_on_its_cell_witness :
  ∃ c c' screen,
    (create_app 2 2 0.5%float ≫= run_events elements opening_events) = Ok c ∧
    create_content (py_lit "F") (py_lit "?") (py_lit "*") (py_lit " ") c = Ok (c', screen) ∧
    _status c' = Playing ∧
    ∃ head icon tail,
      screen !! (8 + Z.to_nat (_cursor_row c))%nat
      = Some [(""%string, head); ("fg:ansiblack bg:ansigreen"%string, icon);
              (""%string, tail)] ∧
      render_square (py_lit "F") (py_lit "?") (py_lit "*") (py_lit " ") (_field c)
        (_cursor_row c, _cursor_col c) = Ok icon ∧
      length head = (2 * Z.to_nat (_cursor_col c))%nat.
Proof.
  eexists _, _, _. split; [vm_compute; reflexivity|]. split; [vm_compute; reflexivity|].
  split; [reflexivity|].
  eapply (cursor_highlight_on_its_cell (py_lit "F") (py_lit "?") (py_lit "*") (py_lit " ")
            elements 2 2 0.5%float opening_events).
  - reflexivity.
  - reflexivity.
  - reflexivity.
  - reflexivity.
  - lia.
  - lia.
  - reflexivity.
  - unfold opening_events.
    repeat (apply Forall_cons_2; [try exact I; apply rs_reverse_fair|]).
    apply Forall_nil_2.
  - vm_compute. reflexivity.
  - vm_compute. reflexivity.
  - reflexivity.
Defined.
